(** * emmylua-render: the type-annotation parser, hydrator and member resolver

    A shallow embedding of [src/emmylua_render/type_parser.py] (with the raw
    declaration records of [raw_models.py]) and the properties established
    about it.  Definitions follow the Python source function by function and
    keep its names. *)

From Stdlib Require Import List String Ascii ZArith Bool Arith Lia DecimalString.
From Stdlib Require DecimalZ DecimalPos.
Import ListNotations.
Open Scope string_scope.

Set Implicit Arguments.
Set Warnings "-register-all".

(** the double quote character *)
Definition dquote : ascii := ascii_of_nat 34.

(* ================================================================== *)
(** * Raw declaration records ([raw_models.py]) *)
(* ================================================================== *)

(** [class LuaTypeVar]: a generic type variable. *)
Module LuaTypeVar.
Record t := mk { name : string; base : option string }.
End LuaTypeVar.

(** [class FnParam]: a function parameter or return. *)
Module FnParam.
Record t := mk { name : option string; typ : option string; desc : option string }.
End FnParam.

(** [class Property]: doc metadata, passed through unchanged. *)
Module Property.
Record t := mk { description : option string; visibility : option string;
                   deprecated : bool }.
Definition empty : t := mk None None false.
End Property.

(** [class FieldMember]. *)
Module FieldMember.
Record t := mk { name : string; typ : string; literal : option string;
                   prop : Property.t }.
End FieldMember.

(** [class FnMember]. *)
Module FnMember.
Record t := mk { name : string; generics : list LuaTypeVar.t;
                   params : list FnParam.t; returns : list FnParam.t;
                   overloads : list string; prop : Property.t }.
End FnMember.

(** [Member = FnMember | FieldMember]. *)
Inductive Member :=
| MFn (m : FnMember.t)
| MField (m : FieldMember.t).

Definition member_name (m : Member) : string :=
  match m with
  | MFn f => FnMember.name f
  | MField f => FieldMember.name f
  end.

(** [class Class]: [members] is a [dict[str, Member]], kept here as an
    insertion-ordered association list. *)
Module Class.
Record t := mk { name : string; bases : list string;
                   generics : list LuaTypeVar.t;
                   members : list (string * Member) }.
End Class.

(** [class LuaEnum]. *)
Module LuaEnum.
Record t := mk { name : string; typ : option string;
                   generics : list LuaTypeVar.t; members : list Member }.
End LuaEnum.

(** [class Alias]. *)
Module Alias.
Record t := mk { name : string; typ : option string;
                   generics : list LuaTypeVar.t; members : list Member }.
End Alias.

(** [LuaType = Class | LuaEnum | Alias]. *)
Inductive LuaType :=
| TClass (c : Class.t)
| TEnum (e : LuaEnum.t)
| TAlias (a : Alias.t).

(* ================================================================== *)
(** * Python dictionaries *)
(* ================================================================== *)

(** A [dict] with string keys: an association list without duplicate keys
    in insertion order.  Assigning to an existing key keeps its position. *)
Section Dict.
Variable V : Type.

Definition dict := list (string * V).

Fixpoint dict_get (d : dict) (k : string) : option V :=
  match d with
  | [] => None
  | (k', v) :: d' => if String.eqb k' k then Some v else dict_get d' k
  end.

(** [d[k] = v] *)
Fixpoint dict_set (d : dict) (k : string) (v : V) : dict :=
  match d with
  | [] => [(k, v)]
  | (k', v') :: d' =>
      if String.eqb k' k then (k', v) :: d' else (k', v') :: dict_set d' k v
  end.

(** [for k, v in items: d[k] = v] *)
Definition dict_update (d : dict) (items : list (string * V)) : dict :=
  fold_left (fun acc kv => dict_set acc (fst kv) (snd kv)) items d.

(** [{k: v for k, v in items}] *)
Definition dict_of_items (items : list (string * V)) : dict :=
  dict_update [] items.

End Dict.

(* ================================================================== *)
(** * The resolved type model *)
(* ================================================================== *)

(** Keys of [TableType._fields]: [str | ResolvedType | None]. *)
Inductive TableKey (T : Type) :=
| KName (name : string)
| KType (t : T)
| KNone.
Arguments KName {T} name.
Arguments KType {T} t.
Arguments KNone {T}.

(** The classes deriving from [ResolvedType].  The [parser] attribute
    ([compare=False]) is the ambient catalog of the functions below and is not
    stored.  [typedef] and the eagerly computed [typ] of aliases and enums are
    stored: they take no part in comparison but differ between catalogs.

    [OptionalType], [ArrayType] and [VariadicType] replace their own
    [__class__] by a class created at construction,
    [type(name, (Wrapper, inner.__class__), {})]; [cls] identifies that class
    object.

    Tuples and lists of Python are both lists here ([EnumType.typ] holds a
    list of elements where the hydrator builds tuples). *)
Inductive ResolvedType :=
| PrimitiveType (name : string)
| StringType
| BooleanType
| NumberType
| IntegerType
| UnknownType
| NilType
| AnyType
| LiteralStr (value : string)
| LiteralInt (value : Z)
| LiteralBool (value : bool)
| StructType (name : string)
| ClassType (name : string) (typedef : Class.t)
| AliasType (name : string) (typedef : Alias.t) (typ : ResolvedType)
| EnumType (name : string) (typedef : LuaEnum.t) (typ : ResolvedType)
| GenericStructInstanceType (name : string) (type_args : list ResolvedType)
| GenericClassInstanceType (name : string) (type_args : list ResolvedType)
    (typedef : Class.t)
| GenericAliasInstanceType (name : string) (type_args : list ResolvedType)
    (typedef : Alias.t) (typ : ResolvedType)
| GenericEnumInstanceType (name : string) (type_args : list ResolvedType)
    (typedef : LuaEnum.t) (typ : ResolvedType)
| TableType (_fields : list (TableKey ResolvedType * ResolvedType))
    (omitted : bool)
| UnionType (elements : list ResolvedType) (omitted : bool)
| IntersectionType (elements : list ResolvedType) (omitted : bool)
| TupleType (elements : list ResolvedType)
| FunctionType (params : list (option string * ResolvedType))
    (rets : option ResolvedType)
| OptionalType (cls : nat) (inner : ResolvedType)
| ArrayType (cls : nat) (element_type : ResolvedType)
| VariadicType (cls : nat) (element_type : ResolvedType).

(* ================================================================== *)
(** * Exceptions and the construction monad *)
(* ================================================================== *)

(** The exceptions the modelled code raises.  [ParseError] stands for lark's
    [UnexpectedCharacters] and [UnexpectedToken], the two that
    [DocumentedFunction.from_member] catches.  [OutOfFuel] bounds the
    recursion of the model through the catalog. *)
Inductive Exn :=
| ParseError
| AssertionError
| IndexError
| TypeError
| AttributeError
| RecursionError
| RuntimeError
| KeyError
| OutOfFuel.

Inductive Res (A : Type) :=
| Ok (a : A)
| Raise (e : Exn).
Arguments Ok {A} a.
Arguments Raise {A} e.

(** Computations that create classes: the state is the number of classes
    created so far, used as the identity of the next one.  The classes created
    before an exception is raised stay created. *)
Definition M (A : Type) := nat -> Res A * nat.

Definition ret {A} (a : A) : M A := fun s => (Ok a, s).
Definition raise {A} (e : Exn) : M A := fun s => (Raise e, s).
Definition bind {A B} (m : M A) (f : A -> M B) : M B :=
  fun s => match m s with
           | (Ok a, s') => f a s'
           | (Raise e, s') => (Raise e, s')
           end.
(** [try: m except (UnexpectedCharacters, UnexpectedToken): h] *)
Definition catch_parse {A} (m : M A) (h : M A) : M A :=
  fun s => match m s with
           | (Raise ParseError, s') => h s'
           | r => r
           end.
(** [try: m except AttributeError: h] *)
Definition catch_attr {A} (m : M A) (h : M A) : M A :=
  fun s => match m s with
           | (Raise AttributeError, s') => h s'
           | r => r
           end.
(** the identity of a newly created class *)
Definition new_class : M nat := fun s => (Ok s, S s).
(** a computation that creates no class *)
Definition lift {A} (r : Res A) : M A := fun s => (r, s).
(** the result of a computation started when [s] classes exist *)
Definition run {A} (m : M A) (s : nat) : Res A := fst (m s).

Declare Scope m_scope.
Delimit Scope m_scope with M.
Notation "x <- c1 ;; c2" := (bind c1 (fun x => c2))
  (at level 61, c1 at next level, right associativity) : m_scope.
Notation "' pat <- c1 ;; c2" := (bind c1 (fun x => match x with pat => c2 end))
  (at level 61, pat pattern, c1 at next level, right associativity) : m_scope.
Open Scope m_scope.

Fixpoint mapM {A B} (f : A -> M B) (l : list A) : M (list B) :=
  match l with
  | [] => ret []
  | x :: xs => y <- f x ;; ys <- mapM f xs ;; ret (y :: ys)
  end.

(** ** [isinstance] and attribute lookup through the wrapper classes

    The class of a wrapper derives from the class of the wrapped value, so a
    wrapper is an instance of every class its content is an instance of. *)

Fixpoint isinstance_UnionType (t : ResolvedType) : bool :=
  match t with
  | UnionType _ _ => true
  | OptionalType _ x | ArrayType _ x | VariadicType _ x => isinstance_UnionType x
  | _ => false
  end.

Fixpoint isinstance_IntersectionType (t : ResolvedType) : bool :=
  match t with
  | IntersectionType _ _ => true
  | OptionalType _ x | ArrayType _ x | VariadicType _ x =>
      isinstance_IntersectionType x
  | _ => false
  end.

Fixpoint isinstance_OptionalType (t : ResolvedType) : bool :=
  match t with
  | OptionalType _ _ => true
  | ArrayType _ x | VariadicType _ x => isinstance_OptionalType x
  | _ => false
  end.

Fixpoint isinstance_ArrayType (t : ResolvedType) : bool :=
  match t with
  | ArrayType _ _ => true
  | OptionalType _ x | VariadicType _ x => isinstance_ArrayType x
  | _ => false
  end.

Fixpoint isinstance_VariadicType (t : ResolvedType) : bool :=
  match t with
  | VariadicType _ _ => true
  | OptionalType _ x | ArrayType _ x => isinstance_VariadicType x
  | _ => false
  end.

Fixpoint isinstance_FunctionType (t : ResolvedType) : bool :=
  match t with
  | FunctionType _ _ => true
  | OptionalType _ x | ArrayType _ x | VariadicType _ x =>
      isinstance_FunctionType x
  | _ => false
  end.

Fixpoint isinstance_AnyType (t : ResolvedType) : bool :=
  match t with
  | AnyType => true
  | OptionalType _ x | ArrayType _ x | VariadicType _ x => isinstance_AnyType x
  | _ => false
  end.

Fixpoint isinstance_NilType (t : ResolvedType) : bool :=
  match t with
  | NilType => true
  | OptionalType _ x | ArrayType _ x | VariadicType _ x => isinstance_NilType x
  | _ => false
  end.

(** The wrapper class whose methods ([__getattribute__], [__str__],
    [substitute_typevars]) come first in the method resolution order of a
    wrapper.  [OptionalType] and [VariadicType] list themselves first among
    the bases; [ArrayType.__init__] lists only the class of the element when
    the element is already an instance of [ArrayType]. *)
Inductive WrapperClass := WOptional | WArray | WVariadic.

Fixpoint method_class (t : ResolvedType) : option WrapperClass :=
  match t with
  | OptionalType _ _ => Some WOptional
  | VariadicType _ _ => Some WVariadic
  | ArrayType _ x => if isinstance_ArrayType x then method_class x else Some WArray
  | _ => None
  end.

(** An array whose methods are those of [OptionalType] holds no [inner]:
    [OptionalType.__getattribute__] evaluates [self.inner] to look up
    [inner], without end. *)
Definition lookup_diverges (t : ResolvedType) : bool :=
  match t with
  | ArrayType _ _ =>
      match method_class t with Some WOptional => true | _ => false end
  | _ => false
  end.

(** [t.elements].  Attributes that are not the wrapper's own
    ([__orig_attrs]) are looked up on the wrapped value; aliases forward
    unknown attributes to [typ] ([AliasType.__getattr__]). *)
Fixpoint getattr_elements (t : ResolvedType) : Res (list ResolvedType) :=
  match t with
  | UnionType es _ | IntersectionType es _ | TupleType es => Ok es
  | OptionalType _ x | VariadicType _ x => getattr_elements x
  | ArrayType _ x =>
      if lookup_diverges t then Raise RecursionError else getattr_elements x
  | AliasType _ _ ty | GenericAliasInstanceType _ _ _ ty => getattr_elements ty
  | _ => Raise AttributeError
  end.

(** [t.omitted] *)
Fixpoint getattr_omitted (t : ResolvedType) : Res bool :=
  match t with
  | UnionType _ o | IntersectionType _ o | TableType _ o => Ok o
  | OptionalType _ x | VariadicType _ x => getattr_omitted x
  | ArrayType _ x =>
      if lookup_diverges t then Raise RecursionError else getattr_omitted x
  | AliasType _ _ ty | GenericAliasInstanceType _ _ _ ty => getattr_omitted ty
  | _ => Raise AttributeError
  end.

(** [t.inner]: own attribute of an optional. *)
Fixpoint getattr_inner (t : ResolvedType) : Res ResolvedType :=
  match t with
  | OptionalType _ x => Ok x
  | VariadicType _ x => getattr_inner x
  | ArrayType _ x =>
      if lookup_diverges t then Raise RecursionError else getattr_inner x
  | AliasType _ _ ty | GenericAliasInstanceType _ _ _ ty => getattr_inner ty
  | _ => Raise AttributeError
  end.

(** [t.element_type]: own attribute of arrays and variadics. *)
Fixpoint getattr_element_type (t : ResolvedType) : Res ResolvedType :=
  match t with
  | ArrayType _ x | VariadicType _ x => Ok x
  | OptionalType _ x => getattr_element_type x
  | AliasType _ _ ty | GenericAliasInstanceType _ _ _ ty =>
      getattr_element_type ty
  | _ => Raise AttributeError
  end.

(** [OptionalType(inner)]: creating the class
    [type(name, (OptionalType, inner.__class__), {})] raises [TypeError] (no
    consistent method resolution order) when [OptionalType] is already among
    the ancestors of [inner.__class__]. *)
Definition mk_OptionalType (inner : ResolvedType) : M ResolvedType :=
  if isinstance_OptionalType inner then raise TypeError
  else c <- new_class ;; ret (OptionalType c inner).

(** [ArrayType(element_type)] *)
Definition mk_ArrayType (element_type : ResolvedType) : M ResolvedType :=
  c <- new_class ;; ret (ArrayType c element_type).

(** [VariadicType(element_type)], with the same restriction as
    [OptionalType]. *)
Definition mk_VariadicType (element_type : ResolvedType) : M ResolvedType :=
  if isinstance_VariadicType element_type then raise TypeError
  else c <- new_class ;; ret (VariadicType c element_type).

(* ================================================================== *)
(** * TreeHydrator: reductions that need no catalog *)
(* ================================================================== *)

(** The loop of [union_type]: accumulates [all_members], [optional] and
    [omitted]. *)
Fixpoint union_loop (items : list ResolvedType)
    (all_members : list ResolvedType) (optional omitted : bool)
  : Res (list ResolvedType * bool * bool) :=
  match items with
  | [] => Ok (all_members, optional, omitted)
  | sub :: rest =>
      if isinstance_UnionType sub then
        match getattr_elements sub with
        | Raise e => Raise e
        | Ok es =>
            if omitted then union_loop rest (all_members ++ es) optional true
            else match getattr_omitted sub with
                 | Raise e => Raise e
                 | Ok o => union_loop rest (all_members ++ es) optional o
                 end
        end
      else if isinstance_OptionalType sub then
        match getattr_inner sub with
        | Raise e => Raise e
        | Ok x => union_loop rest (all_members ++ [x]) true omitted
        end
      else union_loop rest (all_members ++ [sub]) optional omitted
  end.

(** [TreeHydrator.union_type(items, omitted=...)] *)
Definition union_type (items : list ResolvedType) (omitted : bool)
  : M ResolvedType :=
  match items with
  | [x] => ret x
  | _ =>
      '(all_members, optional, omitted') <-
        lift (union_loop items [] false omitted) ;;
      let union := UnionType all_members omitted' in
      if optional then mk_OptionalType union else ret union
  end.

(** [TreeHydrator.union_type_omitted] *)
Definition union_type_omitted (items : list ResolvedType) : M ResolvedType :=
  union_type items true.

(** The loop of [intersection_type]. *)
Fixpoint intersection_loop (items : list ResolvedType)
    (all_members : list ResolvedType) (omitted : bool)
  : Res (list ResolvedType * bool) :=
  match items with
  | [] => Ok (all_members, omitted)
  | sub :: rest =>
      if isinstance_IntersectionType sub then
        match getattr_elements sub with
        | Raise e => Raise e
        | Ok es =>
            if omitted then intersection_loop rest (all_members ++ es) true
            else match getattr_omitted sub with
                 | Raise e => Raise e
                 | Ok o => intersection_loop rest (all_members ++ es) o
                 end
        end
      else intersection_loop rest (all_members ++ [sub]) omitted
  end.

(** [TreeHydrator.intersection_type(items, omitted=...)] *)
Definition intersection_type (items : list ResolvedType) (omitted : bool)
  : M ResolvedType :=
  match items with
  | [x] => ret x
  | _ =>
      '(all_members, omitted') <- lift (intersection_loop items [] omitted) ;;
      ret (IntersectionType all_members omitted')
  end.

(** [TreeHydrator.intersection_type_omitted] *)
Definition intersection_type_omitted (items : list ResolvedType)
  : M ResolvedType :=
  intersection_type items true.

(** [TreeHydrator.optional_type] *)
Definition optional_type (inner : ResolvedType) : M ResolvedType :=
  if isinstance_OptionalType inner then ret inner else mk_OptionalType inner.

(** [TreeHydrator.array_type] *)
Definition array_type (element : ResolvedType) : M ResolvedType :=
  mk_ArrayType element.

(** [TreeHydrator.variadic_type] and [complex_variadic_type] *)
Definition variadic_type (element : ResolvedType) : M ResolvedType :=
  mk_VariadicType element.
Definition complex_variadic_type : M ResolvedType :=
  mk_VariadicType UnknownType.

(* ================================================================== *)
(** * Equality of resolved types *)
(* ================================================================== *)

Definition option_eqb {A} (eqb : A -> A -> bool) (a b : option A) : bool :=
  match a, b with
  | Some x, Some y => eqb x y
  | None, None => true
  | _, _ => false
  end.

(** The comparison generated by [@dataclass] for every class of the model:
    the classes of both values are the same object and the fields declared
    with [compare=True] are pairwise equal.  [typedef], [typ] and the memo
    fields are declared [compare=False].  [same_class c1 c2] decides whether
    two classes created by wrappers are the same. *)
Section Eqb.
Variable same_class : nat -> nat -> bool.

Fixpoint rt_eqb (x y : ResolvedType) {struct x} : bool :=
  let fix list_eqb (l1 l2 : list ResolvedType) {struct l1} : bool :=
    match l1, l2 with
    | [], [] => true
    | a :: l1', b :: l2' => rt_eqb a b && list_eqb l1' l2'
    | _, _ => false
    end in
  let fix params_eqb (l1 l2 : list (option string * ResolvedType))
      {struct l1} : bool :=
    match l1, l2 with
    | [], [] => true
    | (n1, a) :: l1', (n2, b) :: l2' =>
        option_eqb String.eqb n1 n2 && rt_eqb a b && params_eqb l1' l2'
    | _, _ => false
    end in
  let fix fields_eqb (l1 l2 : list (TableKey ResolvedType * ResolvedType))
      {struct l1} : bool :=
    match l1, l2 with
    | [], [] => true
    | (k1, a) :: l1', (k2, b) :: l2' =>
        match k1, k2 with
        | KName n1, KName n2 => String.eqb n1 n2
        | KType t1, KType t2 => rt_eqb t1 t2
        | KNone, KNone => true
        | _, _ => false
        end && rt_eqb a b && fields_eqb l1' l2'
    | _, _ => false
    end in
  match x, y with
  | PrimitiveType a, PrimitiveType b => String.eqb a b
  | StringType, StringType | BooleanType, BooleanType
  | NumberType, NumberType | IntegerType, IntegerType
  | UnknownType, UnknownType | NilType, NilType | AnyType, AnyType => true
  | LiteralStr a, LiteralStr b => String.eqb a b
  | LiteralInt a, LiteralInt b => Z.eqb a b
  | LiteralBool a, LiteralBool b => Bool.eqb a b
  | StructType a, StructType b => String.eqb a b
  | ClassType a _, ClassType b _ => String.eqb a b
  | AliasType a _ _, AliasType b _ _ => String.eqb a b
  | EnumType a _ _, EnumType b _ _ => String.eqb a b
  | GenericStructInstanceType a l1, GenericStructInstanceType b l2 =>
      String.eqb a b && list_eqb l1 l2
  | GenericClassInstanceType a l1 _, GenericClassInstanceType b l2 _ =>
      String.eqb a b && list_eqb l1 l2
  | GenericAliasInstanceType a l1 _ _, GenericAliasInstanceType b l2 _ _ =>
      String.eqb a b && list_eqb l1 l2
  | GenericEnumInstanceType a l1 _ _, GenericEnumInstanceType b l2 _ _ =>
      String.eqb a b && list_eqb l1 l2
  | TableType f1 o1, TableType f2 o2 => fields_eqb f1 f2 && Bool.eqb o1 o2
  | UnionType l1 o1, UnionType l2 o2 => list_eqb l1 l2 && Bool.eqb o1 o2
  | IntersectionType l1 o1, IntersectionType l2 o2 =>
      list_eqb l1 l2 && Bool.eqb o1 o2
  | TupleType l1, TupleType l2 => list_eqb l1 l2
  | FunctionType p1 r1, FunctionType p2 r2 =>
      params_eqb p1 p2
      && match r1, r2 with
         | Some a, Some b => rt_eqb a b
         | None, None => true
         | _, _ => false
         end
  | OptionalType c1 a, OptionalType c2 b => same_class c1 c2 && rt_eqb a b
  | ArrayType c1 a, ArrayType c2 b => same_class c1 c2 && rt_eqb a b
  | VariadicType c1 a, VariadicType c2 b => same_class c1 c2 && rt_eqb a b
  | _, _ => false
  end.
End Eqb.

(** [x == y] in Python.  A wrapper inherits [__eq__] from the class of its
    content, and that method starts with
    [other.__class__ is self.__class__]: two wrappers compare equal only when
    their classes are the same object. *)
Definition py_eq : ResolvedType -> ResolvedType -> bool := rt_eqb Nat.eqb.

(** Equality of tags and contents, whatever classes the wrappers created. *)
Definition struct_eq : ResolvedType -> ResolvedType -> bool :=
  rt_eqb (fun _ _ => true).

(* ================================================================== *)
(** * The stringifier ([__str__]) *)
(* ================================================================== *)

Definition rbind {A B} (r : Res A) (f : A -> Res B) : Res B :=
  match r with Ok a => f a | Raise e => Raise e end.

Declare Scope res_scope.
Delimit Scope res_scope with R.
Notation "x <~ c1 ;; c2" := (rbind c1 (fun x => c2))
  (at level 61, c1 at next level, right associativity) : res_scope.

Fixpoint sequenceR {A} (l : list (Res A)) : Res (list A) :=
  match l with
  | [] => Ok []
  | r :: rs => (x <~ r ;; xs <~ sequenceR rs ;; Ok (x :: xs))%R
  end.

(** [str(value)] of an [int] *)
Definition str_int (z : Z) : string :=
  DecimalString.NilZero.string_of_int (Z.to_int z).

(** [t.rets], looked up through wrappers and aliases. *)
Fixpoint getattr_rets (t : ResolvedType) : Res (option ResolvedType) :=
  match t with
  | FunctionType _ r => Ok r
  | OptionalType _ x | VariadicType _ x => getattr_rets x
  | ArrayType _ x =>
      if lookup_diverges t then Raise RecursionError else getattr_rets x
  | AliasType _ _ ty | GenericAliasInstanceType _ _ _ ty => getattr_rets ty
  | _ => Raise AttributeError
  end.

(** Keys of the dictionary [TableType.fields]: [str | ResolvedType | int]. *)
Inductive FieldKey :=
| FName (name : string)
| FType (t : ResolvedType)
| FInt (n : nat).

Definition FieldKey_eqb (a b : FieldKey) : bool :=
  match a, b with
  | FName x, FName y => String.eqb x y
  | FType x, FType y => py_eq x y
  | FInt x, FInt y => Nat.eqb x y
  | _, _ => false
  end.

Section FieldsDict.
Variable V : Type.

(** [ret[k] = v] on a dictionary keyed by [FieldKey] *)
Fixpoint fields_set (d : list (FieldKey * V)) (k : FieldKey) (v : V)
  : list (FieldKey * V) :=
  match d with
  | [] => [(k, v)]
  | (k', v') :: d' =>
      if FieldKey_eqb k' k then (k', v) :: d'
      else (k', v') :: fields_set d' k v
  end.

(** The loop of the property [TableType.fields]; [num] numbers the
    positional entries. *)
Fixpoint fields_loop (fs : list (TableKey ResolvedType * V))
    (ret : list (FieldKey * V)) (num : nat) : list (FieldKey * V) :=
  match fs with
  | [] => ret
  | (KNone, v) :: fs' => fields_loop fs' (fields_set ret (FInt num) v) (S num)
  | (KName n, v) :: fs' => fields_loop fs' (fields_set ret (FName n) v) num
  | (KType t, v) :: fs' => fields_loop fs' (fields_set ret (FType t) v) num
  end.
End FieldsDict.

(** [TableType.fields] *)
Definition TableType_fields (_fields : list (TableKey ResolvedType * ResolvedType))
  : list (FieldKey * ResolvedType) :=
  fields_loop _fields [] 1.

Definition join (sep : string) (l : list string) : string := String.concat sep l.

(** [__str__] of every class.  The method of a wrapper is the one of
    [method_class]. *)
Fixpoint str (t : ResolvedType) : Res string :=
  let fix strs (l : list ResolvedType) : list (Res string) :=
    match l with
    | [] => []
    | x :: l' => str x :: strs l'
    end in
  let optional_str (inner : ResolvedType) : Res string :=
    (s <~ str inner ;;
     Ok (if isinstance_FunctionType inner then "(" ++ s ++ ")?" else s ++ "?"))%R in
  let variadic_str (element_type : ResolvedType) : Res string :=
    (s <~ str element_type ;;
     Ok (if isinstance_FunctionType element_type
         then "(" ++ s ++ ") ..." else s ++ " ..."))%R in
  let array_str (element_type : ResolvedType) : Res string :=
    (parens <~ (if isinstance_FunctionType element_type
                then r <~ getattr_rets element_type ;;
                     Ok (match r with Some _ => true | None => false end)
                else Ok false) ;;
     s <~ str element_type ;;
     Ok (if parens then "(" ++ s ++ ")[]" else s ++ "[]"))%R in
  let fix rendered_params (ps : list (option string * ResolvedType))
    : list (Res string) :=
    match ps with
    | [] => []
    | (name, typ) :: ps' =>
        (dots <~ (if isinstance_VariadicType typ
                  then e <~ getattr_element_type typ ;; Ok (isinstance_AnyType e)
                  else Ok false) ;;
         if dots then Ok "..."
         else s <~ str typ ;;
              Ok (match name with
                  | Some n => n ++ ": " ++ s
                  | None => s
                  end))%R
        :: rendered_params ps'
    end in
  let fix rendered_fields (fs : list (TableKey ResolvedType * ResolvedType))
    : list (TableKey ResolvedType * (Res string * Res string)) :=
    match fs with
    | [] => []
    | (k, v) :: fs' =>
        (k, (match k with KType kt => str kt | _ => Ok EmptyString end, str v))
        :: rendered_fields fs'
    end in
  match t with
  | PrimitiveType name => Ok name
  | StringType => Ok "string"
  | BooleanType => Ok "boolean"
  | NumberType => Ok "number"
  | IntegerType => Ok "integer"
  | UnknownType => Ok "unknown"
  | NilType => Ok "nil"
  | AnyType => Ok "any"
  | LiteralStr value => Ok (String dquote (value ++ String dquote EmptyString))
  | LiteralInt value => Ok (str_int value)
  | LiteralBool value => Ok (if value then "true" else "false")
  | StructType name | ClassType name _ | AliasType name _ _
  | EnumType name _ _ => Ok name
  | GenericStructInstanceType name type_args
  | GenericClassInstanceType name type_args _
  | GenericAliasInstanceType name type_args _ _
  | GenericEnumInstanceType name type_args _ _ =>
      (rendered <~ sequenceR (strs type_args) ;;
       Ok (name ++ "<" ++ join "," rendered ++ ">"))%R
  | TableType _fields omitted =>
      let fields := fields_loop (rendered_fields _fields) [] 1 in
      match fields with
      | [] => Ok (if omitted then "{...}" else "{}")
      | _ =>
          (names <~ sequenceR
             (flat_map (fun kv => match kv with
                                  | (FName key, (_, val)) =>
                                      [v <~ val ;; Ok (key ++ ": " ++ v)]
                                  | _ => []
                                  end) fields) ;;
           types <~ sequenceR
             (flat_map (fun kv => match kv with
                                  | (FType _, (key, val)) =>
                                      [k <~ key ;; v <~ val ;;
                                       Ok ("[" ++ k ++ "]: " ++ v)]
                                  | _ => []
                                  end) fields) ;;
           let rendered :=
             (names ++ types ++ (if omitted then ["..."%string] else []))%list in
           Ok ("{ " ++ join ", " rendered ++ " }"))%R
      end
  | UnionType elements omitted =>
      (rendered <~ sequenceR (strs elements) ;;
       Ok ("(" ++ join "|" rendered ++ (if omitted then "..." else EmptyString) ++ ")"))%R
  | IntersectionType elements omitted =>
      (rendered <~ sequenceR (strs elements) ;;
       Ok ("(" ++ join " & " rendered ++ (if omitted then "..." else EmptyString) ++ ")"))%R
  | TupleType elements =>
      (rendered <~ sequenceR (strs elements) ;;
       Ok ("(" ++ join "," rendered ++ ")"))%R
  | FunctionType params rets =>
      match sequenceR (rendered_params params) with
      | Raise RecursionError =>
          (* [except RuntimeError: raise RuntimeError(dict(self.params)["..."]...)] *)
          if existsb (fun p => option_eqb String.eqb (fst p) (Some "...")) params
          then Raise RuntimeError else Raise KeyError
      | Raise e => Raise e
      | Ok rendered_params =>
          let rend := "fun(" ++ join ", " rendered_params ++ ")" in
          match rets with
          | Some r => (s <~ str r ;; Ok (rend ++ " -> " ++ s))%R
          | None => Ok rend
          end
      end
  | OptionalType _ inner => optional_str inner
  | VariadicType _ element_type => variadic_str element_type
  | ArrayType _ element_type =>
      match method_class t with
      | Some WOptional => Raise RecursionError
      | Some WVariadic => variadic_str element_type
      | _ => array_str element_type
      end
  end.

(* ================================================================== *)
(** * The lexer of [TYPE_GRAMMAR] *)
(* ================================================================== *)

(** The terminals of the grammar.  [TWord] is a match of [CNAME]; whether it
    is [IDENTIFIER] or one of the keyword terminals depends on the terminals
    the parser accepts where it occurs (lark's contextual lexer), and is
    decided by the parser below.  [TString] holds [ESCAPED_STRING] without its
    quotes, [TInt] the text of [SIGNED_INT].  [TBad] marks a position where no
    terminal matches ([UnexpectedCharacters]). *)
Inductive Token :=
| TWord (s : string)
| TString (s : string)
| TInt (s : string)
| TLPar | TRPar | TLBrace | TRBrace | TLBrack | TRBrack
| TArr | TLt | TGt | TComma | TColon | TDot | TDots | TQMark | TPipe | TAmp
| TArrow
| TBad.

Definition between (lo hi : nat) (c : ascii) : bool :=
  let n := nat_of_ascii c in ((lo <=? n) && (n <=? hi))%nat.

Definition is_digit (c : ascii) : bool := between 48 57 c.
Definition is_letter (c : ascii) : bool := between 65 90 c || between 97 122 c.
Definition is_cname_start (c : ascii) : bool :=
  is_letter c || Ascii.eqb c "_"%char.
Definition is_cname_char (c : ascii) : bool := is_cname_start c || is_digit c.
(** [WS: /[ \t\f\r\n]/+] *)
Definition is_ws (c : ascii) : bool :=
  let n := nat_of_ascii c in
  ((n =? 32) || (n =? 9) || (n =? 12) || (n =? 13) || (n =? 10))%nat.

(** the longest prefix of characters satisfying [p], and the rest *)
Fixpoint span (p : ascii -> bool) (s : string) : string * string :=
  match s with
  | EmptyString => (EmptyString, EmptyString)
  | String c s' =>
      if p c then let (a, b) := span p s' in (String c a, b)
      else (EmptyString, s)
  end.

(** [ESCAPED_STRING] after its opening quote: up to the first quote preceded
    by an even number of backslashes; [.] matches no newline.  [esc] tells
    that an odd number of backslashes was just read. *)
Fixpoint scan_string (s : string) (esc : bool) : option (string * string) :=
  match s with
  | EmptyString => None
  | String c s' =>
      if Ascii.eqb c dquote && negb esc then Some (EmptyString, s')
      else if (nat_of_ascii c =? 10)%nat then None
      else match scan_string s' (if Ascii.eqb c "\"%char then negb esc else false) with
           | Some (a, b) => Some (String c a, b)
           | None => None
           end
  end.

Fixpoint lex_fuel (n : nat) (s : string) : list Token :=
  match n with
  | 0 => [TBad]
  | S n' =>
      match s with
      | EmptyString => []
      | String c rest =>
          if is_ws c then lex_fuel n' rest
          else if is_cname_start c then
            let (w, r) := span is_cname_char s in TWord w :: lex_fuel n' r
          else if is_digit c then
            let (w, r) := span is_digit s in TInt w :: lex_fuel n' r
          else if Ascii.eqb c dquote then
            match scan_string rest false with
            | Some (v, r) => TString v :: lex_fuel n' r
            | None => [TBad]
            end
          else
            match c, rest with
            | "-"%char, String ">"%char r => TArrow :: lex_fuel n' r
            | "-"%char, String d _ =>
                if is_digit d then
                  let (w, r) := span is_digit rest in
                  TInt (String "-"%char w) :: lex_fuel n' r
                else [TBad]
            | "."%char, String "."%char (String "."%char r) =>
                TDots :: lex_fuel n' r
            | "."%char, _ => TDot :: lex_fuel n' rest
            | "["%char, String "]"%char r => TArr :: lex_fuel n' r
            | "["%char, _ => TLBrack :: lex_fuel n' rest
            | "]"%char, _ => TRBrack :: lex_fuel n' rest
            | "("%char, _ => TLPar :: lex_fuel n' rest
            | ")"%char, _ => TRPar :: lex_fuel n' rest
            | "{"%char, _ => TLBrace :: lex_fuel n' rest
            | "}"%char, _ => TRBrace :: lex_fuel n' rest
            | "<"%char, _ => TLt :: lex_fuel n' rest
            | ">"%char, _ => TGt :: lex_fuel n' rest
            | ","%char, _ => TComma :: lex_fuel n' rest
            | ":"%char, _ => TColon :: lex_fuel n' rest
            | "?"%char, _ => TQMark :: lex_fuel n' rest
            | "|"%char, _ => TPipe :: lex_fuel n' rest
            | "&"%char, _ => TAmp :: lex_fuel n' rest
            | _, _ => [TBad]
            end
      end
  end.

(** Every step consumes a character, so the length of the text bounds the
    number of steps. *)
Definition lex (s : string) : list Token := lex_fuel (S (String.length s)) s.

(** [int(token.value)] for a [SIGNED_INT] *)
Definition int_of_token (s : string) : Z :=
  match DecimalString.NilZero.int_of_string s with
  | Some d => Z.of_int d
  | None => 0%Z
  end.

(** The words that are keyword terminals where a type may start. *)
Definition primitive_of_keyword (w : string) : option ResolvedType :=
  if String.eqb w "nil" then Some NilType
  else if String.eqb w "boolean" then Some BooleanType
  else if String.eqb w "number" then Some NumberType
  else if String.eqb w "integer" then Some IntegerType
  else if String.eqb w "userdata" then Some (PrimitiveType "userdata")
  else if String.eqb w "lightuserdata" then Some (PrimitiveType "lightuserdata")
  else if String.eqb w "thread" then Some (PrimitiveType "thread")
  else if String.eqb w "any" then Some AnyType
  else if String.eqb w "void" then Some NilType
  else if String.eqb w "self" then Some (PrimitiveType "self")
  else if String.eqb w "function" then Some (PrimitiveType "function")
  else if String.eqb w "string" then Some StringType
  else if String.eqb w "unknown" then Some UnknownType
  else if String.eqb w "true" then Some (LiteralBool true)
  else if String.eqb w "false" then Some (LiteralBool false)
  else None.

(* ================================================================== *)
(** * Documented members *)
(* ================================================================== *)

(** [typevars: dict[str, ResolvedType]] *)
Definition Typevars := dict ResolvedType.

(** The [rets] that [DocumentedFunction.from_member] builds: [None], one
    parsed type, or [TupleType(tuple(rets))] whose entries are [None] where a
    return declares no type. *)
Inductive Rets :=
| RetsNone
| RetsType (t : ResolvedType)
| RetsTuple (elements : list (option ResolvedType)).

(** [DocumentedField] and [DocumentedFunction]. *)
Inductive Documented :=
| DocumentedField (typ : ResolvedType) (typedef : FieldMember.t)
| DocumentedFunction (params : list (option string * option ResolvedType))
    (rets : Rets) (typedef : FnMember.t) (typevar_ctx : option Typevars).

(** [assert cond] *)
Definition assert (cond : bool) : M unit :=
  if cond then ret tt else raise AssertionError.

Definition generic_names (generics : list LuaTypeVar.t) : list string :=
  map LuaTypeVar.name generics.

(** [GenericStructInstanceType._typevar_ctx] for a known [typedef]:
    [{generic.name: typearg for generic, typearg in zip(generics, type_args)}] *)
Definition _typevar_ctx (generics : list LuaTypeVar.t)
    (type_args : list ResolvedType) : Typevars :=
  dict_of_items (combine (generic_names generics) type_args).

(** [StructType._filter_typevars] *)
Definition _filter_typevars (generics : list LuaTypeVar.t) (typevars : Typevars)
  : list ResolvedType * bool :=
  match generics with
  | [] => ([], false)
  | _ =>
      fold_left
        (fun acc name =>
           match dict_get typevars name with
           | Some t => ((fst acc ++ [t])%list, true)
           | None => ((fst acc ++ [StructType name])%list, snd acc)
           end)
        (generic_names generics) ([], false)
  end.

(* ================================================================== *)
(** * Resolution against the catalog *)
(* ================================================================== *)

(** [parser.parse] is called again while a value is built or queried: for the
    body of an alias, the bases of a class, the types of members.  One level
    of the resolution is defined here from the functions of the level below,
    which serve those inner calls: [parse_prev] is [parser.parse],
    [subst_prev] is [substitute_typevars] and [members_prev] is [.members] on
    the values those calls return. *)
Section Level.
Variable index : dict LuaType.
Variable parse_prev : string -> M ResolvedType.
Variable subst_prev : ResolvedType -> Typevars -> M ResolvedType.
Variable members_prev : ResolvedType -> M (dict Documented).

(** [parser.parse(typedef.typ)]; [typ] may be [None] in the raw record. *)
Definition parse_opt (typ : option string) : M ResolvedType :=
  match typ with
  | Some s => parse_prev s
  | None => raise TypeError
  end.

(** [AliasType(name, typedef=...)]: [__post_init__] parses the body. *)
Definition mk_AliasType (name : string) (typedef : Alias.t) : M ResolvedType :=
  typ <- parse_opt (Alias.typ typedef) ;;
  ret (AliasType name typedef typ).

(** [GenericClassInstanceType(name, type_args, typedef=...)]:
    [GenericStructInstanceType.__post_init__] *)
Definition mk_GenericClassInstanceType (name : string)
    (type_args : list ResolvedType) (typedef : Class.t) : M ResolvedType :=
  _ <- assert (List.length type_args <=? List.length (Class.generics typedef))%nat ;;
  ret (GenericClassInstanceType name type_args typedef).

(** [GenericAliasInstanceType(name, type_args, typedef=...)]:
    [AliasType.__post_init__], [GenericStructInstanceType.__post_init__],
    then the substitution of the arguments in the body. *)
Definition mk_GenericAliasInstanceType (name : string)
    (type_args : list ResolvedType) (typedef : Alias.t) : M ResolvedType :=
  typ <- parse_opt (Alias.typ typedef) ;;
  _ <- assert (List.length type_args <=? List.length (Alias.generics typedef))%nat ;;
  typ' <- subst_prev typ (_typevar_ctx (Alias.generics typedef) type_args) ;;
  ret (GenericAliasInstanceType name type_args typedef typ').

(** [substitute_typevars] of every class. *)
Fixpoint substitute_typevars (t : ResolvedType) (typevars : Typevars)
    {struct t} : M ResolvedType :=
  let fix subst_list (l : list ResolvedType) : M (list ResolvedType) :=
    match l with
    | [] => ret []
    | x :: l' =>
        y <- substitute_typevars x typevars ;;
        ys <- subst_list l' ;; ret (y :: ys)
    end in
  let fix subst_params (l : list (option string * ResolvedType))
    : M (list (option string * ResolvedType)) :=
    match l with
    | [] => ret []
    | (n, x) :: l' =>
        y <- substitute_typevars x typevars ;;
        ys <- subst_params l' ;; ret ((n, y) :: ys)
    end in
  match t with
  | StructType name =>
      match dict_get typevars name with
      | Some v => ret v          (* [deepcopy]: same classes, same contents *)
      | None => ret t
      end
  | ClassType name typedef =>
      let (type_args, found_any) :=
        _filter_typevars (Class.generics typedef) typevars in
      if found_any then mk_GenericClassInstanceType name type_args typedef
      else ret t
  | AliasType name typedef _ =>
      let (type_args, found_any) :=
        _filter_typevars (Alias.generics typedef) typevars in
      if found_any then mk_GenericAliasInstanceType name type_args typedef
      else ret t
  | TableType _ _ =>
      (* [field[0]] subscripts the function [dataclasses.field] *)
      raise TypeError
  | UnionType elements omitted =>
      es <- subst_list elements ;; ret (UnionType es omitted)
  | IntersectionType elements omitted =>
      es <- subst_list elements ;; ret (IntersectionType es omitted)
  | TupleType elements =>
      es <- subst_list elements ;; ret (TupleType es)
  | FunctionType params rets =>
      ps <- subst_params params ;;
      r <- match rets with
           | Some x => y <- substitute_typevars x typevars ;; ret (Some y)
           | None => ret None
           end ;;
      ret (FunctionType ps r)
  | OptionalType _ inner =>
      i <- substitute_typevars inner typevars ;; mk_OptionalType i
  | VariadicType _ element_type =>
      e <- substitute_typevars element_type typevars ;; mk_VariadicType e
  | ArrayType _ element_type =>
      match method_class t with
      | Some WOptional => raise RecursionError
      | Some WVariadic =>
          e <- substitute_typevars element_type typevars ;; mk_VariadicType e
      | _ =>
          e <- substitute_typevars element_type typevars ;; mk_ArrayType e
      end
  | _ => ret t
  end.

(** [typevar_ctx] is tested for truth: an empty dictionary counts as
    none. *)
Definition ctx_given (typevar_ctx : option Typevars) : option Typevars :=
  match typevar_ctx with
  | Some ((_ :: _) as c) => Some c
  | _ => None
  end.

(** [DocumentedField.from_member]: the parse is not guarded. *)
Definition DocumentedField_from_member (member : FieldMember.t)
    (typevar_ctx : option Typevars) : M Documented :=
  let text := match FieldMember.literal member with
              | Some (String _ _ as l) => l
              | _ => FieldMember.typ member
              end in
  resolved <- parse_prev text ;;
  match ctx_given typevar_ctx with
  | Some c =>
      inner <- substitute_typevars resolved c ;;
      ret (DocumentedField inner member)
  | None => ret (DocumentedField resolved member)
  end.

(** [param.typ and parser.parse(param.typ) or None] inside
    [try ... except (UnexpectedCharacters, UnexpectedToken)] *)
Definition parse_param_typ (typ : option string) : M (option ResolvedType) :=
  match typ with
  | Some (String _ _ as s) =>
      catch_parse (t <- parse_prev s ;; ret (Some t)) (ret (Some UnknownType))
  | _ => ret None
  end.

(** [x.substitute_typevars(typevars)] where [x] may be [None] *)
Definition subst_opt (typevars : Typevars) (x : option ResolvedType)
  : M (option ResolvedType) :=
  match x with
  | Some t => y <- substitute_typevars t typevars ;; ret (Some y)
  | None => raise AttributeError
  end.

(** [DocumentedFunction.from_member] *)
Definition DocumentedFunction_from_member (member : FnMember.t)
    (typevar_ctx : option Typevars) : M Documented :=
  params <- mapM (fun p => t <- parse_param_typ (FnParam.typ p) ;;
                           ret (FnParam.name p, t))
                 (FnMember.params member) ;;
  rets <- mapM (fun r => parse_param_typ (FnParam.typ r))
               (FnMember.returns member) ;;
  let rets :=
    match rets with
    | [Some r] => if isinstance_NilType r then RetsNone else RetsType r
    | [None] => RetsNone
    | _ => RetsTuple rets
    end in
  match ctx_given typevar_ctx with
  | Some c =>
      ps <- mapM (fun p => t <- subst_opt c (snd p) ;; ret (fst p, t)) params ;;
      r <- match rets with
           | RetsNone => ret RetsNone
           | RetsType t => y <- substitute_typevars t c ;; ret (RetsType y)
           | RetsTuple es => es' <- mapM (subst_opt c) es ;; ret (RetsTuple es')
           end ;;
      ret (DocumentedFunction ps r member typevar_ctx)
  | None => ret (DocumentedFunction params rets member typevar_ctx)
  end.

(** The hydration of one raw member in the [members] properties. *)
Definition from_member (member : Member) (typevar_ctx : option Typevars)
  : M Documented :=
  match member with
  | MFn m => DocumentedFunction_from_member m typevar_ctx
  | MField m => DocumentedField_from_member m typevar_ctx
  end.

(** [{member.name: from_member(member, ctx) for member in typedef.members}]:
    [StructType.members] (without context) and
    [GenericStructInstanceType.members], on a declaration whose members are
    a list. *)
Definition members_of_list (ms : list Member) (typevar_ctx : option Typevars)
  : M (dict Documented) :=
  items <- mapM (fun m => d <- from_member m typevar_ctx ;;
                          ret (member_name m, d)) ms ;;
  ret (dict_of_items items).

(** The values of [attrs] in the [members] of classes: raw members of the
    class itself, resolved members of its bases. *)
Inductive Attr :=
| Raw (m : Member)
| Inherited (d : Documented).

(** The comprehension that ends [ClassType.members] and
    [GenericClassInstanceType.members]. *)
Definition hydrate_attrs (attrs : dict Attr) (typevar_ctx : option Typevars)
  : M (dict Documented) :=
  items <- mapM (fun kv => match snd kv with
                           | Raw m => d <- from_member m typevar_ctx ;;
                                      ret (fst kv, d)
                           | Inherited d => ret (fst kv, d)
                           end) attrs ;;
  ret (dict_of_items items).

(** [for base in reversed(bases): ... attrs[name] = member].  With [guard],
    a base without [members] is skipped ([hasattr]); without it the
    [AttributeError] is raised. *)
Fixpoint inherit_loop (guard : bool) (rev_bases : list ResolvedType)
    (attrs : dict Attr) : M (dict Attr) :=
  match rev_bases with
  | [] => ret attrs
  | base :: rest =>
      ms <- (if guard
             then catch_attr (d <- members_prev base ;; ret (Some d)) (ret None)
             else d <- members_prev base ;; ret (Some d)) ;;
      match ms with
      | None => inherit_loop guard rest attrs
      | Some d =>
          inherit_loop guard rest
            (dict_update attrs (map (fun kv => (fst kv, Inherited (snd kv))) d))
      end
  end.

(** [ClassType.members] *)
Definition ClassType_members (typedef : Class.t) : M (dict Documented) :=
  bases <- mapM parse_prev (Class.bases typedef) ;;
  attrs <- inherit_loop true (rev bases) [] ;;
  let attrs :=
    dict_update attrs
      (map (fun kv => (fst kv, Raw (snd kv))) (Class.members typedef)) in
  hydrate_attrs attrs None.

(** [GenericClassInstanceType.members], with [GenericClassInstanceType.bases] *)
Definition GenericClassInstanceType_members (type_args : list ResolvedType)
    (typedef : Class.t) : M (dict Documented) :=
  let ctx := _typevar_ctx (Class.generics typedef) type_args in
  bases <- mapM (fun b => t <- parse_prev b ;; substitute_typevars t ctx)
                (Class.bases typedef) ;;
  attrs <- inherit_loop false (rev bases) [] ;;
  let attrs :=
    dict_update attrs
      (map (fun kv => (fst kv, Raw (snd kv))) (Class.members typedef)) in
  hydrate_attrs attrs (Some ctx).

(** [[x.typ for x in self.fields.values()]]: the types of the members that
    are fields *)
Definition field_types (ms : dict Documented) : list ResolvedType :=
  flat_map (fun kv => match snd kv with
                      | DocumentedField typ _ => [typ]
                      | DocumentedFunction _ _ _ _ => []
                      end) ms.

(** [EnumType(name, typedef=...)]: [__post_init__] builds [typ] from the
    fields; [typedef.typ] is not read. *)
Definition mk_EnumType (name : string) (typedef : LuaEnum.t) : M ResolvedType :=
  ms <- members_of_list (LuaEnum.members typedef) None ;;
  ret (EnumType name typedef (UnionType (field_types ms) false)).

(** [GenericEnumInstanceType(name, type_args, typedef=...)] *)
Definition mk_GenericEnumInstanceType (name : string)
    (type_args : list ResolvedType) (typedef : LuaEnum.t) : M ResolvedType :=
  let ctx := _typevar_ctx (LuaEnum.generics typedef) type_args in
  ms <- members_of_list (LuaEnum.members typedef) (Some ctx) ;;
  _ <- assert (List.length type_args
               <=? List.length (LuaEnum.generics typedef))%nat ;;
  typ <- substitute_typevars (UnionType (field_types ms) false) ctx ;;
  ret (GenericEnumInstanceType name type_args typedef typ).

(** The property [members] of every class; [AttributeError] where the class
    has none.  The memo fields ([_members], [_bases]) are left out: they hold
    the value computed at the first access. *)
Fixpoint members (t : ResolvedType) : M (dict Documented) :=
  let fix merge (els : list ResolvedType) (res : dict Documented)
    : M (dict Documented) :=
    match els with
    | [] => ret res
    | el :: els' =>
        r <- catch_attr (d <- members el ;; ret (dict_update res d)) (ret res) ;;
        merge els' r
    end in
  match t with
  | StructType _ | GenericStructInstanceType _ _ => ret []
  | ClassType _ typedef => ClassType_members typedef
  | AliasType _ _ typ => catch_attr (members typ) (ret [])
  | EnumType _ typedef _ => members_of_list (LuaEnum.members typedef) None
  | GenericClassInstanceType _ type_args typedef =>
      GenericClassInstanceType_members type_args typedef
  | GenericAliasInstanceType _ type_args typedef _ =>
      members_of_list (Alias.members typedef)
        (Some (_typevar_ctx (Alias.generics typedef) type_args))
  | GenericEnumInstanceType _ type_args typedef _ =>
      members_of_list (LuaEnum.members typedef)
        (Some (_typevar_ctx (LuaEnum.generics typedef) type_args))
  | IntersectionType elements _ => merge elements []
  | OptionalType _ x | VariadicType _ x => members x
  | ArrayType _ x =>
      if lookup_diverges t then raise RecursionError else members x
  | _ => raise AttributeError
  end.

(** [TreeHydrator.struct_type]: [classes], [aliases] and [enums] are the
    entries of [index.types] of each kind. *)
Definition struct_type (full_name : string) : M ResolvedType :=
  match dict_get index full_name with
  | Some (TClass c) => ret (ClassType full_name c)
  | Some (TAlias a) => mk_AliasType full_name a
  | Some (TEnum e) => mk_EnumType full_name e
  | None => ret (StructType full_name)
  end.

(** The [for ... else] of [generic_struct_type]: [Ok true] when the loop
    ends without [break], that is when every argument is a plain
    [StructType] named like the generic at its position. *)
Fixpoint renders_declaration (type_args : list ResolvedType)
    (base_generics : list string) : Res bool :=
  match type_args with
  | [] => Ok true
  | StructType name :: rest =>
      match base_generics with
      | [] => Raise IndexError
      | g :: gs =>
          if String.eqb name g then renders_declaration rest gs else Ok false
      end
  | _ :: _ => Ok false
  end.

(** [TreeHydrator.generic_struct_type] *)
Definition generic_struct_type (base : ResolvedType)
    (type_args : list ResolvedType) : M ResolvedType :=
  match base with
  | StructType name => ret (GenericStructInstanceType name type_args)
  | ClassType name typedef =>
      same <- lift (renders_declaration type_args
                      (generic_names (Class.generics typedef))) ;;
      if same then ret base
      else mk_GenericClassInstanceType name type_args typedef
  | AliasType name typedef _ =>
      same <- lift (renders_declaration type_args
                      (generic_names (Alias.generics typedef))) ;;
      if same then ret base
      else mk_GenericAliasInstanceType name type_args typedef
  | EnumType name typedef _ =>
      same <- lift (renders_declaration type_args
                      (generic_names (LuaEnum.generics typedef))) ;;
      if same then ret base
      else mk_GenericEnumInstanceType name type_args typedef
  | _ => raise AttributeError
  end.

(** ** The parser

    [TYPE_GRAMMAR] is compiled by lark into an LALR(1) parser that calls
    the methods of [TreeHydrator] at each reduction and resolves its
    shift/reduce conflicts by shifting.  The functions below read the
    grammar the same way, one function per rule, with the same callbacks
    in the same order:
    - a suffix [?], [[]] or [...] after the return type of a function
      belongs to the return type;
    - after [(], a function type directly followed by [)] is read by the
      rule [( function ) ?], so that [?] must follow;
    - [multi] is a keyword where a [type] may start, an [IDENTIFIER] where
      only a [primary_type] may (after [|] and [&]); after [.] and at the
      start of a table field every word is an [IDENTIFIER].

    A text outside the language raises [ParseError].  Where such a text also
    names a struct whose resolution raises, the callback is run here as soon
    as the struct has been read, while lark may meet the syntax error in its
    lookahead first: which of the two exceptions such a text raises is not
    settled by this model, and no property below rests on it. *)

Definition is_keyword (w : string) : bool :=
  match primitive_of_keyword w with
  | Some _ => true
  | None => String.eqb w "fun" || String.eqb w "multi"
  end.

Definition Parsed (A : Type) := M (A * list Token).

(** [struct_type: IDENTIFIER ("." IDENTIFIER)*], after its first word *)
Fixpoint dotted_name (ts : list Token) (full_name : string)
  : Res (string * list Token) :=
  match ts with
  | TDot :: TWord w :: ts' => dotted_name ts' (full_name ++ "." ++ w)
  | TDot :: _ => Raise ParseError
  | _ => Ok (full_name, ts)
  end.

(** [suffix_type]: the suffixes [?] and [[]] after a type *)
Fixpoint suffixes (ts : list Token) (t : ResolvedType) : Parsed ResolvedType :=
  match ts with
  | TQMark :: ts' => t' <- optional_type t ;; suffixes ts' t'
  | TArr :: ts' => t' <- array_type t ;; suffixes ts' t'
  | _ => ret (t, ts)
  end.

(** [TreeHydrator.table_type]; [None] is the entry of [array_omission] *)
Definition table_type
    (items : list (option (TableKey ResolvedType * ResolvedType)))
  : ResolvedType :=
  if existsb (fun f => match f with None => true | Some _ => false end) items
  then TableType (flat_map (fun f => match f with Some kv => [kv] | None => [] end)
                    items) true
  else TableType (flat_map (fun f => match f with Some kv => [kv] | None => [] end)
                    items) false.

Definition expect (tok : Token) (ts : list Token) : M (list Token) :=
  match tok, ts with
  | TRPar, TRPar :: ts' | TGt, TGt :: ts' | TLt, TLt :: ts'
  | TRBrace, TRBrace :: ts' | TRBrack, TRBrack :: ts'
  | TColon, TColon :: ts' | TDots, TDots :: ts' | TLPar, TLPar :: ts' => ret ts'
  | _, _ => raise ParseError
  end.

Section Rules.
(** [type] and [primary_type] inside the construct being read *)
Variable type_ : list Token -> Parsed ResolvedType.
Variable primary_ : list Token -> Parsed ResolvedType.

(** [("," type)*] *)
Fixpoint more_types (k : nat) (acc : list ResolvedType) (ts : list Token)
  : Parsed (list ResolvedType) :=
  match ts, k with
  | TComma :: ts', S k' =>
      '(t, ts'') <- type_ ts' ;; more_types k' (acc ++ [t]) ts''
  | TComma :: _, 0 => raise OutOfFuel
  | _, _ => ret (acc, ts)
  end.

(** [(sep primary_type)*] of a union ([pipe]) or an intersection *)
Fixpoint more_primaries (pipe : bool) (k : nat) (acc : list ResolvedType)
    (ts : list Token) : Parsed (list ResolvedType) :=
  match ts, k with
  | TPipe :: ts', S k' =>
      if pipe then '(t, ts'') <- primary_ ts' ;;
                   more_primaries pipe k' (acc ++ [t]) ts''
      else raise ParseError
  | TAmp :: ts', S k' =>
      if pipe then raise ParseError
      else '(t, ts'') <- primary_ ts' ;;
           more_primaries pipe k' (acc ++ [t]) ts''
  | TPipe :: _, 0 | TAmp :: _, 0 => raise OutOfFuel
  | _, _ => ret (acc, ts)
  end.

(** [param], with [named_param] and [unnamed_param] *)
Definition param (ts : list Token)
  : Parsed (option string * ResolvedType) :=
  match ts with
  | TDots :: TColon :: ts' =>
      '(t, ts'') <- type_ ts' ;; ret ((Some "...", t), ts'')
  | TDots :: ts' =>
      v <- mk_VariadicType AnyType ;; ret ((None, v), ts')
  | TWord w :: TColon :: ts' =>
      if negb (is_keyword w) || String.eqb w "self"
      then '(t, ts'') <- type_ ts' ;; ret ((Some w, t), ts'')
      else '(t, ts'') <- type_ ts ;; ret ((None, t), ts'')
  | _ => '(t, ts'') <- type_ ts ;; ret ((None, t), ts'')
  end.

(** [("," param)*] *)
Fixpoint more_params (k : nat) (acc : list (option string * ResolvedType))
    (ts : list Token) : Parsed (list (option string * ResolvedType)) :=
  match ts, k with
  | TComma :: ts', S k' =>
      '(p, ts'') <- param ts' ;; more_params k' (acc ++ [p]) ts''
  | TComma :: _, 0 => raise OutOfFuel
  | _, _ => ret (acc, ts)
  end.

(** [function_void_type] and [function_ret_type], after [fun] *)
Definition function_type (k : nat) (ts : list Token) : Parsed ResolvedType :=
  ts <- expect TLPar ts ;;
  '(params, ts) <- match ts with
                   | TRPar :: _ => ret ([], ts)
                   | _ => '(p, ts') <- param ts ;; more_params k [p] ts'
                   end ;;
  ts <- expect TRPar ts ;;
  match ts with
  | TArrow :: ts' =>
      '(returns, ts'') <- type_ ts' ;;
      ret (FunctionType params (Some returns), ts'')
  | _ => ret (FunctionType params None, ts)
  end.

(** [table_field] *)
Definition table_field (ts : list Token)
  : Parsed (option (TableKey ResolvedType * ResolvedType)) :=
  match ts with
  | TWord w :: TColon :: ts' =>
      '(t, ts'') <- type_ ts' ;; ret (Some (KName w, t), ts'')
  | TLBrack :: ts' =>
      '(key_type, ts) <- type_ ts' ;;
      ts <- expect TRBrack ts ;;
      ts <- expect TColon ts ;;
      '(value_type, ts) <- type_ ts ;;
      ret (Some (KType key_type, value_type), ts)
  | TDots :: ts' => ret (None, ts')
  | _ => raise ParseError
  end.

(** [("," table_field)*] *)
Fixpoint more_fields (k : nat)
    (acc : list (option (TableKey ResolvedType * ResolvedType)))
    (ts : list Token)
  : Parsed (list (option (TableKey ResolvedType * ResolvedType))) :=
  match ts, k with
  | TComma :: ts', S k' =>
      '(f, ts'') <- table_field ts' ;; more_fields k' (acc ++ [f]) ts''
  | TComma :: _, 0 => raise OutOfFuel
  | _, _ => ret (acc, ts)
  end.
  
(** [tuple_type: "(" type_list ")"], after its first element *)
Definition tuple_rest (k : nat) (first : ResolvedType) (ts : list Token)
  : Parsed ResolvedType :=
  '(items, ts) <- more_types k [first] ts ;;
  ts <- expect TRPar ts ;;
  ret (TupleType items, ts).

(** What follows the first [primary_type] after [(]: a union, an
    intersection (both with their omitted forms) or a tuple. *)
Definition paren_rest (k : nat) (p : ResolvedType) (ts : list Token)
  : Parsed ResolvedType :=
  match ts with
  | TPipe :: _ =>
      '(items, ts) <- more_primaries true k [p] ts ;;
      match ts with
      | TDots :: ts' =>
          ts' <- expect TRPar ts' ;;
          u <- union_type_omitted items ;; ret (u, ts')
      | _ =>
          ts' <- expect TRPar ts ;;
          u <- union_type items false ;; ret (u, ts')
      end
  | TAmp :: _ =>
      '(items, ts) <- more_primaries false k [p] ts ;;
      match ts with
      | TDots :: ts' =>
          ts' <- expect TRPar ts' ;;
          u <- intersection_type_omitted items ;; ret (u, ts')
      | _ =>
          ts' <- expect TRPar ts ;;
          u <- intersection_type items false ;; ret (u, ts')
      end
  | TDots :: ts' => v <- variadic_type p ;; tuple_rest k v ts'
  | _ => tuple_rest k p ts
  end.

(** The rules that start with [(], after it. *)
Definition paren_type (k : nat) (ts : list Token) : Parsed ResolvedType :=
  match ts with
  | TWord w :: ts' =>
      if String.eqb w "fun" then
        '(f, ts1) <- function_type k ts' ;;
        match ts1 with
        | TRPar :: TQMark :: ts2 => o <- optional_type f ;; ret (o, ts2)
        | TRPar :: _ => raise ParseError
        | _ => '(p, ts2) <- suffixes ts1 f ;; paren_rest k p ts2
        end
      else if String.eqb w "multi" then
        '(v, ts1) <- type_ ts ;; tuple_rest k v ts1
      else '(p, ts1) <- primary_ ts ;; paren_rest k p ts1
  | _ => '(p, ts1) <- primary_ ts ;; paren_rest k p ts1
  end.

(** [basic_type] *)
Definition basic_type (k : nat) (ts : list Token) : Parsed ResolvedType :=
  match ts with
  | TString v :: ts' => ret (LiteralStr v, ts')
  | TInt v :: ts' => ret (LiteralInt (int_of_token v), ts')
  | TWord w :: ts' =>
      if String.eqb w "fun" then function_type k ts'
      else
        match primitive_of_keyword w with
        | Some v => ret (v, ts')
        | None =>
            '(full_name, ts1) <- lift (dotted_name ts' w) ;;
            base <- struct_type full_name ;;
            match ts1 with
            | TLt :: ts2 =>
                '(a, ts3) <- type_ ts2 ;;
                '(type_args, ts4) <- more_types k [a] ts3 ;;
                ts5 <- expect TGt ts4 ;;
                g <- generic_struct_type base type_args ;;
                ret (g, ts5)
            | _ => ret (base, ts1)
            end
        end
  | TLBrace :: TRBrace :: ts' => ret (table_type [], ts')
  | TLBrace :: ts' =>
      '(f, ts1) <- table_field ts' ;;
      '(fs, ts2) <- more_fields k [f] ts1 ;;
      ts3 <- expect TRBrace ts2 ;;
      ret (table_type fs, ts3)
  | TLPar :: ts' => paren_type k ts'
  | _ => raise ParseError
  end.
End Rules.

(** [type] ([as_type]) and [primary_type].  [n] bounds the nesting of
    types; every nested type starts after a token has been read. *)
Fixpoint parse_tokens (n : nat) (as_type : bool) (ts : list Token)
    {struct n} : Parsed ResolvedType :=
  match n with
  | 0 => raise OutOfFuel
  | S n' =>
      let primary ts :=
        '(b, ts1) <- basic_type (parse_tokens n' true) (parse_tokens n' false)
                       n' ts ;;
        suffixes ts1 b in
      if as_type then
        match ts with
        | TWord "multi" :: ts' =>
            ts1 <- expect TLt ts' ;;
            ts2 <- expect TDots ts1 ;;
            ts3 <- expect TGt ts2 ;;
            v <- complex_variadic_type ;; ret (v, ts3)
        | _ =>
            '(p, ts1) <- primary ts ;;
            match ts1 with
            | TDots :: ts2 => v <- variadic_type p ;; ret (v, ts2)
            | _ => ret (p, ts1)
            end
        end
      else primary ts
  end.

(** [parser.parse(text)] at this level: [?start: type], then the end of
    the text. *)
Definition parse_level (text : string) : M ResolvedType :=
  let ts := lex text in
  '(t, rest) <- parse_tokens (S (List.length ts)) true ts ;;
  match rest with
  | [] => ret t
  | _ => raise ParseError
  end.
End Level.

(** ** The levels of the resolution

    [parse n], [substitute n] and [members_at n] resolve references to the
    catalog through at most [n] further calls of [parser.parse]. *)
Record Resolver := mkResolver {
  r_parse : string -> M ResolvedType;
  r_substitute : ResolvedType -> Typevars -> M ResolvedType;
  r_members : ResolvedType -> M (dict Documented) }.

Fixpoint resolver (index : dict LuaType) (n : nat) : Resolver :=
  match n with
  | 0 => mkResolver (fun _ => raise OutOfFuel) (fun _ _ => raise OutOfFuel)
           (fun _ => raise OutOfFuel)
  | S n' =>
      let prev := resolver index n' in
      mkResolver
        (parse_level index (r_parse prev) (r_substitute prev))
        (substitute_typevars (r_parse prev) (r_substitute prev))
        (members (r_parse prev) (r_substitute prev) (r_members prev))
  end.

(** [parser.parse(text)] for the parser built from [index] *)
Definition parse (index : dict LuaType) (n : nat) (text : string)
  : M ResolvedType :=
  r_parse (resolver index n) text.

(** [value.members] *)
Definition members_at (index : dict LuaType) (n : nat) (t : ResolvedType)
  : M (dict Documented) :=
  r_members (resolver index n) t.

(* ================================================================== *)
(** * Reference functions for the properties *)
(* ================================================================== *)

(** The element list of a flattened union: the elements of every nested
    union in place, the other items unchanged. *)
Definition flattened_union (items : list ResolvedType) : list ResolvedType :=
  flat_map (fun x => match x with UnionType es _ => es | _ => [x] end) items.

(** The disjunction of the [omitted] flags of the nested unions. *)
Definition nested_omitted_union (items : list ResolvedType) : bool :=
  existsb (fun x => match x with UnionType _ o => o | _ => false end) items.

Definition flattened_intersection (items : list ResolvedType)
  : list ResolvedType :=
  flat_map (fun x => match x with IntersectionType es _ => es | _ => [x] end)
    items.

Definition nested_omitted_intersection (items : list ResolvedType) : bool :=
  existsb (fun x => match x with IntersectionType _ o => o | _ => false end)
    items.

(** An item of a union that is a union itself, or that is an instance
    neither of [UnionType] nor of [OptionalType]. *)
Definition plain_union_item (x : ResolvedType) : bool :=
  match x with
  | UnionType _ _ => true
  | _ => negb (isinstance_UnionType x) && negb (isinstance_OptionalType x)
  end.

(** An item of an intersection that is an intersection itself, or no
    instance of [IntersectionType]. *)
Definition plain_intersection_item (x : ResolvedType) : bool :=
  match x with
  | IntersectionType _ _ => true
  | _ => negb (isinstance_IntersectionType x)
  end.

(** The generics a known declaration declares; [None] for a value that
    carries no declaration. *)
Definition known_generics (base : ResolvedType) : option (list LuaTypeVar.t) :=
  match base with
  | ClassType _ td => Some (Class.generics td)
  | AliasType _ td _ => Some (Alias.generics td)
  | EnumType _ td _ => Some (LuaEnum.generics td)
  | _ => None
  end.

(** The arguments of a generic instance with a known declaration. *)
Definition instance_args (t : ResolvedType) : option (list ResolvedType) :=
  match t with
  | GenericClassInstanceType _ a _ | GenericAliasInstanceType _ a _ _
  | GenericEnumInstanceType _ a _ _ => Some a
  | _ => None
  end.

(** The first [n] declared generic parameters, as the parser renders them
    where they occur in an annotation: unresolved struct references. *)
Definition typevar_args (n : nat) (generics : list LuaTypeVar.t)
  : list ResolvedType :=
  map StructType (firstn n (generic_names generics)).

(** A resolver for values that need no further call of the parser. *)
Definition no_parse : string -> M ResolvedType := fun _ => raise OutOfFuel.
Definition no_subst : ResolvedType -> Typevars -> M ResolvedType :=
  fun _ _ => raise OutOfFuel.

(** [---@class Foo<T>] with a field [val: T] *)
Definition Foo : Class.t :=
  Class.mk "Foo" [] [LuaTypeVar.mk "T" None]
    [("val", MField (FieldMember.mk "val" "T" None Property.empty))].

(** A field whose type string is no annotation of the grammar (single
    quotes), a well-formed field, and a function with a malformed parameter
    type. *)
Definition bad_field : FieldMember.t :=
  FieldMember.mk "bad" "'foo'" None Property.empty.
Definition good_field : FieldMember.t :=
  FieldMember.mk "ok" "integer" None Property.empty.
Definition bad_fn : FnMember.t :=
  FnMember.mk "f" [] [FnParam.mk (Some "a") (Some "'foo'") None] [] []
    Property.empty.

(** A class and an enum with one malformed field among their members, and a
    class with the malformed function. *)
Definition K : Class.t :=
  Class.mk "K" [] [] [("ok", MField good_field); ("bad", MField bad_field)].
Definition E : LuaEnum.t :=
  LuaEnum.mk "E" None [] [MField good_field; MField bad_field].
Definition KF : Class.t :=
  Class.mk "KF" [] [] [("ok", MField good_field); ("f", MFn bad_fn)].
Definition catalog_K : dict LuaType :=
  [("K", TClass K); ("E", TEnum E); ("KF", TClass KF)].

(** The value an item list holds for [k] once it is made a dictionary: that
    of its last entry for [k].  On a dictionary this is [dict_get]. *)
Definition lookup_last {V : Type} (items : list (string * V)) (k : string)
  : option V :=
  dict_get (rev items) k.

(** The member named [k] that the bases provide, given their member
    mappings in declaration order: the one of the first base that has it. *)
Fixpoint inherited (ds : list (dict Documented)) (k : string)
  : option Documented :=
  match ds with
  | [] => None
  | d :: rest =>
      match lookup_last d k with
      | Some v => Some v
      | None => inherited rest k
      end
  end.

(** [base.members] in the loop over the bases: with [guard] ([hasattr]) a
    base without members counts as one with no member. *)
Definition base_members (guard : bool)
    (members_prev : ResolvedType -> M (dict Documented)) (base : ResolvedType)
  : M (dict Documented) :=
  if guard then catch_attr (members_prev base) (ret []) else members_prev base.

(** The source text of the type of a field member:
    [getattr(member, "literal", None) or member.typ] *)
Definition field_text (member : FieldMember.t) : string :=
  match FieldMember.literal member with
  | Some (String _ _ as l) => l
  | _ => FieldMember.typ member
  end.

(** An enum with three literal fields whose declared summary is truncated. *)
Definition Mode_fields : list FieldMember.t :=
  [FieldMember.mk "A" "integer" (Some "1") Property.empty;
   FieldMember.mk "B" "integer" (Some "2") Property.empty;
   FieldMember.mk "C" "integer" (Some "3") Property.empty].
Definition Mode : LuaEnum.t :=
  LuaEnum.mk "Mode" (Some "(1|2...)") [] (map MField Mode_fields).
Definition catalog_Mode : dict LuaType := [("Mode", TEnum Mode)].

(** [attrs] at the end of the two loops of [ClassType.members], from the
    member mappings of the bases in declaration order and the members
    declared by the class. *)
Definition class_attrs (ds : list (dict Documented))
    (own : list (string * Member)) : dict Attr :=
  dict_update
    (fold_left
       (fun attrs d =>
          dict_update attrs (map (fun kv => (fst kv, Inherited (snd kv))) d))
       (rev ds) [])
    (map (fun kv => (fst kv, Raw (snd kv))) own).

(** [---@class A] with [x: integer]; [---@class B] with [x: string] and
    [y: boolean]; [---@class C : A, B] with [z: number]. *)
Definition A_x : FieldMember.t := FieldMember.mk "x" "integer" None Property.empty.
Definition B_x : FieldMember.t := FieldMember.mk "x" "string" None Property.empty.
Definition B_y : FieldMember.t := FieldMember.mk "y" "boolean" None Property.empty.
Definition C_z : FieldMember.t := FieldMember.mk "z" "number" None Property.empty.
Definition class_A : Class.t := Class.mk "A" [] [] [("x", MField A_x)].
Definition class_B : Class.t :=
  Class.mk "B" [] [] [("x", MField B_x); ("y", MField B_y)].
Definition class_C : Class.t := Class.mk "C" ["A"; "B"] [] [("z", MField C_z)].
Definition catalog_ABC : dict LuaType :=
  [("A", TClass class_A); ("B", TClass class_B); ("C", TClass class_C)].

(** No array inside [t] takes the methods of [OptionalType]: every attribute
    lookup on [t] and on the values it holds terminates.  [py_eq] models
    [==] on such values (the [__eq__] generated before Python 3.13 reads the
    compared fields, also of one and the same object). *)
Fixpoint lookups_terminate (t : ResolvedType) : bool :=
  let fix all (l : list ResolvedType) : bool :=
    match l with
    | [] => true
    | x :: l' => lookups_terminate x && all l'
    end in
  let fix all_params (l : list (option string * ResolvedType)) : bool :=
    match l with
    | [] => true
    | (_, x) :: l' => lookups_terminate x && all_params l'
    end in
  let fix all_fields (l : list (TableKey ResolvedType * ResolvedType)) : bool :=
    match l with
    | [] => true
    | (k, v) :: l' =>
        match k with KType kt => lookups_terminate kt | _ => true end
        && lookups_terminate v && all_fields l'
    end in
  match t with
  | AliasType _ _ typ | EnumType _ _ typ => lookups_terminate typ
  | GenericStructInstanceType _ a | GenericClassInstanceType _ a _ => all a
  | GenericAliasInstanceType _ a _ typ | GenericEnumInstanceType _ a _ typ =>
      all a && lookups_terminate typ
  | TableType f _ => all_fields f
  | UnionType es _ | IntersectionType es _ | TupleType es => all es
  | FunctionType ps r =>
      all_params ps
      && match r with Some x => lookups_terminate x | None => true end
  | OptionalType _ x | VariadicType _ x => lookups_terminate x
  | ArrayType _ x => negb (lookup_diverges t) && lookups_terminate x
  | _ => true
  end.

(** [value.typ]: the attribute that [__post_init__] sets on aliases and
    enums, found through wrappers like any other attribute. *)
Fixpoint getattr_typ (t : ResolvedType) : Res ResolvedType :=
  match t with
  | AliasType _ _ typ | EnumType _ _ typ
  | GenericAliasInstanceType _ _ _ typ | GenericEnumInstanceType _ _ _ typ =>
      Ok typ
  | OptionalType _ x | VariadicType _ x => getattr_typ x
  | ArrayType _ x =>
      if lookup_diverges t then Raise RecursionError else getattr_typ x
  | _ => Raise AttributeError
  end.

(** An enum with one optional field. *)
Definition Flag : LuaEnum.t :=
  LuaEnum.mk "Flag" (Some "integer?") []
    [MField (FieldMember.mk "v" "integer?" None Property.empty)].
Definition catalog_Flag : dict LuaType := [("Flag", TEnum Flag)].

(** An item of a union that is a union itself, an optional whose content is
    no instance of [UnionType], or an instance neither of [UnionType] nor of
    [OptionalType]. *)
Definition direct_union_item (x : ResolvedType) : bool :=
  match x with
  | UnionType _ _ => true
  | OptionalType _ y => negb (isinstance_UnionType y)
  | _ => negb (isinstance_UnionType x) && negb (isinstance_OptionalType x)
  end.

(** The items with every nested union replaced by its elements and every
    optional by its content. *)
Definition hoisted_union (items : list ResolvedType) : list ResolvedType :=
  flat_map (fun x => match x with
                     | UnionType es _ => es
                     | OptionalType _ y => [y]
                     | _ => [x]
                     end) items.

Definition is_OptionalType (x : ResolvedType) : bool :=
  match x with OptionalType _ _ => true | _ => false end.

(* ================================================================== *)
(** * Further definitions for the properties *)
(* ================================================================== *)

(** [all(f(a, b) for a, b in zip(l1, l2))] on lists of one length, [False]
    on lists of different lengths: the comparison of two tuples. *)
Fixpoint forall2b {A B : Type} (f : A -> B -> bool) (l1 : list A) (l2 : list B)
  : bool :=
  match l1, l2 with
  | [], [] => true
  | a :: l1', b :: l2' => f a b && forall2b f l1' l2'
  | _, _ => false
  end.

(** The comparison of two entries of [TableType._fields] and of two
    parameters of a function. *)
Definition field_eqb (eqb : ResolvedType -> ResolvedType -> bool)
    (f1 f2 : TableKey ResolvedType * ResolvedType) : bool :=
  match fst f1, fst f2 with
  | KName n1, KName n2 => String.eqb n1 n2
  | KType t1, KType t2 => eqb t1 t2
  | KNone, KNone => true
  | _, _ => false
  end && eqb (snd f1) (snd f2).

Definition param_eqb (eqb : ResolvedType -> ResolvedType -> bool)
    (p1 p2 : option string * ResolvedType) : bool :=
  option_eqb String.eqb (fst p1) (fst p2) && eqb (snd p1) (snd p2).

(** The text of one parameter in [FunctionType.__str__]. *)
Definition rendered_param (str : ResolvedType -> Res string)
    (p : option string * ResolvedType) : Res string :=
  (dots <~ (if isinstance_VariadicType (snd p)
            then e <~ getattr_element_type (snd p) ;; Ok (isinstance_AnyType e)
            else Ok false) ;;
   if dots then Ok "..."
   else s <~ str (snd p) ;;
        Ok (match fst p with
            | Some n => n ++ ": " ++ s
            | None => s
            end))%R.

(** The texts of the key and of the value of one entry of a table. *)
Definition rendered_field (str : ResolvedType -> Res string)
    (f : TableKey ResolvedType * ResolvedType)
  : TableKey ResolvedType * (Res string * Res string) :=
  (fst f, (match fst f with KType kt => str kt | _ => Ok EmptyString end,
           str (snd f))).

(** A value that may stand among the elements of a normalised union: an
    instance neither of [UnionType] nor of [OptionalType]. *)
Definition union_element (x : ResolvedType) : bool :=
  negb (isinstance_UnionType x) && negb (isinstance_OptionalType x).

(** An item whose own elements, or whose content, are such values. *)
Definition normal_union_item (x : ResolvedType) : bool :=
  match x with
  | UnionType es _ => forallb union_element es
  | OptionalType _ y => union_element y
  | _ => union_element x
  end.

(** The union a value is, or wraps as an optional. *)
Definition union_elements_of (r : ResolvedType) : option (list ResolvedType) :=
  match r with
  | UnionType es _ | OptionalType _ (UnionType es _) => Some es
  | _ => None
  end.

(** [all(p(c) for c in s)] *)
Fixpoint string_forallb (p : ascii -> bool) (s : string) : bool :=
  match s with
  | EmptyString => true
  | String c s' => p c && string_forallb p s'
  end.

(** A word of the terminal [IDENTIFIER]: [/[a-zA-Z_][a-zA-Z0-9_]*/]. *)
Definition is_cname (w : string) : bool :=
  match w with
  | EmptyString => false
  | String c r => is_cname_start c && string_forallb is_cname_char r
  end.

(** A table lies where [substitute_typevars] descends to: in the elements
    of unions, intersections and tuples, in the parameters and the return of
    functions, inside wrappers.  (Aliases and generic instances are not
    descended into.) *)
Fixpoint reaches_table (t : ResolvedType) : bool :=
  let fix any (l : list ResolvedType) : bool :=
    match l with
    | [] => false
    | x :: l' => reaches_table x || any l'
    end in
  let fix any_param (l : list (option string * ResolvedType)) : bool :=
    match l with
    | [] => false
    | (_, x) :: l' => reaches_table x || any_param l'
    end in
  match t with
  | TableType _ _ => true
  | UnionType es _ | IntersectionType es _ | TupleType es => any es
  | FunctionType ps r =>
      any_param ps || match r with Some x => reaches_table x | None => false end
  | OptionalType _ x | ArrayType _ x | VariadicType _ x => reaches_table x
  | _ => false
  end.

(** The argument that [_filter_typevars] produces for the generic [name]. *)
Definition filtered_typevar (typevars : Typevars) (name : string) : ResolvedType :=
  match dict_get typevars name with
  | Some t => t
  | None => StructType name
  end.

Definition is_bound (typevars : Typevars) (name : string) : bool :=
  match dict_get typevars name with Some _ => true | None => false end.

(** No name that [typevars] binds occurs in [t] where the substitution
    looks: [t] holds no unresolved struct of a bound name and no class or
    alias with a bound generic parameter; it holds no table, and its
    wrappers are those the hydrator builds (an optional around no optional,
    a variadic around no variadic, arrays with the methods of [ArrayType]). *)
Fixpoint unaffected (typevars : Typevars) (t : ResolvedType) : bool :=
  let fix all (l : list ResolvedType) : bool :=
    match l with
    | [] => true
    | x :: l' => unaffected typevars x && all l'
    end in
  let fix all_params (l : list (option string * ResolvedType)) : bool :=
    match l with
    | [] => true
    | (_, x) :: l' => unaffected typevars x && all_params l'
    end in
  match t with
  | StructType name => negb (is_bound typevars name)
  | ClassType _ typedef =>
      negb (existsb (is_bound typevars) (generic_names (Class.generics typedef)))
  | AliasType _ typedef _ =>
      negb (existsb (is_bound typevars) (generic_names (Alias.generics typedef)))
  | TableType _ _ => false
  | UnionType es _ | IntersectionType es _ | TupleType es => all es
  | FunctionType ps r =>
      all_params ps
      && match r with Some x => unaffected typevars x | None => true end
  | OptionalType _ x => negb (isinstance_OptionalType x) && unaffected typevars x
  | VariadicType _ x => negb (isinstance_VariadicType x) && unaffected typevars x
  | ArrayType _ x =>
      match method_class t with Some WArray => unaffected typevars x | _ => false end
  | _ => true
  end.

(** The outcome of a computation is an exception. *)
Definition raises {A : Type} (r : Res A * nat) : Prop :=
  exists e s', r = (Raise e, s').

(** The value at the bottom of a chain of wrappers. *)
Fixpoint unwrapped (t : ResolvedType) : ResolvedType :=
  match t with
  | OptionalType _ x | ArrayType _ x | VariadicType _ x => unwrapped x
  | _ => t
  end.

(** No array of the chain of wrappers takes the methods of
    [OptionalType]. *)
Fixpoint chain_terminates (t : ResolvedType) : bool :=
  match t with
  | OptionalType _ x | VariadicType _ x => chain_terminates x
  | ArrayType _ x => negb (lookup_diverges t) && chain_terminates x
  | _ => true
  end.

(** The raw members of a declaration with their names, in order. *)
Definition named_members (ms : list Member) : list (string * Member) :=
  map (fun m => (member_name m, m)) ms.

(** [FunctionType.is_void], on the [rets] of a documented function *)
Definition is_void (rets : Rets) : bool :=
  match rets with RetsNone => true | _ => false end.

(** The outcome of a computation is not a syntax error of the parser. *)
Definition no_ParseError {A : Type} (r : Res A * nat) : bool :=
  match fst r with Raise ParseError => false | _ => true end.



(** [class DocumentedParameter].  [typ] is what [rets] can be: [None], a
    type, or a tuple with entries [None]. *)
Module DocumentedParameter.
Record t := mk { name : option string; desc : option string; typ : Rets;
                   orig_typ : option string }.
End DocumentedParameter.

(** The dictionaries that [parameters] and [returns] fill before they are
    made [DocumentedParameter]s; [pd_typ] is [None] while the key ["typ"] is
    missing. *)
Record ParamDict := mkParamDict {
  pd_name : option string; pd_desc : option string;
  pd_orig_typ : option string; pd_typ : option Rets }.

(** [{"name": param.name, "desc": param.desc, "orig_typ": param.typ}] *)
Definition param_dict (p : FnParam.t) : ParamDict :=
  mkParamDict (FnParam.name p) (FnParam.desc p) (FnParam.typ p) None.

Definition rets_of_option (t : option ResolvedType) : Rets :=
  match t with Some x => RetsType x | None => RetsNone end.

(** [ret[i]["typ"] = t] *)
Definition set_typ (ret : list ParamDict) (i : nat) (t : Rets)
  : Res (list ParamDict) :=
  match nth_error ret i with
  | None => Raise IndexError
  | Some d =>
      Ok (firstn i ret
          ++ mkParamDict (pd_name d) (pd_desc d) (pd_orig_typ d) (Some t)
             :: skipn (S i) ret)%list
  end.

(** The list of [DocumentedParameter]s made from the dictionaries, each
    passed as keyword arguments: a dictionary without ["typ"] misses a
    required argument. *)
Definition build_parameters (ret : list ParamDict)
  : Res (list DocumentedParameter.t) :=
  sequenceR
    (map (fun d => match pd_typ d with
                   | Some t => Ok (DocumentedParameter.mk (pd_name d) (pd_desc d)
                                     t (pd_orig_typ d))
                   | None => Raise TypeError
                   end) ret).

(** truth value of a [str | None] *)
Definition truthy (s : option string) : bool :=
  match s with Some (String _ _) => true | _ => false end.

(** [for i, param in enumerate(self.params): assert ...; ret[i]["typ"] = param[1]] *)
Fixpoint parameters_loop (params : list (option string * option ResolvedType))
    (i : nat) (ret : list ParamDict) : Res (list ParamDict) :=
  match params with
  | [] => Ok ret
  | (n, t) :: ps =>
      (_ <~ (if truthy n then
               match nth_error ret i with
               | None => Raise IndexError
               | Some d => if option_eqb String.eqb n (pd_name d) then Ok tt
                           else Raise AssertionError
               end
             else Ok tt) ;;
       ret' <~ set_typ ret i (rets_of_option t) ;;
       parameters_loop ps (S i) ret')%R
  end.

(** The property [DocumentedFunction.parameters], at its first access. *)
Definition DocumentedFunction_parameters
    (params : list (option string * option ResolvedType))
    (typedef : FnMember.t) : Res (list DocumentedParameter.t) :=
  (ret <~ parameters_loop params 0 (map param_dict (FnMember.params typedef)) ;;
   build_parameters ret)%R.

(** [rets.elements] where [rets.kind == TypeKind.TUPLE]: only the class
    [TupleType] itself has that kind. *)
Definition tuple_elements (rets : Rets) : option (list Rets) :=
  match rets with
  | RetsTuple es => Some (map rets_of_option es)
  | RetsType (TupleType es) => Some (map RetsType es)
  | _ => None
  end.

(** [for i, rettyp in enumerate(self.rets.elements): ret[i]["typ"] = rettyp] *)
Fixpoint returns_loop (elements : list Rets) (i : nat) (ret : list ParamDict)
  : Res (list ParamDict) :=
  match elements with
  | [] => Ok ret
  | e :: es => (ret' <~ set_typ ret i e ;; returns_loop es (S i) ret')%R
  end.

(** The property [DocumentedFunction.returns], at its first access. *)
Definition DocumentedFunction_returns (rets : Rets) (typedef : FnMember.t)
  : Res (list DocumentedParameter.t) :=
  match rets with
  | RetsNone => Ok []
  | _ =>
      let ret := map param_dict (FnMember.returns typedef) in
      (ret' <~ match tuple_elements rets with
               | Some es =>
                   if (List.length ret =? List.length es)%nat
                   then returns_loop es 0 ret
                   else set_typ ret 0 rets
               | None => set_typ ret 0 rets
               end ;;
       build_parameters ret')%R
  end.

(** The parameter that [parameters] and [returns] build from a declared
    parameter and its type. *)
Definition documented_parameter (p : FnParam.t) (t : Rets)
  : DocumentedParameter.t :=
  DocumentedParameter.mk (FnParam.name p) (FnParam.desc p) t (FnParam.typ p).

(** A dictionary of [parameters] or [returns] once its type is set. *)
Definition filled (pt : FnParam.t * Rets) : ParamDict :=
  mkParamDict (FnParam.name (fst pt)) (FnParam.desc (fst pt))
    (FnParam.typ (fst pt)) (Some (snd pt)).

(** A character that needs no escape inside [ESCAPED_STRING]: no double
    quote, no backslash, no newline. *)
Definition plain_char (c : ascii) : bool :=
  negb (Ascii.eqb c dquote) && negb (Ascii.eqb c "\"%char)
  && negb (nat_of_ascii c =? 10)%nat.

(** The literals: integers, booleans, and strings of plain characters. *)
Definition plain_literal (t : ResolvedType) : bool :=
  match t with
  | LiteralInt _ | LiteralBool _ => true
  | LiteralStr v => string_forallb plain_char v
  | _ => false
  end.

(** The suffixes of [suffix_type]: [?] and [[]]. *)
Inductive Suffix := SOptional | SArray.

Fixpoint suffix_text (sfx : list Suffix) : string :=
  match sfx with
  | [] => EmptyString
  | SOptional :: r => "?" ++ suffix_text r
  | SArray :: r => "[]" ++ suffix_text r
  end.

(** The reductions [optional_type] and [array_type] for a list of suffixes,
    from left to right. *)
Fixpoint apply_suffixes (sfx : list Suffix) (t : ResolvedType) : M ResolvedType :=
  match sfx with
  | [] => ret t
  | SOptional :: r => t' <- optional_type t ;; apply_suffixes r t'
  | SArray :: r => t' <- array_type t ;; apply_suffixes r t'
  end.

Definition suffix_token (x : Suffix) : Token :=
  match x with SOptional => TQMark | SArray => TArr end.

(** Suffix lists whose text is printed back as it was read: arrays only,
    arrays then one [?], or one [?] then arrays. *)
Fixpoint arrays_then_optional (sfx : list Suffix) : bool :=
  match sfx with
  | [] | [SOptional] => true
  | SArray :: r => arrays_then_optional r
  | _ => false
  end.

Definition is_SArray (x : Suffix) : bool :=
  match x with SArray => true | SOptional => false end.

Definition printable_suffixes (sfx : list Suffix) : bool :=
  arrays_then_optional sfx
  || match sfx with SOptional :: r => forallb is_SArray r | _ => false end.

(** What the printing of a tower of arrays needs of the value below:
    it is no function, its arrays take the methods of [ArrayType], and it
    prints as [text]. *)
Definition prints_as (t : ResolvedType) (text : string) : Prop :=
  isinstance_FunctionType t = false
  /\ (isinstance_ArrayType t = true -> method_class t = Some WArray)
  /\ str t = Ok text.

(** [it["name"]] of an entry of [types] *)
Definition LuaType_name (t : LuaType) : string :=
  match t with
  | TClass c => Class.name c
  | TEnum e => LuaEnum.name e
  | TAlias a => Alias.name a
  end.

(** [Index._to_dict]: [{it["name"]: it for it in raw}] *)
Definition _to_dict {T : Type} (name : T -> string) (raw : list T) : dict T :=
  dict_of_items (map (fun it => (name it, it)) raw).

(** The properties [Index.classes], [Index.aliases] and [Index.enums]:
    [{name: cls for name, cls in self.types.items() if cls.type == kind}];
    [sel] tells the entries of the kind. *)
Definition Index_view {V : Type} (sel : LuaType -> option V)
    (types : dict LuaType) : dict V :=
  dict_of_items
    (flat_map (fun kv => match sel (snd kv) with
                         | Some v => [(fst kv, v)]
                         | None => []
                         end) types).

Definition as_class (t : LuaType) : option Class.t :=
  match t with TClass c => Some c | _ => None end.
Definition as_alias (t : LuaType) : option Alias.t :=
  match t with TAlias a => Some a | _ => None end.
Definition as_enum (t : LuaType) : option LuaEnum.t :=
  match t with TEnum e => Some e | _ => None end.

Definition Index_classes : dict LuaType -> dict Class.t := Index_view as_class.
Definition Index_aliases : dict LuaType -> dict Alias.t := Index_view as_alias.
Definition Index_enums : dict LuaType -> dict LuaEnum.t := Index_view as_enum.

(** [TreeHydrator.struct_type] as it is written: the three tests
    [full_name in self.classes], [in self.aliases], [in self.enums], in that
    order, on the views that [__init__] took from the index. *)
Definition struct_type_lookups (types : dict LuaType)
    (parse_prev : string -> M ResolvedType)
    (subst_prev : ResolvedType -> Typevars -> M ResolvedType)
    (full_name : string) : M ResolvedType :=
  match dict_get (Index_classes types) full_name with
  | Some c => ret (ClassType full_name c)
  | None =>
      match dict_get (Index_aliases types) full_name with
      | Some a => mk_AliasType parse_prev full_name a
      | None =>
          match dict_get (Index_enums types) full_name with
          | Some e => mk_EnumType parse_prev subst_prev full_name e
          | None => ret (StructType full_name)
          end
      end
  end.

(** Whether [t.rets] is a value, [None], or raises. *)
Definition rets_shape (r : Res (option ResolvedType)) : Res bool :=
  match r with
  | Ok (Some _) => Ok true
  | Ok None => Ok false
  | Raise e => Raise e
  end.

(** Two keys of [TableType.fields] that compare equal. *)
Definition FieldKey_rel (a b : FieldKey) : Prop :=
  match a, b with
  | FName x, FName y => x = y
  | FType x, FType y => py_eq x y = true
  | FInt x, FInt y => x = y
  | _, _ => False
  end.


(** What [DocumentedFunction.from_member] makes of one declared type [typ]
    when [sa] classes exist: [None] where none is declared (or an empty
    one); otherwise the value the parser returns for the text, or
    [UnknownType] where the parser raises a syntax error.  [sb] counts the
    classes afterwards. *)
Definition parsed_at (parse_prev : string -> M ResolvedType)
    (typ : option string) (sa : nat) (o : option ResolvedType) (sb : nat)
  : Prop :=
  match typ with
  | Some (String _ _ as text) =>
      (exists t, parse_prev text sa = (Ok t, sb) /\ o = Some t)
      \/ (parse_prev text sa = (Raise ParseError, sb) /\ o = Some UnknownType)
  | _ => o = None /\ sb = sa
  end.

(** The declared types [typs] hydrated one after the other, each when the
    classes of the ones before exist. *)
Fixpoint hydrated_in_turn (parse_prev : string -> M ResolvedType)
    (typs : list (option string)) (sa : nat) (os : list (option ResolvedType))
    (sb : nat) : Prop :=
  match typs, os with
  | [], [] => sb = sa
  | typ :: typs', o :: os' =>
      exists s1, parsed_at parse_prev typ sa o s1
                 /\ hydrated_in_turn parse_prev typs' s1 os' sb
  | _, _ => False
  end.


(* ================================================================== *)
(** * Properties *)
(* ================================================================== *)

(** ** Induction on resolved types *)

Section ResolvedType_induction.
Variable P : ResolvedType -> Prop.

Let PKey (k : TableKey ResolvedType) : Prop :=
  match k with KType t => P t | _ => True end.

Hypothesis HPrimitive : forall name, P (PrimitiveType name).
Hypothesis HString : P StringType.
Hypothesis HBoolean : P BooleanType.
Hypothesis HNumber : P NumberType.
Hypothesis HInteger : P IntegerType.
Hypothesis HUnknown : P UnknownType.
Hypothesis HNil : P NilType.
Hypothesis HAny : P AnyType.
Hypothesis HLiteralStr : forall v, P (LiteralStr v).
Hypothesis HLiteralInt : forall v, P (LiteralInt v).
Hypothesis HLiteralBool : forall v, P (LiteralBool v).
Hypothesis HStruct : forall name, P (StructType name).
Hypothesis HClass : forall name td, P (ClassType name td).
Hypothesis HAlias : forall name td typ, P typ -> P (AliasType name td typ).
Hypothesis HEnum : forall name td typ, P typ -> P (EnumType name td typ).
Hypothesis HGStruct : forall name args,
    Forall P args -> P (GenericStructInstanceType name args).
Hypothesis HGClass : forall name args td,
    Forall P args -> P (GenericClassInstanceType name args td).
Hypothesis HGAlias : forall name args td typ,
    Forall P args -> P typ -> P (GenericAliasInstanceType name args td typ).
Hypothesis HGEnum : forall name args td typ,
    Forall P args -> P typ -> P (GenericEnumInstanceType name args td typ).
Hypothesis HTable : forall fields omitted,
    Forall (fun kv => PKey (fst kv) /\ P (snd kv)) fields ->
    P (TableType fields omitted).
Hypothesis HUnion : forall es omitted, Forall P es -> P (UnionType es omitted).
Hypothesis HIntersection : forall es omitted,
    Forall P es -> P (IntersectionType es omitted).
Hypothesis HTuple : forall es, Forall P es -> P (TupleType es).
Hypothesis HFunction : forall params rets,
    Forall (fun p => P (snd p)) params ->
    match rets with Some r => P r | None => True end ->
    P (FunctionType params rets).
Hypothesis HOptional : forall c x, P x -> P (OptionalType c x).
Hypothesis HArray : forall c x, P x -> P (ArrayType c x).
Hypothesis HVariadic : forall c x, P x -> P (VariadicType c x).

Fixpoint ResolvedType_rect_nested (t : ResolvedType) : P t :=
  let fix all (l : list ResolvedType) : Forall P l :=
    match l with
    | [] => Forall_nil _
    | x :: l' => Forall_cons _ (ResolvedType_rect_nested x) (all l')
    end in
  let fix all_params (l : list (option string * ResolvedType))
    : Forall (fun p => P (snd p)) l :=
    match l with
    | [] => Forall_nil _
    | p :: l' => Forall_cons _ (ResolvedType_rect_nested (snd p)) (all_params l')
    end in
  let fix all_fields (l : list (TableKey ResolvedType * ResolvedType))
    : Forall (fun kv => PKey (fst kv) /\ P (snd kv)) l :=
    match l with
    | [] => Forall_nil _
    | kv :: l' =>
        Forall_cons _
          (conj (match fst kv as k return PKey k with
                 | KType t => ResolvedType_rect_nested t
                 | KName _ => I
                 | KNone => I
                 end)
                (ResolvedType_rect_nested (snd kv)))
          (all_fields l')
    end in
  match t with
  | PrimitiveType n => HPrimitive n
  | StringType => HString
  | BooleanType => HBoolean
  | NumberType => HNumber
  | IntegerType => HInteger
  | UnknownType => HUnknown
  | NilType => HNil
  | AnyType => HAny
  | LiteralStr v => HLiteralStr v
  | LiteralInt v => HLiteralInt v
  | LiteralBool v => HLiteralBool v
  | StructType n => HStruct n
  | ClassType n td => HClass n td
  | AliasType n td ty => HAlias n td (ResolvedType_rect_nested ty)
  | EnumType n td ty => HEnum n td (ResolvedType_rect_nested ty)
  | GenericStructInstanceType n a => HGStruct n (all a)
  | GenericClassInstanceType n a td => HGClass n td (all a)
  | GenericAliasInstanceType n a td ty =>
      HGAlias n td (all a) (ResolvedType_rect_nested ty)
  | GenericEnumInstanceType n a td ty =>
      HGEnum n td (all a) (ResolvedType_rect_nested ty)
  | TableType f o => HTable o (all_fields f)
  | UnionType es o => HUnion o (all es)
  | IntersectionType es o => HIntersection o (all es)
  | TupleType es => HTuple (all es)
  | FunctionType ps r =>
      @HFunction ps r (all_params ps)
        (match r as r' return match r' with Some x => P x | None => True end with
         | Some x => ResolvedType_rect_nested x
         | None => I
         end)
  | OptionalType c x => HOptional c (ResolvedType_rect_nested x)
  | ArrayType c x => HArray c (ResolvedType_rect_nested x)
  | VariadicType c x => HVariadic c (ResolvedType_rect_nested x)
  end.
End ResolvedType_induction.

(** ** Equality *)

Lemma rt_eqb_refl (same_class : nat -> nat -> bool) :
  (forall c, same_class c c = true) ->
  forall t, rt_eqb same_class t t = true.
Proof.
  intros Hc.
  induction t using ResolvedType_rect_nested; simpl;
    rewrite ?String.eqb_refl, ?Z.eqb_refl, ?Bool.eqb_reflx, ?Hc, ?IHt; auto.
  all: try (rewrite ?andb_true_r;
            match goal with
            | H : Forall _ ?l |- _ =>
                induction H as [|? ? Hx ? IH]; [reflexivity|];
                rewrite Hx, IH; reflexivity
            end).
  - (* table *)
    rewrite andb_true_r.
    induction H as [|[k v] ? [Hk Hv] ? IH]; [reflexivity|].
    simpl in *. rewrite Hv, IH, !andb_true_r.
    destruct k; simpl in *; auto using String.eqb_refl.
  - (* function *)
    apply andb_true_intro; split.
    + induction H as [|[n x] ? Hx ? IH]; [reflexivity|].
      simpl in *. rewrite Hx, IH, !andb_true_r.
      destruct n; simpl; auto using String.eqb_refl.
    + destruct rets; auto.
Qed.


(** ** The construction monad *)

Lemma bind_Ok {A B} (m : M A) (f : A -> M B) s a s' :
  m s = (Ok a, s') -> bind m f s = f a s'.
Proof. unfold bind; intros ->; reflexivity. Qed.

Lemma bind_Raise {A B} (m : M A) (f : A -> M B) s e s' :
  m s = (Raise e, s') -> bind m f s = (Raise e, s').
Proof. unfold bind; intros ->; reflexivity. Qed.

Lemma bind_inv {A B} (m : M A) (f : A -> M B) s b s' :
  bind m f s = (Ok b, s') ->
  exists a s1, m s = (Ok a, s1) /\ f a s1 = (Ok b, s').
Proof.
  unfold bind. destruct (m s) as [[a|e] s1]; [eauto|discriminate].
Qed.

(** ** C6: optional of optional *)



(** ** C5: flattening of unions and intersections *)

Lemma union_loop_plain (items acc : list ResolvedType) (optional omitted : bool) :
  forallb plain_union_item items = true ->
  union_loop items acc optional omitted
  = Ok ((acc ++ flattened_union items)%list, optional,
        omitted || nested_omitted_union items).
Proof.
  revert acc omitted.
  induction items as [|x items IH]; intros acc omitted H; simpl in *.
  - now rewrite app_nil_r, orb_false_r.
  - apply andb_prop in H as [Hx H].
    assert (Hplain :
      (exists es o, x = UnionType es o)
      \/ (isinstance_UnionType x = false /\ isinstance_OptionalType x = false
          /\ flattened_union [x] = [x] /\ nested_omitted_union [x] = false)).
    { destruct x; simpl in *; eauto; right;
        try (apply andb_prop in Hx as [H1 H2]);
        rewrite ?negb_true_iff in *; try discriminate; repeat split; auto. }
    destruct Hplain as [(es & o & ->)|(H1 & H2 & H3 & H4)].
    + simpl. destruct omitted; simpl; rewrite IH by assumption;
        rewrite <- app_assoc; reflexivity.
    + rewrite H1, H2, IH by assumption.
      unfold flattened_union, nested_omitted_union in *; simpl in *.
      rewrite app_nil_r in H3. rewrite orb_false_r in H4.
      rewrite H3, H4, <- app_assoc. reflexivity.
Qed.

Lemma intersection_loop_plain (items acc : list ResolvedType) (omitted : bool) :
  forallb plain_intersection_item items = true ->
  intersection_loop items acc omitted
  = Ok ((acc ++ flattened_intersection items)%list,
        omitted || nested_omitted_intersection items).
Proof.
  revert acc omitted.
  induction items as [|x items IH]; intros acc omitted H; simpl in *.
  - now rewrite app_nil_r, orb_false_r.
  - apply andb_prop in H as [Hx H].
    assert (Hplain :
      (exists es o, x = IntersectionType es o)
      \/ (isinstance_IntersectionType x = false
          /\ flattened_intersection [x] = [x]
          /\ nested_omitted_intersection [x] = false)).
    { destruct x; simpl in *; eauto; right;
        rewrite ?negb_true_iff in *; try discriminate; repeat split; auto. }
    destruct Hplain as [(es & o & ->)|(H1 & H3 & H4)].
    + simpl. destruct omitted; simpl; rewrite IH by assumption;
        rewrite <- app_assoc; reflexivity.
    + rewrite H1, IH by assumption.
      unfold flattened_intersection, nested_omitted_intersection in *;
        simpl in *.
      rewrite app_nil_r in H3. rewrite orb_false_r in H4.
      rewrite H3, H4, <- app_assoc. reflexivity.
Qed.

(** C5 (as amended).  A list of one element collapses to that element.  A
    list of another length whose items are unions themselves or instances
    neither of [UnionType] nor of [OptionalType] is flattened into one
    [UnionType]: the elements of the nested unions in place, [omitted] the
    disjunction of the outer and all nested flags.  The same holds for
    intersections whose items are intersections themselves or no instances
    of [IntersectionType]. *)
Theorem flattening (items : list ResolvedType) (omitted : bool) (s : nat) :
  (forall x, union_type [x] omitted s = (Ok x, s)
             /\ intersection_type [x] omitted s = (Ok x, s))
  /\ (List.length items <> 1 ->
      forallb plain_union_item items = true ->
      union_type items omitted s
      = (Ok (UnionType (flattened_union items)
               (omitted || nested_omitted_union items)), s))
  /\ (List.length items <> 1 ->
      forallb plain_intersection_item items = true ->
      intersection_type items omitted s
      = (Ok (IntersectionType (flattened_intersection items)
               (omitted || nested_omitted_intersection items)), s)).
Proof.
  split; [intros x; split; reflexivity|].
  split; intros Hlen Hplain.
  - unfold union_type.
    destruct items as [|x [|y items]]; [| contradiction Hlen; reflexivity |];
      unfold bind, lift; rewrite union_loop_plain by assumption; reflexivity.
  - unfold intersection_type.
    destruct items as [|x [|y items]]; [| contradiction Hlen; reflexivity |];
      unfold bind, lift; rewrite intersection_loop_plain by assumption;
      reflexivity.
Qed.

(** [Union([Union([a,b]), c]) == Union([a,b,c])] with an omitted nested
    union, and the corresponding intersection. *)
Lemma flattening_witness :
  union_type [UnionType [StringType; NumberType] true; BooleanType] false 0
  = (Ok (UnionType [StringType; NumberType; BooleanType] true), 0)
  /\ intersection_type
       [IntersectionType [StructType "A"; StructType "B"] false; StructType "C"]
       false 0
     = (Ok (IntersectionType [StructType "A"; StructType "B"; StructType "C"]
              false), 0).
Proof.
  split.
  - apply (proj1 (proj2 (flattening
             [UnionType [StringType; NumberType] true; BooleanType] false 0)));
      [simpl; lia | reflexivity].
  - apply (proj2 (proj2 (flattening
             [IntersectionType [StructType "A"; StructType "B"] false;
              StructType "C"] false 0)));
      [simpl; lia | reflexivity].
Defined.

(** C5 as stated fails: the items of [((string|number)|boolean?)] include a
    nested union, and the reduction yields no [UnionType] but an
    [OptionalType] around one. *)
Lemma flattening_counterexample :
  union_type [UnionType [StringType; NumberType] false;
              OptionalType 0 BooleanType] false 1
  = (Ok (OptionalType 1 (UnionType [StringType; NumberType; BooleanType] false)),
     2)
  /\ ~ (exists es o s',
          union_type [UnionType [StringType; NumberType] false;
                      OptionalType 0 BooleanType] false 1
          = (Ok (UnionType es o), s')).
Proof.
  split; [reflexivity|].
  intros (es & o & s' & H). vm_compute in H. discriminate H.
Qed.

(** ** The hoisting of optional items, where it works *)

Lemma union_loop_direct (items acc : list ResolvedType)
    (optional omitted : bool) :
  forallb direct_union_item items = true ->
  union_loop items acc optional omitted
  = Ok ((acc ++ hoisted_union items)%list,
        optional || existsb is_OptionalType items,
        omitted || nested_omitted_union items).
Proof.
  revert acc optional omitted.
  induction items as [|x items IH]; intros acc optional omitted H; simpl in *.
  - now rewrite app_nil_r, !orb_false_r.
  - apply andb_prop in H as [Hx H].
    assert (Hcases :
      (exists es o, x = UnionType es o)
      \/ (exists c y, x = OptionalType c y /\ isinstance_UnionType y = false)
      \/ (isinstance_UnionType x = false /\ isinstance_OptionalType x = false
          /\ hoisted_union [x] = [x] /\ is_OptionalType x = false
          /\ nested_omitted_union [x] = false)).
    { destruct x; simpl in *; eauto;
        try (right; left; do 2 eexists; split;
             [reflexivity | now apply negb_true_iff]);
        right; right;
        try (apply andb_prop in Hx as [H1 H2]);
        rewrite ?negb_true_iff in *; try discriminate; repeat split; auto. }
    destruct Hcases as [(es & o & ->)|[(c & y & -> & Hy)|(H1 & H2 & H3 & H4 & H5)]].
    + simpl. destruct omitted; simpl; rewrite IH by assumption;
        rewrite <- app_assoc; reflexivity.
    + simpl. rewrite Hy, IH by assumption.
      rewrite <- app_assoc, orb_true_r. simpl.
      now destruct optional.
    + rewrite H1, H2, IH by assumption.
      unfold hoisted_union, nested_omitted_union in *; simpl in *.
      rewrite app_nil_r in H3. rewrite orb_false_r in H5.
      rewrite H3, H4, H5, <- app_assoc. reflexivity.
Qed.

(** X1.  Where every optional item wraps a value that is no instance of
    [UnionType] (and no item is an array or a variadic around an optional or
    a union), [union_type] does hoist: one optional item suffices for the
    result to be an [OptionalType] around the union of the items, with the
    nested unions flattened and the optionals replaced by their content. *)
Lemma union_type_hoists (items : list ResolvedType) (omitted : bool) (s : nat) :
  List.length items <> 1 ->
  forallb direct_union_item items = true ->
  existsb is_OptionalType items = true ->
  union_type items omitted s
  = (Ok (OptionalType s
           (UnionType (hoisted_union items)
              (omitted || nested_omitted_union items))), S s).
Proof.
  intros Hlen Hd Ho. unfold union_type.
  destruct items as [|x [|y items]]; [discriminate Ho | contradiction Hlen; reflexivity |].
  unfold bind, lift. rewrite union_loop_direct by assumption.
  rewrite Ho. reflexivity.
Qed.

(** [(string?|number)] *)
Lemma union_type_hoists_witness :
  union_type [OptionalType 0 StringType; NumberType] false 1
  = (Ok (OptionalType 1 (UnionType [StringType; NumberType] false)), 2).
Proof.
  apply (@union_type_hoists [OptionalType 0 StringType; NumberType] false 1);
    [discriminate | reflexivity | reflexivity].
Defined.

(** ** C10: optional items of a union *)

(** C10 at its failing inputs.  The optional union in
    [((string|number)?|boolean)] is an instance of [UnionType], so the first
    branch of the loop takes it: its elements are spliced in and [optional]
    stays [False]; the result is a plain union and the optionality is lost.
    In [(string?[]|number)] the array of an optional is an instance of
    [OptionalType]: its [inner], found on the element, replaces the array. *)
Theorem union_type_optional_not_hoisted :
  union_type [OptionalType 0 (UnionType [StringType; NumberType] false);
              BooleanType] false 1
  = (Ok (UnionType [StringType; NumberType; BooleanType] false), 1)
  /\ run (parse [] 1 "((string|number)?|boolean)") 0
     = Ok (UnionType [StringType; NumberType; BooleanType] false)
  /\ run (parse [] 1 "(string?[]|number)") 0
     = Ok (OptionalType 2 (UnionType [StringType; NumberType] false)).
Proof. repeat split; vm_compute; reflexivity. Qed.

(** ** C7: structural equality *)

(** The declaration and the body a struct value carries take no part in its
    comparison: values resolved against different catalogs compare equal
    when their names do. *)
Lemma py_eq_ignores_typedef (name : string) :
  (forall d1 d2, py_eq (ClassType name d1) (ClassType name d2) = true)
  /\ (forall d1 d2 t1 t2,
         py_eq (AliasType name d1 t1) (AliasType name d2 t2) = true)
  /\ (forall d1 d2 t1 t2,
         py_eq (EnumType name d1 t1) (EnumType name d2 t2) = true).
Proof. repeat split; intros; simpl; apply String.eqb_refl. Qed.

(** Resolving the same name twice against the same catalog yields equal
    struct values, whatever classes were created in between. *)
Lemma struct_type_deterministic (index : dict LuaType)
    (parse_prev : string -> M ResolvedType)
    (subst_prev : ResolvedType -> Typevars -> M ResolvedType)
    (name : string) (s1 s2 s1' s2' : nat) (x y : ResolvedType) :
  struct_type index parse_prev subst_prev name s1 = (Ok x, s1') ->
  struct_type index parse_prev subst_prev name s2 = (Ok y, s2') ->
  py_eq x y = true.
Proof.
  unfold struct_type.
  destruct (dict_get index name) as [[c|e|a]|]; intros H1 H2.
  - inversion H1; inversion H2; subst. simpl. apply String.eqb_refl.
  - unfold mk_EnumType in *.
    apply bind_inv in H1 as (m1 & ? & _ & H1).
    apply bind_inv in H2 as (m2 & ? & _ & H2).
    inversion H1; inversion H2; subst. simpl. apply String.eqb_refl.
  - unfold mk_AliasType in *.
    apply bind_inv in H1 as (m1 & ? & _ & H1).
    apply bind_inv in H2 as (m2 & ? & _ & H2).
    inversion H1; inversion H2; subst. simpl. apply String.eqb_refl.
  - inversion H1; inversion H2; subst. simpl. apply String.eqb_refl.
Qed.

(** C7 at its failing input.  Parsing [string?] twice yields two values with
    the same tag and the same content that do not compare equal: each
    [OptionalType] creates its own class, and the inherited [__eq__] first
    requires [other.__class__ is self.__class__]. *)
Theorem wrappers_compare_by_class :
  exists x y s1 s2,
    parse [] 1 "string?" 0 = (Ok x, s1)
    /\ parse [] 1 "string?" s1 = (Ok y, s2)
    /\ struct_eq x y = true
    /\ py_eq x y = false.
Proof.
  exists (OptionalType 0 StringType), (OptionalType 1 StringType), 1, 2.
  repeat split; vm_compute; reflexivity.
Qed.

(** ** C1: parsing the canonical text *)

(** C1 at its failing inputs.  [integer[]?[]] parses, but its value has no
    canonical text: the outer array takes the methods of [OptionalType] from
    the class of its element and holds no [inner], so [__str__] recurses
    without end.  The text of a table lists the named keys before the typed
    ones, and the text of a function prints a parameter of type [any ...] as
    [...] without its name: parsing those texts yields values with other
    contents. *)
Theorem str_does_not_roundtrip :
  (exists x, run (parse [] 1 "integer[]?[]") 0 = Ok x
             /\ str x = Raise RecursionError)
  /\ (exists x y,
         run (parse [] 1 "{ [string]: any, foo: integer }") 0 = Ok x
         /\ str x = Ok "{ foo: integer, [string]: any }"
         /\ run (parse [] 1 "{ foo: integer, [string]: any }") 0 = Ok y
         /\ struct_eq x y = false)
  /\ (exists x y,
         run (parse [] 1 "fun(args: any ...)") 0 = Ok x
         /\ str x = Ok "fun(...)"
         /\ run (parse [] 1 "fun(...)") 0 = Ok y
         /\ struct_eq x y = false).
Proof.
  split; [|split].
  - eexists; split; vm_compute; reflexivity.
  - do 2 eexists; repeat split; vm_compute; reflexivity.
  - do 2 eexists; repeat split; vm_compute; reflexivity.
Qed.

(** ** C3 and C9: generic instantiation *)

Lemma renders_declaration_true (type_args : list ResolvedType)
    (names : list string) :
  renders_declaration type_args names = Ok true <->
  (List.length type_args <= List.length names
   /\ type_args = map StructType (firstn (List.length type_args) names)).
Proof.
  revert names.
  induction type_args as [|a rest IH]; intros names; simpl.
  - split; [intros _; split; [lia|reflexivity]|reflexivity].
  - split.
    + destruct a; try discriminate.
      destruct names as [|g gs]; [discriminate|].
      destruct (String.eqb name g) eqn:E; [|discriminate].
      apply String.eqb_eq in E; subst g.
      intros H. apply IH in H as [Hlen Heq].
      split; [simpl; lia|]. simpl. now rewrite <- Heq.
    + intros [Hlen Heq].
      destruct names as [|g gs]; [simpl in Hlen; lia|].
      simpl in Heq. inversion Heq as [[Ha Hrest]].
      rewrite String.eqb_refl. rewrite <- Hrest.
      apply IH. split; [simpl in Hlen; lia | assumption].
Qed.

Lemma renders_declaration_arity (type_args : list ResolvedType)
    (names : list string) :
  List.length type_args <= List.length names ->
  exists b, renders_declaration type_args names = Ok b.
Proof.
  revert names.
  induction type_args as [|a rest IH]; intros names Hlen; simpl.
  - eauto.
  - destruct a; eauto.
    destruct names as [|g gs]; [simpl in Hlen; lia|].
    destruct (String.eqb name g); eauto.
    apply IH. simpl in Hlen; lia.
Qed.

Lemma assert_inv (c : bool) (s : nat) (u : unit) (s' : nat) :
  assert c s = (Ok u, s') -> c = true /\ s' = s.
Proof. destruct c; unfold assert, ret, raise; intros H; inversion H; auto. Qed.

(** C9.  For a base whose declaration is known, an instantiation with more
    arguments than the declaration has generic parameters raises an
    exception, and whenever a generic instance is built it carries the
    arguments supplied, which are no more than the declared parameters.  The
    constructors used elsewhere ([substitute_typevars]) check the same
    assertion. *)
Theorem generic_instance_arity
    (parse_prev : string -> M ResolvedType)
    (subst_prev : ResolvedType -> Typevars -> M ResolvedType)
    (base : ResolvedType) (generics : list LuaTypeVar.t)
    (type_args : list ResolvedType) (s : nat) :
  known_generics base = Some generics ->
  (List.length generics < List.length type_args ->
   exists e s',
     generic_struct_type parse_prev subst_prev base type_args s
     = (Raise e, s'))
  /\ (forall g s' a,
         generic_struct_type parse_prev subst_prev base type_args s
         = (Ok g, s') ->
         instance_args g = Some a ->
         a = type_args /\ List.length a <= List.length generics).
Proof.
  intros Hk.
  assert (Hexcess : List.length generics < List.length type_args ->
                    renders_declaration type_args (generic_names generics)
                    <> Ok true).
  { intros Hlt H. apply renders_declaration_true in H as [H _].
    unfold generic_names in H. rewrite length_map in H. lia. }
  split.
  - intros Hlt. specialize (Hexcess Hlt).
    assert (Hleb : (List.length type_args <=? List.length generics)%nat = false)
      by (apply Nat.leb_gt; lia).
    destruct base; try discriminate; simpl in Hk; inversion Hk; subst;
      unfold generic_struct_type, bind, lift;
      destruct (renders_declaration _ _) as [[|]|e]; eauto;
      try (exfalso; apply Hexcess; reflexivity).
    + unfold mk_GenericClassInstanceType, bind. rewrite Hleb. simpl. eauto.
    + unfold mk_GenericAliasInstanceType, bind.
      destruct (parse_opt _ _ _) as [[ty|e] s1]; eauto.
      rewrite Hleb. simpl. eauto.
    + unfold mk_GenericEnumInstanceType, bind.
      destruct (members_of_list _ _ _ _ _) as [[ms|e] s1]; eauto.
      rewrite Hleb. simpl. eauto.
  - intros g s' a H Ha.
    destruct base; try discriminate; simpl in Hk; inversion Hk; subst;
      unfold generic_struct_type in H;
      apply bind_inv in H as (same & s1 & _ & H);
      destruct same;
      try (inversion H; subst; discriminate Ha).
    + unfold mk_GenericClassInstanceType in H.
      apply bind_inv in H as (u & s2 & Hassert & H).
      apply assert_inv in Hassert as [Hleb _]. apply Nat.leb_le in Hleb.
      inversion H; subst. simpl in Ha. inversion Ha; subst. auto.
    + unfold mk_GenericAliasInstanceType in H.
      apply bind_inv in H as (ty & s2 & _ & H).
      apply bind_inv in H as (u & s3 & Hassert & H).
      apply assert_inv in Hassert as [Hleb _]. apply Nat.leb_le in Hleb.
      apply bind_inv in H as (ty' & s4 & _ & H).
      inversion H; subst. simpl in Ha. inversion Ha; subst. auto.
    + unfold mk_GenericEnumInstanceType in H.
      apply bind_inv in H as (ms & s2 & _ & H).
      apply bind_inv in H as (u & s3 & Hassert & H).
      apply assert_inv in Hassert as [Hleb _]. apply Nat.leb_le in Hleb.
      apply bind_inv in H as (ty' & s4 & _ & H).
      inversion H; subst. simpl in Ha. inversion Ha; subst. auto.
Qed.

(** An instantiation of [Foo<T>] with two arguments is rejected; one with a
    single argument is built and carries it. *)
Lemma generic_instance_arity_witness :
  (exists e s',
      generic_struct_type no_parse no_subst (ClassType "Foo" Foo)
        [StringType; NumberType] 0 = (Raise e, s'))
  /\ (forall g s' a,
         generic_struct_type no_parse no_subst (ClassType "Foo" Foo)
           [StringType] 0 = (Ok g, s') ->
         instance_args g = Some a ->
         a = [StringType] /\ List.length a <= 1).
Proof.
  split.
  - apply (proj1 (generic_instance_arity no_parse no_subst
                    (ClassType "Foo" Foo) [StringType; NumberType] 0 eq_refl)).
    simpl; lia.
  - apply (proj2 (generic_instance_arity no_parse no_subst
                    (ClassType "Foo" Foo) [StringType] 0 eq_refl)).
Defined.

(** C3 (as amended).  With an unresolved base a [GenericStructInstanceType]
    with the supplied arguments is always built.  With a known base and no
    more arguments than declared generics: if every argument is an
    unresolved struct reference named like the generic at its position, the
    base is returned unchanged; otherwise a generic instance carrying the
    full ordered argument list is built: at once for a class, and for an
    alias or an enum once its body or its fields have been resolved with the
    arguments substituted. *)
Theorem generic_struct_type_cases
    (parse_prev : string -> M ResolvedType)
    (subst_prev : ResolvedType -> Typevars -> M ResolvedType)
    (type_args : list ResolvedType) (s : nat) :
  (forall name,
      generic_struct_type parse_prev subst_prev (StructType name) type_args s
      = (Ok (GenericStructInstanceType name type_args), s))
  /\ (forall base generics,
         known_generics base = Some generics ->
         List.length type_args <= List.length generics ->
         (type_args = typevar_args (List.length type_args) generics ->
          generic_struct_type parse_prev subst_prev base type_args s
          = (Ok base, s))
         /\ (type_args <> typevar_args (List.length type_args) generics ->
             match base with
             | ClassType name td =>
                 generic_struct_type parse_prev subst_prev base type_args s
                 = (Ok (GenericClassInstanceType name type_args td), s)
             | AliasType name td _ =>
                 forall ty s1 ty' s2,
                   parse_opt parse_prev (Alias.typ td) s = (Ok ty, s1) ->
                   subst_prev ty (_typevar_ctx (Alias.generics td) type_args) s1
                   = (Ok ty', s2) ->
                   generic_struct_type parse_prev subst_prev base type_args s
                   = (Ok (GenericAliasInstanceType name type_args td ty'), s2)
             | EnumType name td _ =>
                 forall ms s1 ty s2,
                   members_of_list parse_prev subst_prev (LuaEnum.members td)
                     (Some (_typevar_ctx (LuaEnum.generics td) type_args)) s
                   = (Ok ms, s1) ->
                   substitute_typevars parse_prev subst_prev
                     (UnionType (field_types ms) false)
                     (_typevar_ctx (LuaEnum.generics td) type_args) s1
                   = (Ok ty, s2) ->
                   generic_struct_type parse_prev subst_prev base type_args s
                   = (Ok (GenericEnumInstanceType name type_args td ty), s2)
             | _ => True
             end)).
Proof.
  split; [reflexivity|].
  intros base generics Hk Hlen.
  assert (Hleb : (List.length type_args <=? List.length generics)%nat = true)
    by (apply Nat.leb_le; assumption).
  assert (Hlen' : List.length type_args
                  <= List.length (generic_names generics))
    by (unfold generic_names; rewrite length_map; assumption).
  pose proof (renders_declaration_true type_args (generic_names generics))
    as Htrue.
  destruct (renders_declaration_arity _ _ Hlen') as [b Hb].
  split.
  - intros Heq.
    assert (b = true) as ->.
    { destruct b; [reflexivity|].
      assert (Ht : renders_declaration type_args (generic_names generics)
                   = Ok true) by (apply Htrue; split; assumption).
      rewrite Hb in Ht. discriminate Ht. }
    destruct base; try discriminate; simpl in Hk; inversion Hk; subst;
      unfold generic_struct_type, bind, lift; rewrite Hb; reflexivity.
  - intros Hneq.
    assert (b = false) as ->.
    { destruct b; [|reflexivity].
      exfalso. apply Hneq. apply Htrue in Hb as [_ Hb]. exact Hb. }
    destruct base; try exact I; simpl in Hk; inversion Hk; subst.
    + unfold generic_struct_type, bind, lift. rewrite Hb.
      unfold mk_GenericClassInstanceType, bind. rewrite Hleb. reflexivity.
    + intros ty s1 ty' s2 Hp Hs.
      unfold generic_struct_type, bind, lift. rewrite Hb.
      unfold mk_GenericAliasInstanceType, bind. rewrite Hp, Hleb. simpl.
      rewrite Hs. reflexivity.
    + intros ms s1 ty s2 Hm Hs.
      unfold generic_struct_type, bind, lift. rewrite Hb.
      unfold mk_GenericEnumInstanceType, bind. rewrite Hm, Hleb.
      unfold assert, ret. cbv beta iota. rewrite Hs. reflexivity.
Qed.

(** [Foo<T>] renders the declaration of [Foo]; [Foo<string>] instantiates
    it. *)
Lemma generic_struct_type_cases_witness :
  generic_struct_type no_parse no_subst (ClassType "Foo" Foo) [StructType "T"] 0
  = (Ok (ClassType "Foo" Foo), 0)
  /\ generic_struct_type no_parse no_subst (ClassType "Foo" Foo) [StringType] 0
     = (Ok (GenericClassInstanceType "Foo" [StringType] Foo), 0).
Proof.
  pose proof (proj2 (generic_struct_type_cases no_parse no_subst
                       [StructType "T"] 0) (ClassType "Foo" Foo) _ eq_refl)
    as H1.
  pose proof (proj2 (generic_struct_type_cases no_parse no_subst
                       [StringType] 0) (ClassType "Foo" Foo) _ eq_refl)
    as H2.
  split.
  - apply H1; [simpl; lia | reflexivity].
  - apply H2; [simpl; lia | discriminate].
Defined.

(** C3 as stated fails: in [Foo<string,number>] an argument differs from the
    generic at its position, yet no generic instance is built. *)
Lemma generic_struct_type_counterexample :
  known_generics (ClassType "Foo" Foo) = Some (Class.generics Foo)
  /\ [StringType; NumberType] <> typevar_args 2 (Class.generics Foo)
  /\ run (parse [("Foo", TClass Foo)] 1 "Foo<string,number>") 0
     = Raise AssertionError
  /\ ~ (exists g s',
          generic_struct_type no_parse no_subst (ClassType "Foo" Foo)
            [StringType; NumberType] 0 = (Ok g, s')).
Proof.
  split; [reflexivity|].
  split; [discriminate|].
  split; [vm_compute; reflexivity|].
  intros (g & s' & H). vm_compute in H. discriminate H.
Qed.

(** ** C4: members whose type fails to parse *)

(** C4 at its failing input.  [DocumentedField.from_member] calls the parser
    without a guard: a class with one malformed field has no member set at
    all, and an enum with one cannot even be resolved ([__post_init__] reads
    its fields).  [DocumentedFunction.from_member] has the guard: the
    malformed parameter type becomes [UnknownType] and the other members are
    resolved. *)
Theorem field_parse_failure_aborts :
  run (parse catalog_K 2 "'foo'") 0 = Raise ParseError
  /\ run (parse catalog_K 2 "K") 0 = Ok (ClassType "K" K)
  /\ run (members_at catalog_K 2 (ClassType "K" K)) 0 = Raise ParseError
  /\ run (parse catalog_K 2 "E") 0 = Raise ParseError
  /\ run (members_at catalog_K 2 (ClassType "KF" KF)) 0
     = Ok [("ok", DocumentedField IntegerType good_field);
           ("f", DocumentedFunction [(Some "a", Some UnknownType)]
                   (RetsTuple []) bad_fn None)].
Proof. repeat split; vm_compute; reflexivity. Qed.

(** ** Dictionaries *)

Section DictFacts.
Variable V : Type.
Implicit Types (d items : list (string * V)) (k : string) (v : V).

Lemma dict_get_set d k v k' :
dict_get (dict_set d k v) k'
= if String.eqb k k' then Some v else dict_get d k'.
Proof.
induction d as [|[k0 v0] d IH]; simpl.
- reflexivity.
- destruct (String.eqb k0 k) eqn:E0; simpl.
  + apply String.eqb_eq in E0; subst k0.
    destruct (String.eqb k k'); reflexivity.
  + rewrite IH. destruct (String.eqb k0 k') eqn:E1; [|reflexivity].
    apply String.eqb_eq in E1; subst k0. now rewrite String.eqb_sym, E0.
Qed.

Lemma dict_get_app d1 d2 k :
dict_get (d1 ++ d2)%list k
= match dict_get d1 k with Some v => Some v | None => dict_get d2 k end.
Proof.
induction d1 as [|[k0 v0] d1 IH]; simpl; [reflexivity|].
destruct (String.eqb k0 k); auto.
Qed.

Lemma dict_get_update d items k :
dict_get (dict_update d items) k
= match lookup_last items k with Some v => Some v | None => dict_get d k end.
Proof.
unfold dict_update, lookup_last. revert d.
induction items as [|[k0 v0] items IH]; intros d; simpl; [reflexivity|].
rewrite IH, dict_get_app, dict_get_set. simpl.
destruct (dict_get (rev items) k); [reflexivity|].
destruct (String.eqb k0 k); reflexivity.
Qed.

Lemma dict_get_notin d k : ~ In k (map fst d) -> dict_get d k = None.
Proof.
induction d as [|[k0 v0] d IH]; simpl; intros H; [reflexivity|].
destruct (String.eqb k0 k) eqn:E.
- apply String.eqb_eq in E. tauto.
- apply IH. tauto.
Qed.

Lemma dict_set_new d k v :
~ In k (map fst d) -> dict_set d k v = (d ++ [(k, v)])%list.
Proof.
induction d as [|[k0 v0] d IH]; simpl; intros H; [reflexivity|].
destruct (String.eqb k0 k) eqn:E.
- apply String.eqb_eq in E. tauto.
- rewrite IH by tauto. reflexivity.
Qed.

Lemma dict_update_new d items :
NoDup (map fst (d ++ items)%list) -> dict_update d items = (d ++ items)%list.
Proof.
unfold dict_update. revert d.
induction items as [|[k0 v0] items IH]; intros d H; simpl.
- now rewrite app_nil_r.
- assert (Hd : ~ In k0 (map fst d)).
  { rewrite map_app in H. simpl in H. apply NoDup_remove_2 in H.
    intros Hin. apply H. apply in_or_app. now left. }
  rewrite dict_set_new by assumption.
  rewrite IH; rewrite <- app_assoc; simpl; [reflexivity | assumption].
Qed.

Lemma dict_of_items_NoDup items :
NoDup (map fst items) -> dict_of_items items = items.
Proof. intros H. unfold dict_of_items. now rewrite dict_update_new. Qed.

Lemma dict_set_keys d k v :
NoDup (map fst d) -> NoDup (map fst (dict_set d k v)).
Proof.
induction d as [|[k0 v0] d IH]; simpl; intros H.
- constructor; [tauto | constructor].
- destruct (String.eqb k0 k) eqn:E; simpl; [assumption|].
  inversion H as [|? ? Hnotin Hnd]; subst.
  constructor; [|auto].
  intros Hin. apply Hnotin.
  assert (Hkeys : forall x, In x (map fst (dict_set d k v)) ->
                            x = k \/ In x (map fst d)).
  { clear. induction d as [|[k1 v1] d IHd]; simpl; intros x Hx.
    - destruct Hx as [<-|[]]; auto.
    - destruct (String.eqb k1 k); simpl in Hx; destruct Hx as [<-|Hx]; auto.
      apply IHd in Hx. tauto. }
  apply Hkeys in Hin as [->|Hin]; [|assumption].
  rewrite String.eqb_refl in E. discriminate.
Qed.

Lemma dict_update_keys d items :
NoDup (map fst d) -> NoDup (map fst (dict_update d items)).
Proof.
unfold dict_update. revert d.
induction items as [|[k0 v0] items IH]; intros d H; simpl; [assumption|].
apply IH. now apply dict_set_keys.
Qed.
End DictFacts.

(** ** Sequences of computations *)

Lemma mapM_inv {A B} (f : A -> M B) (l : list A) s ys s' :
  mapM f l s = (Ok ys, s') ->
  Forall2 (fun x y => exists sa sb, f x sa = (Ok y, sb)) l ys.
Proof.
  revert s ys.
  induction l as [|x l IH]; intros s ys H; simpl in H.
  - inversion H; subst. constructor.
  - apply bind_inv in H as (y & s1 & Hy & H).
    apply bind_inv in H as (ys' & s2 & Hys & H).
    inversion H; subst. constructor; eauto.
Qed.

(** ** The members of an enum that declares fields only *)

Lemma mapM_length {A B} (f : A -> M B) (l : list A) s ys s' :
  mapM f l s = (Ok ys, s') -> List.length ys = List.length l.
Proof.
  intros H. apply mapM_inv in H.
  induction H; simpl; congruence.
Qed.




(** ** C2: the members of a class *)

Lemma lookup_last_map {V W : Type} (g : V -> W) (l : list (string * V)) k :
  lookup_last (map (fun kv => (fst kv, g (snd kv))) l) k
  = option_map g (lookup_last l k).
Proof.
  unfold lookup_last. rewrite <- map_rev.
  induction (rev l) as [|[k0 v0] r IH]; simpl; [reflexivity|].
  destruct (String.eqb k0 k); auto.
Qed.

Lemma inherit_loop_spec (members_prev : ResolvedType -> M (dict Documented))
    (guard : bool) (rev_bases : list ResolvedType) (attrs : dict Attr)
    (s : nat) (ds : list (dict Documented)) (s' : nat) :
  mapM (base_members guard members_prev) rev_bases s = (Ok ds, s') ->
  inherit_loop members_prev guard rev_bases attrs s
  = (Ok (fold_left
           (fun a d =>
              dict_update a (map (fun kv => (fst kv, Inherited (snd kv))) d))
           ds attrs), s').
Proof.
  revert attrs s ds.
  induction rev_bases as [|b rest IH]; intros attrs s ds H; simpl in H.
  - inversion H; subst. reflexivity.
  - apply bind_inv in H as (d & s1 & Hd & H).
    apply bind_inv in H as (ds' & s2 & Hds & H).
    inversion H; subst. simpl.
    unfold base_members in Hd. destruct guard.
    + unfold catch_attr in Hd.
      destruct (members_prev b s) as [[d0|e] s0] eqn:Hb.
      * inversion Hd; subst.
        unfold bind at 1, catch_attr, bind at 1. rewrite Hb.
        unfold ret at 1. cbv beta iota. apply IH; assumption.
      * destruct e; try discriminate Hd.
        unfold ret in Hd. inversion Hd; subst.
        unfold bind at 1, catch_attr, bind at 1. rewrite Hb.
        unfold ret at 1. cbv beta iota. apply IH; assumption.
    + unfold bind at 1, bind at 1. rewrite Hd.
      unfold ret at 1. cbv beta iota. apply IH; assumption.
Qed.

Lemma inherited_fold (ds : list (dict Documented)) (attrs : dict Attr) k :
  dict_get
    (fold_left
       (fun a d =>
          dict_update a (map (fun kv => (fst kv, Inherited (snd kv))) d))
       (rev ds) attrs) k
  = match inherited ds k with
    | Some v => Some (Inherited v)
    | None => dict_get attrs k
    end.
Proof.
  induction ds as [|d ds IH]; simpl; [reflexivity|].
  rewrite fold_left_app. simpl.
  rewrite dict_get_update, lookup_last_map.
  destruct (lookup_last d k); simpl; [reflexivity | apply IH].
Qed.

Lemma class_attrs_get (ds : list (dict Documented))
    (own : list (string * Member)) k :
  dict_get (class_attrs ds own) k
  = match lookup_last own k with
    | Some m => Some (Raw m)
    | None => option_map Inherited (inherited ds k)
    end.
Proof.
  unfold class_attrs.
  rewrite dict_get_update, lookup_last_map, inherited_fold.
  destruct (lookup_last own k); simpl; [reflexivity|].
  destruct (inherited ds k); reflexivity.
Qed.

Lemma class_attrs_keys (ds : list (dict Documented))
    (own : list (string * Member)) :
  NoDup (map fst (class_attrs ds own)).
Proof.
  unfold class_attrs. apply dict_update_keys.
  generalize (rev ds) as l.
  assert (H : NoDup (map fst (@nil (string * Attr)))) by constructor.
  revert H. generalize (@nil (string * Attr)) as a.
  intros a H l. revert a H.
  induction l as [|d l IH]; intros a H; simpl; [assumption|].
  apply IH. now apply dict_update_keys.
Qed.

Lemma hydrate_attrs_get (parse_prev : string -> M ResolvedType)
    (subst_prev : ResolvedType -> Typevars -> M ResolvedType)
    (attrs : dict Attr) (ctx : option Typevars) (s : nat)
    (R : dict Documented) (s' : nat) :
  NoDup (map fst attrs) ->
  hydrate_attrs parse_prev subst_prev attrs ctx s = (Ok R, s') ->
  forall k,
    match dict_get attrs k with
    | None => dict_get R k = None
    | Some (Inherited d) => dict_get R k = Some d
    | Some (Raw m) =>
        exists d sa sb,
          from_member parse_prev subst_prev m ctx sa = (Ok d, sb)
          /\ dict_get R k = Some d
    end.
Proof.
  intros Hnd H k. unfold hydrate_attrs in H.
  apply bind_inv in H as (items & s1 & Hm & H).
  inversion H; subst; clear H.
  apply mapM_inv in Hm.
  assert (Hrel : Forall2
            (fun kv it =>
               fst it = fst kv
               /\ match snd kv with
                  | Raw m => exists sa sb,
                      from_member parse_prev subst_prev m ctx sa
                      = (Ok (snd it), sb)
                  | Inherited d => snd it = d
                  end) attrs items).
  { eapply Forall2_impl; [|exact Hm].
    intros [k0 a] it (sa & sb & Hf); simpl in *. destruct a.
    - apply bind_inv in Hf as (d & s2 & Hd & Hr).
      inversion Hr; subst. simpl. eauto.
    - inversion Hf; subst. simpl. auto. }
  assert (Hkeys : map fst items = map fst attrs).
  { clear - Hrel. induction Hrel as [|kv it ? ? [Hk _] _ IH]; simpl;
      [reflexivity | now rewrite Hk, IH]. }
  rewrite dict_of_items_NoDup by (rewrite Hkeys; assumption).
  clear - Hrel.
  induction Hrel as [|[k0 a] [k1 d1] ? ? [Hk Ha] _ IH]; simpl.
  - reflexivity.
  - simpl in Hk, Ha. subst k1.
    destruct (String.eqb k0 k); [|exact IH].
    destruct a; [|now subst].
    destruct Ha as (sa & sb & Ha). eauto.
Qed.

(** The two loops and the final comprehension shared by
    [ClassType.members] and [GenericClassInstanceType.members]. *)
Lemma overlay_core (parse_prev : string -> M ResolvedType)
    (subst_prev : ResolvedType -> Typevars -> M ResolvedType)
    (members_prev : ResolvedType -> M (dict Documented))
    (guard : bool) (ctx : option Typevars) (rev_bases : list ResolvedType)
    (own : list (string * Member)) (ds : list (dict Documented))
    (R : dict Documented) (s1 s2 s3 : nat) :
  mapM (base_members guard members_prev) rev_bases s1 = (Ok (rev ds), s2) ->
  hydrate_attrs parse_prev subst_prev (class_attrs ds own) ctx s2 = (Ok R, s3) ->
  (attrs <- inherit_loop members_prev guard rev_bases [] ;;
   hydrate_attrs parse_prev subst_prev
     (dict_update attrs (map (fun kv => (fst kv, Raw (snd kv))) own)) ctx) s1
  = (Ok R, s3)
  /\ forall k,
      match lookup_last own k with
      | Some m =>
          exists d sa sb,
            from_member parse_prev subst_prev m ctx sa = (Ok d, sb)
            /\ dict_get R k = Some d
      | None => dict_get R k = inherited ds k
      end.
Proof.
  intros Hb Hh. split.
  - erewrite bind_Ok; [| apply inherit_loop_spec; exact Hb]. exact Hh.
  - intros k.
    pose proof (@hydrate_attrs_get _ _ _ _ _ _ _ (class_attrs_keys ds own)
                  Hh k) as Hk.
    rewrite class_attrs_get in Hk.
    destruct (lookup_last own k); [exact Hk|].
    destruct (inherited ds k); exact Hk.
Qed.

(** C2 (as amended).  The member mapping of a class is computed from the
    member mappings [ds] of its declared bases (in declaration order) and its
    own declared members: a name the class declares maps to the hydration of
    the class's own member, and any other name maps to the member of the
    first declared base that has it ([inherited]): the loop runs over the
    bases in reverse, so an earlier base overrides a later one.  The same
    holds for a generic class instance, whose bases and own members are
    resolved in the context of its type arguments. *)
Theorem class_members_overlay (parse_prev : string -> M ResolvedType)
    (subst_prev : ResolvedType -> Typevars -> M ResolvedType)
    (members_prev : ResolvedType -> M (dict Documented))
    (typedef : Class.t) (bases : list ResolvedType)
    (ds : list (dict Documented)) (R : dict Documented) (s s1 s2 s3 : nat) :
  (mapM parse_prev (Class.bases typedef) s = (Ok bases, s1) ->
   mapM (base_members true members_prev) (rev bases) s1 = (Ok (rev ds), s2) ->
   hydrate_attrs parse_prev subst_prev
     (class_attrs ds (Class.members typedef)) None s2 = (Ok R, s3) ->
   ClassType_members parse_prev subst_prev members_prev typedef s = (Ok R, s3)
   /\ forall k,
       match lookup_last (Class.members typedef) k with
       | Some m =>
           exists d sa sb,
             from_member parse_prev subst_prev m None sa = (Ok d, sb)
             /\ dict_get R k = Some d
       | None => dict_get R k = inherited ds k
       end)
  /\ (forall type_args,
         let ctx := _typevar_ctx (Class.generics typedef) type_args in
         mapM (fun b => t <- parse_prev b ;;
                        substitute_typevars parse_prev subst_prev t ctx)
           (Class.bases typedef) s = (Ok bases, s1) ->
         mapM (base_members false members_prev) (rev bases) s1
         = (Ok (rev ds), s2) ->
         hydrate_attrs parse_prev subst_prev
           (class_attrs ds (Class.members typedef)) (Some ctx) s2 = (Ok R, s3) ->
         GenericClassInstanceType_members parse_prev subst_prev members_prev
           type_args typedef s = (Ok R, s3)
         /\ forall k,
             match lookup_last (Class.members typedef) k with
             | Some m =>
                 exists d sa sb,
                   from_member parse_prev subst_prev m (Some ctx) sa = (Ok d, sb)
                   /\ dict_get R k = Some d
             | None => dict_get R k = inherited ds k
             end).
Proof.
  split.
  - intros Hp Hb Hh.
    destruct (@overlay_core parse_prev subst_prev members_prev true None
                (rev bases) (Class.members typedef) ds R s1 s2 s3 Hb Hh)
      as [Hrun Hget].
    split; [|exact Hget].
    unfold ClassType_members. erewrite bind_Ok; [|exact Hp]. exact Hrun.
  - intros type_args ctx Hp Hb Hh.
    destruct (@overlay_core parse_prev subst_prev members_prev false
                (Some ctx) (rev bases) (Class.members typedef) ds R s1 s2 s3
                Hb Hh) as [Hrun Hget].
    split; [|exact Hget].
    unfold GenericClassInstanceType_members. fold ctx.
    erewrite bind_Ok; [|exact Hp]. exact Hrun.
Qed.

(** The members of [C : A, B]: [x] comes from [A], the first declared base,
    [y] from [B] and [z] from [C] itself. *)
Lemma class_members_overlay_witness :
  let pp := parse catalog_ABC 2 in
  let sp := r_substitute (resolver catalog_ABC 2) in
  let mp := members_at catalog_ABC 2 in
  let R := [("x", DocumentedField IntegerType A_x);
            ("y", DocumentedField BooleanType B_y);
            ("z", DocumentedField NumberType C_z)] in
  ClassType_members pp sp mp class_C 0 = (Ok R, 0)
  /\ dict_get R "x" = Some (DocumentedField IntegerType A_x)
  /\ (exists d sa sb,
         from_member pp sp (MField C_z) None sa = (Ok d, sb)
         /\ dict_get R "z" = Some d).
Proof.
  intros pp sp mp R.
  destruct (proj1 (@class_members_overlay pp sp mp class_C
                     [ClassType "A" class_A; ClassType "B" class_B]
                     [[("x", DocumentedField IntegerType A_x)];
                      [("x", DocumentedField StringType B_x);
                       ("y", DocumentedField BooleanType B_y)]]
                     R 0 0 0 0)
              ltac:(vm_compute; reflexivity)
              ltac:(vm_compute; reflexivity)
              ltac:(vm_compute; reflexivity)) as [Hrun Hget].
  split; [exact Hrun|].
  split; [exact (Hget "x") | exact (Hget "z")].
Defined.

(** C2 as stated fails: [x] is declared by both bases of [C : A, B], and the
    member of [C] is the one of the earlier base [A], not overridden by the
    one of the later base [B]. *)
Lemma class_members_overlay_counterexample :
  Class.bases class_C = ["A"; "B"]
  /\ run (members_at catalog_ABC 3 (ClassType "A" class_A)) 0
     = Ok [("x", DocumentedField IntegerType A_x)]
  /\ run (members_at catalog_ABC 3 (ClassType "B" class_B)) 0
     = Ok [("x", DocumentedField StringType B_x);
           ("y", DocumentedField BooleanType B_y)]
  /\ exists R,
      run (members_at catalog_ABC 3 (ClassType "C" class_C)) 0 = Ok R
      /\ dict_get R "x" = Some (DocumentedField IntegerType A_x)
      /\ dict_get R "x" <> Some (DocumentedField StringType B_x).
Proof.
  split; [reflexivity|].
  split; [vm_compute; reflexivity|].
  split; [vm_compute; reflexivity|].
  eexists. split; [vm_compute; reflexivity|].
  split; [reflexivity | discriminate].
Qed.

(* ================================================================== *)
(** * Further properties *)
(* ================================================================== *)

(** ** Equality of resolved types *)

Lemma bool_eqb_sym (a b : bool) : Bool.eqb a b = Bool.eqb b a.
Proof. destruct a, b; reflexivity. Qed.

(** [rt_eqb] with the comparisons of its element lists written with
    [forall2b]. *)
Lemma rt_eqb_eq sc x y :
  rt_eqb sc x y =
  match x, y with
  | PrimitiveType a, PrimitiveType b => String.eqb a b
  | StringType, StringType | BooleanType, BooleanType
  | NumberType, NumberType | IntegerType, IntegerType
  | UnknownType, UnknownType | NilType, NilType | AnyType, AnyType => true
  | LiteralStr a, LiteralStr b => String.eqb a b
  | LiteralInt a, LiteralInt b => Z.eqb a b
  | LiteralBool a, LiteralBool b => Bool.eqb a b
  | StructType a, StructType b => String.eqb a b
  | ClassType a _, ClassType b _ => String.eqb a b
  | AliasType a _ _, AliasType b _ _ => String.eqb a b
  | EnumType a _ _, EnumType b _ _ => String.eqb a b
  | GenericStructInstanceType a l1, GenericStructInstanceType b l2
  | GenericClassInstanceType a l1 _, GenericClassInstanceType b l2 _
  | GenericAliasInstanceType a l1 _ _, GenericAliasInstanceType b l2 _ _
  | GenericEnumInstanceType a l1 _ _, GenericEnumInstanceType b l2 _ _ =>
      String.eqb a b && forall2b (rt_eqb sc) l1 l2
  | TableType f1 o1, TableType f2 o2 =>
      forall2b (field_eqb (rt_eqb sc)) f1 f2 && Bool.eqb o1 o2
  | UnionType l1 o1, UnionType l2 o2
  | IntersectionType l1 o1, IntersectionType l2 o2 =>
      forall2b (rt_eqb sc) l1 l2 && Bool.eqb o1 o2
  | TupleType l1, TupleType l2 => forall2b (rt_eqb sc) l1 l2
  | FunctionType p1 r1, FunctionType p2 r2 =>
      forall2b (param_eqb (rt_eqb sc)) p1 p2 && option_eqb (rt_eqb sc) r1 r2
  | OptionalType c1 a, OptionalType c2 b
  | ArrayType c1 a, ArrayType c2 b
  | VariadicType c1 a, VariadicType c2 b => sc c1 c2 && rt_eqb sc a b
  | _, _ => false
  end.
Proof.
  assert (Hl : forall l1 l2,
    (fix list_eqb (l1 l2 : list ResolvedType) {struct l1} : bool :=
       match l1, l2 with
       | [], [] => true
       | a :: l1', b :: l2' => rt_eqb sc a b && list_eqb l1' l2'
       | _, _ => false
       end) l1 l2 = forall2b (rt_eqb sc) l1 l2).
  { induction l1 as [|a l1 IH]; intros [|b l2]; simpl; try reflexivity.
    now rewrite IH. }
  destruct x, y; try reflexivity; simpl; rewrite ?Hl; try reflexivity.
  - f_equal. revert _fields0.
    induction _fields as [|[k1 a] l1 IH]; intros [|[k2 b] l2]; simpl;
      try reflexivity.
    rewrite IH. unfold field_eqb; simpl. reflexivity.
  - f_equal.
    + revert params0.
      induction params as [|[n1 a] l1 IH]; intros [|[n2 b] l2]; simpl;
        try reflexivity.
      rewrite IH. unfold param_eqb; simpl. reflexivity.
Qed.

Lemma forall2b_sym {A} (f : A -> A -> bool) l1 :
  Forall (fun a => forall b, f a b = f b a) l1 ->
  forall l2, forall2b f l1 l2 = forall2b f l2 l1.
Proof.
  induction 1 as [|a l1 Ha _ IH]; intros [|b l2]; simpl; try reflexivity.
  now rewrite Ha, IH.
Qed.

Lemma rt_eqb_sym (same_class : nat -> nat -> bool) :
  (forall c d, same_class c d = same_class d c) ->
  forall x y, rt_eqb same_class x y = rt_eqb same_class y x.
Proof.
  intros Hc.
  induction x using ResolvedType_rect_nested; intros y;
    rewrite (rt_eqb_eq same_class _ y), (rt_eqb_eq same_class y);
    destruct y; try reflexivity;
    auto using String.eqb_sym, Z.eqb_sym, bool_eqb_sym, forall2b_sym.
  all: try (apply (f_equal2 andb);
            auto using String.eqb_sym, bool_eqb_sym, forall2b_sym).
  - (* table *)
    apply forall2b_sym.
    eapply Forall_impl; [|exact H]. intros [k1 a] [Hk Ha] [k2 b].
    unfold field_eqb; simpl in *. rewrite Ha. f_equal.
    destruct k1, k2; auto using String.eqb_sym.
  - (* function *)
    apply forall2b_sym.
    eapply Forall_impl; [|exact H]. intros [n1 a] Ha [n2 b].
    unfold param_eqb; simpl in *. rewrite Ha. f_equal.
    destruct n1, n2; simpl; auto using String.eqb_sym.
  - destruct rets, rets0; simpl; auto.
Qed.

Lemma forall2b_trans {A} (f : A -> A -> bool) l1 :
  Forall (fun a => forall b c, f a b = true -> f b c = true -> f a c = true) l1 ->
  forall l2 l3, forall2b f l1 l2 = true -> forall2b f l2 l3 = true ->
                forall2b f l1 l3 = true.
Proof.
  induction 1 as [|a l1 Ha _ IH]; intros [|b l2] [|c l3]; simpl;
    try discriminate; auto.
  intros [H1 H2]%andb_prop [H3 H4]%andb_prop.
  apply andb_true_intro; split; eauto.
Qed.

Lemma string_eqb_trans (a b c : string) :
  String.eqb a b = true -> String.eqb b c = true -> String.eqb a c = true.
Proof. rewrite !String.eqb_eq. congruence. Qed.

Lemma rt_eqb_trans (same_class : nat -> nat -> bool) :
  (forall c d e, same_class c d = true -> same_class d e = true ->
                 same_class c e = true) ->
  forall x y z, rt_eqb same_class x y = true -> rt_eqb same_class y z = true ->
                rt_eqb same_class x z = true.
Proof.
  intros Hc.
  induction x using ResolvedType_rect_nested; intros y z;
    rewrite (rt_eqb_eq same_class _ y), (rt_eqb_eq same_class y z),
            (rt_eqb_eq same_class _ z);
    destruct y; try discriminate; destruct z; try discriminate;
    eauto using string_eqb_trans.
  all: try (intros [H1 H2]%andb_prop [H3 H4]%andb_prop;
            apply andb_true_intro; split;
            eauto using string_eqb_trans, forall2b_trans).
  all: try (rewrite ?Z.eqb_eq, ?Bool.eqb_true_iff in *; congruence).
  - (* table *)
    revert H1 H3. apply forall2b_trans.
    eapply Forall_impl; [|exact H]. intros [k1 a] [Hk Ha] [k2 b] [k3 c].
    unfold field_eqb; simpl in *.
    intros [H5 H6]%andb_prop [H7 H8]%andb_prop.
    apply andb_true_intro; split; eauto.
    destruct k1, k2; try discriminate; destruct k3; try discriminate;
      eauto using string_eqb_trans.
  - apply forall2b_trans.
    eapply Forall_impl; [|exact H]. simpl. eauto.
  - (* function params *)
    revert H1 H3. apply forall2b_trans.
    eapply Forall_impl; [|exact H]. intros [n1 a] Ha [n2 b] [n3 c].
    unfold param_eqb; simpl in *.
    intros [H5 H6]%andb_prop [H7 H8]%andb_prop.
    apply andb_true_intro; split; eauto.
    destruct n1, n2; try discriminate; destruct n3; try discriminate; simpl in *;
      eauto using string_eqb_trans.
  - destruct rets, rets0; try discriminate; destruct rets1; try discriminate;
      simpl in *; eauto.
Qed.

Lemma rt_eqb_mono (sc1 sc2 : nat -> nat -> bool) :
  (forall c d, sc1 c d = true -> sc2 c d = true) ->
  forall x y, rt_eqb sc1 x y = true -> rt_eqb sc2 x y = true.
Proof.
  intros Hc.
  assert (Hl : forall (A : Type) (f g : A -> A -> bool) l1,
             Forall (fun a => forall b, f a b = true -> g a b = true) l1 ->
             forall l2, forall2b f l1 l2 = true -> forall2b g l1 l2 = true).
  { intros A f g l1. induction 1 as [|a l1 Ha _ IH]; intros [|b l2]; simpl;
      try discriminate; auto.
    intros [H1 H2]%andb_prop. apply andb_true_intro; split; auto. }
  induction x using ResolvedType_rect_nested; intros y;
    rewrite (rt_eqb_eq sc1 _ y), (rt_eqb_eq sc2 _ y);
    destruct y; try discriminate; auto.
  all: try (intros [H1 H2]%andb_prop; apply andb_true_intro; split; eauto).
  - (* table *)
    revert H1. apply Hl.
    eapply Forall_impl; [|exact H]. intros [k1 a] [Hk Ha] [k2 b].
    unfold field_eqb; simpl in *.
    intros [H5 H6]%andb_prop. apply andb_true_intro; split; auto.
    destruct k1, k2; auto.
  - apply Hl. eapply Forall_impl; [|exact H]. simpl. auto.
  - (* function *)
    revert H1. apply Hl.
    eapply Forall_impl; [|exact H]. intros [n1 a] Ha [n2 b].
    unfold param_eqb; simpl in *.
    intros [H5 H6]%andb_prop. apply andb_true_intro; split; auto.
  - destruct rets, rets0; simpl in *; auto.
Qed.









(** ** The stringifier *)

(** [str] with its local functions written with [map]. *)
Lemma str_eq t :
  str t =
  match t with
  | PrimitiveType name => Ok name
  | StringType => Ok "string"
  | BooleanType => Ok "boolean"
  | NumberType => Ok "number"
  | IntegerType => Ok "integer"
  | UnknownType => Ok "unknown"
  | NilType => Ok "nil"
  | AnyType => Ok "any"
  | LiteralStr value => Ok (String dquote (value ++ String dquote EmptyString))
  | LiteralInt value => Ok (str_int value)
  | LiteralBool value => Ok (if value then "true" else "false")
  | StructType name | ClassType name _ | AliasType name _ _
  | EnumType name _ _ => Ok name
  | GenericStructInstanceType name type_args
  | GenericClassInstanceType name type_args _
  | GenericAliasInstanceType name type_args _ _
  | GenericEnumInstanceType name type_args _ _ =>
      (rendered <~ sequenceR (map str type_args) ;;
       Ok (name ++ "<" ++ join "," rendered ++ ">"))%R
  | TableType _fields omitted =>
      let fields := fields_loop (map (rendered_field str) _fields) [] 1 in
      match fields with
      | [] => Ok (if omitted then "{...}" else "{}")
      | _ =>
          (names <~ sequenceR
             (flat_map (fun kv => match kv with
                                  | (FName key, (_, val)) =>
                                      [v <~ val ;; Ok (key ++ ": " ++ v)]
                                  | _ => []
                                  end) fields) ;;
           types <~ sequenceR
             (flat_map (fun kv => match kv with
                                  | (FType _, (key, val)) =>
                                      [k <~ key ;; v <~ val ;;
                                       Ok ("[" ++ k ++ "]: " ++ v)]
                                  | _ => []
                                  end) fields) ;;
           let rendered :=
             (names ++ types ++ (if omitted then ["..."%string] else []))%list in
           Ok ("{ " ++ join ", " rendered ++ " }"))%R
      end
  | UnionType elements omitted =>
      (rendered <~ sequenceR (map str elements) ;;
       Ok ("(" ++ join "|" rendered ++ (if omitted then "..." else EmptyString) ++ ")"))%R
  | IntersectionType elements omitted =>
      (rendered <~ sequenceR (map str elements) ;;
       Ok ("(" ++ join " & " rendered ++ (if omitted then "..." else EmptyString) ++ ")"))%R
  | TupleType elements =>
      (rendered <~ sequenceR (map str elements) ;;
       Ok ("(" ++ join "," rendered ++ ")"))%R
  | FunctionType params rets =>
      match sequenceR (map (rendered_param str) params) with
      | Raise RecursionError =>
          if existsb (fun p => option_eqb String.eqb (fst p) (Some "...")) params
          then Raise RuntimeError else Raise KeyError
      | Raise e => Raise e
      | Ok rendered_params =>
          let rend := "fun(" ++ join ", " rendered_params ++ ")" in
          match rets with
          | Some r => (s <~ str r ;; Ok (rend ++ " -> " ++ s))%R
          | None => Ok rend
          end
      end
  | OptionalType _ inner =>
      (s <~ str inner ;;
       Ok (if isinstance_FunctionType inner then "(" ++ s ++ ")?" else s ++ "?"))%R
  | VariadicType _ element_type =>
      (s <~ str element_type ;;
       Ok (if isinstance_FunctionType element_type
           then "(" ++ s ++ ") ..." else s ++ " ..."))%R
  | ArrayType _ element_type =>
      match method_class t with
      | Some WOptional => Raise RecursionError
      | Some WVariadic =>
          (s <~ str element_type ;;
           Ok (if isinstance_FunctionType element_type
               then "(" ++ s ++ ") ..." else s ++ " ..."))%R
      | _ =>
          (parens <~ (if isinstance_FunctionType element_type
                      then r <~ getattr_rets element_type ;;
                           Ok (match r with Some _ => true | None => false end)
                      else Ok false) ;;
           s <~ str element_type ;;
           Ok (if parens then "(" ++ s ++ ")[]" else s ++ "[]"))%R
      end
  end.
Proof.
  assert (Hl : forall l,
    (fix strs (l : list ResolvedType) : list (Res string) :=
       match l with
       | [] => []
       | x :: l' => str x :: strs l'
       end) l = map str l).
  { induction l as [|a l IH]; simpl; [reflexivity | now rewrite IH]. }
  destruct t; try reflexivity; simpl; rewrite ?Hl; try reflexivity.
  - (* table *)
    match goal with
    | |- context [fields_loop ?a [] 1] =>
        replace a with (map (rendered_field str) _fields)
    end; [reflexivity|].
    induction _fields as [|[k v] l IH]; simpl; [reflexivity|].
    now rewrite IH.
  - (* function *)
    match goal with
    | |- context [sequenceR ?a] =>
        replace a with (map (rendered_param str) params)
    end; [reflexivity|].
    induction params as [|[n v] l IH]; simpl; [reflexivity|].
    now rewrite IH.
Qed.

Lemma lookups_terminate_eq t :
  lookups_terminate t =
  match t with
  | AliasType _ _ typ | EnumType _ _ typ => lookups_terminate typ
  | GenericStructInstanceType _ a | GenericClassInstanceType _ a _ =>
      forallb lookups_terminate a
  | GenericAliasInstanceType _ a _ typ | GenericEnumInstanceType _ a _ typ =>
      forallb lookups_terminate a && lookups_terminate typ
  | TableType f _ =>
      forallb (fun kv => match fst kv with
                         | KType kt => lookups_terminate kt
                         | _ => true
                         end && lookups_terminate (snd kv)) f
  | UnionType es _ | IntersectionType es _ | TupleType es =>
      forallb lookups_terminate es
  | FunctionType ps r =>
      forallb (fun p => lookups_terminate (snd p)) ps
      && match r with Some x => lookups_terminate x | None => true end
  | OptionalType _ x | VariadicType _ x => lookups_terminate x
  | ArrayType _ x => negb (lookup_diverges t) && lookups_terminate x
  | _ => true
  end.
Proof.
  assert (Hl : forall l,
    (fix all (l : list ResolvedType) : bool :=
       match l with
       | [] => true
       | x :: l' => lookups_terminate x && all l'
       end) l = forallb lookups_terminate l).
  { induction l as [|a l IH]; simpl; [reflexivity | now rewrite IH]. }
  destruct t; try reflexivity; simpl; rewrite ?Hl; try reflexivity.
  - induction _fields as [|[k v] l IH]; simpl; [reflexivity|].
    now rewrite IH.
  - f_equal. induction params as [|[n v] l IH]; simpl; [reflexivity|].
    now rewrite IH.
Qed.

Lemma sequenceR_Ok {A} (l : list (Res A)) :
  Forall (fun r => exists a, r = Ok a) l -> exists xs, sequenceR l = Ok xs.
Proof.
  induction 1 as [|r l [a ->] _ [xs IH]]; simpl; [eauto|].
  rewrite IH. simpl. eauto.
Qed.

Lemma fields_set_values {V} (Q : V -> Prop) d k (v : V) :
  Forall (fun kv => Q (snd kv)) d -> Q v ->
  Forall (fun kv => Q (snd kv)) (fields_set d k v).
Proof.
  intros Hd Hv. induction Hd as [|[k0 v0] d Hk Hd IH]; simpl.
  - repeat constructor; assumption.
  - destruct (FieldKey_eqb k0 k); constructor; auto.
Qed.

Lemma fields_loop_values {V} (Q : V -> Prop) fs :
  Forall (fun kv => Q (snd kv)) fs ->
  forall d n, Forall (fun kv : FieldKey * V => Q (snd kv)) d ->
  Forall (fun kv => Q (snd kv)) (fields_loop fs d n).
Proof.
  induction 1 as [|[k v] fs Hv _ IH]; intros d n Hd; simpl; [assumption|].
  destruct k; apply IH; apply fields_set_values; assumption.
Qed.

Lemma getattr_element_type_variadic t :
  isinstance_VariadicType t = true -> exists e, getattr_element_type t = Ok e.
Proof.
  induction t using ResolvedType_rect_nested; simpl; try discriminate; eauto.
Qed.

Lemma getattr_rets_function t :
  lookups_terminate t = true -> isinstance_FunctionType t = true ->
  exists r, getattr_rets t = Ok r.
Proof.
  induction t using ResolvedType_rect_nested; intros Hl Hf;
    try discriminate Hf; try (simpl; eauto; fail).
  rewrite lookups_terminate_eq in Hl. apply andb_prop in Hl as [Hd Hl].
  apply negb_true_iff in Hd.
  change (getattr_rets (ArrayType c t))
    with (if lookup_diverges (ArrayType c t) then Raise RecursionError
          else getattr_rets t).
  rewrite Hd. auto.
Qed.

(** X4.  [__str__] returns a text for every value in which no array takes
    the methods of [OptionalType]: on such values the stringifier raises
    nothing, whatever the nesting of tables, functions and wrappers. *)
Theorem str_total (t : ResolvedType) :
  lookups_terminate t = true -> exists s, str t = Ok s.
Proof.
  induction t using ResolvedType_rect_nested; intros Hl;
    rewrite str_eq; rewrite lookups_terminate_eq in Hl; eauto.
  all: try (match goal with
            | H : Forall _ ?l |- context [sequenceR (map str ?l)] =>
                let xs := fresh "xs" in let Hxs := fresh "Hxs" in
                assert (exists xs, sequenceR (map str l) = Ok xs) as [xs Hxs];
                [ apply sequenceR_Ok, Forall_map;
                  rewrite ?andb_true_iff in Hl;
                  repeat match goal with H : _ /\ _ |- _ => destruct H end;
                  match goal with
                  | Hall : forallb _ l = true |- _ =>
                      rewrite forallb_forall in Hall; rewrite Forall_forall in *;
                      intros x Hx; apply H; auto
                  end
                | rewrite Hxs; simpl; eauto ]
            end).
  - (* table *)
    set (fs := fields_loop (map (rendered_field str) fields) [] 1).
    assert (Hfs : Forall (fun kv : FieldKey * (Res string * Res string) =>
                    (exists a, fst (snd kv) = Ok a)
                    /\ (exists b, snd (snd kv) = Ok b)) fs).
    { apply (@fields_loop_values _
               (fun v => (exists a, fst v = Ok a) /\ (exists b, snd v = Ok b)));
        [|constructor].
      apply Forall_map. rewrite forallb_forall in Hl. rewrite Forall_forall in *.
      intros [k v] Hin. specialize (H _ Hin) as [Hk Hv].
      specialize (Hl _ Hin). simpl in *. apply andb_prop in Hl as [Hlk Hlv].
      split; [destruct k; simpl in *; eauto | auto]. }
    simpl. destruct fs as [|f fs']; [eauto|].
    set (fs := f :: fs') in *. clearbody fs.
    match goal with
    | |- context [sequenceR ?a] =>
        assert (exists xs, sequenceR a = Ok xs) as [names ->]
    end.
    { apply sequenceR_Ok. clear -Hfs.
      induction Hfs as [|[[n|kt|i] [rk rv]] fs [[a Ha] [b Hb]] _ IH]; simpl in *;
        auto. constructor; [|assumption]. subst. simpl. eauto. }
    simpl.
    match goal with
    | |- context [sequenceR ?a] =>
        assert (exists xs, sequenceR a = Ok xs) as [types ->]
    end.
    { apply sequenceR_Ok. clear -Hfs.
      induction Hfs as [|[[n|kt|i] [rk rv]] fs [[a Ha] [b Hb]] _ IH]; simpl in *;
        auto. constructor; [|assumption]. subst. simpl. eauto. }
    simpl. eauto.
  - (* function *)
    apply andb_prop in Hl as [Hps Hr].
    assert (exists xs, sequenceR (map (rendered_param str) params) = Ok xs)
      as [xs ->].
    { apply sequenceR_Ok, Forall_map.
      rewrite forallb_forall in Hps. rewrite Forall_forall in *.
      intros [n x] Hin. specialize (H _ Hin (Hps _ Hin)).
      destruct H as [sx Hsx]. unfold rendered_param. simpl in *.
      destruct (isinstance_VariadicType x) eqn:Hv.
      - destruct (getattr_element_type_variadic _ Hv) as [e ->]. simpl.
        destruct (isinstance_AnyType e); [eauto|]. rewrite Hsx. simpl. eauto.
      - simpl. rewrite Hsx. simpl. eauto. }
    destruct rets as [r|]; [|eauto].
    destruct (H0 Hr) as [s ->]. simpl. eauto.
  - (* optional *)
    destruct (IHt Hl) as [s ->]. simpl. eauto.
  - (* array *)
    apply andb_prop in Hl as [Hd Hl]. apply negb_true_iff in Hd.
    destruct (IHt Hl) as [s Hs].
    unfold lookup_diverges in Hd.
    destruct (method_class (ArrayType c t)) as [[| |]|] eqn:Hm;
      try discriminate Hd; rewrite Hs; simpl; eauto.
    all: destruct (isinstance_FunctionType t) eqn:Hf; simpl; eauto;
      destruct (getattr_rets_function _ Hl Hf) as [r ->]; simpl; eauto.
  - (* variadic *)
    destruct (IHt Hl) as [s ->]. simpl. eauto.
Qed.

Lemma str_total_witness :
  exists s, str (ArrayType 1 (OptionalType 0 IntegerType)) = Ok s.
Proof. apply str_total. reflexivity. Defined.

(** ** Unions *)

Lemma normal_direct x : normal_union_item x = true -> direct_union_item x = true.
Proof.
  unfold normal_union_item, union_element.
  destruct x; simpl; auto. intros [H _]%andb_prop. exact H.
Qed.

Lemma hoisted_union_normal items :
  forallb normal_union_item items = true ->
  forallb union_element (hoisted_union items) = true.
Proof.
  induction items as [|x items IH]; simpl; [reflexivity|].
  intros [Hx H]%andb_prop. unfold hoisted_union in *. simpl.
  rewrite forallb_app, IH by assumption. rewrite andb_true_r.
  destruct x; simpl in *; rewrite ?andb_true_r; auto.
Qed.

(** X5.  [union_type] keeps unions normalised.  When the elements of the
    nested unions and the contents of the optional items are instances
    neither of [UnionType] nor of [OptionalType], so are the elements of the
    union that is built; the result is that union, wrapped in one
    [OptionalType] exactly when some item is an optional. *)
Theorem union_type_normal_form (items : list ResolvedType) (omitted : bool)
    (s : nat) :
  List.length items <> 1 ->
  forallb normal_union_item items = true ->
  exists r s' es,
    union_type items omitted s = (Ok r, s')
    /\ union_elements_of r = Some es
    /\ forallb union_element es = true
    /\ isinstance_OptionalType r = existsb is_OptionalType items.
Proof.
  intros Hlen Hn.
  assert (Hd : forallb direct_union_item items = true).
  { rewrite forallb_forall in *. auto using normal_direct. }
  pose proof (hoisted_union_normal _ Hn) as Hh.
  unfold union_type.
  destruct items as [|x [|y items]]; [| contradiction Hlen; reflexivity |].
  - simpl. do 3 eexists. repeat split.
  - unfold bind, lift. rewrite union_loop_direct by assumption.
    destruct (existsb is_OptionalType (x :: y :: items)) eqn:Ho.
    + rewrite orb_true_r. unfold mk_OptionalType. simpl.
      do 3 eexists. repeat split. exact Hh.
    + rewrite orb_false_r. do 3 eexists. repeat split. exact Hh.
Qed.

Lemma union_type_normal_form_witness :
  exists r s' es,
    union_type [OptionalType 0 StringType;
                UnionType [NumberType; BooleanType] false] false 1 = (Ok r, s')
    /\ union_elements_of r = Some es
    /\ forallb union_element es = true
    /\ isinstance_OptionalType r = true.
Proof.
  apply (@union_type_normal_form
           [OptionalType 0 StringType; UnionType [NumberType; BooleanType] false]
           false 1); [discriminate | reflexivity].
Defined.

(** ** Qualified names *)

Lemma span_all p w rest :
  string_forallb p w = true ->
  match rest with String c _ => p c = false | EmptyString => True end ->
  span p (w ++ rest) = (w, rest).
Proof.
  intros Hw Hr. induction w as [|c w IH]; simpl in *.
  - destruct rest as [|c r]; [reflexivity|]. simpl. now rewrite Hr.
  - apply andb_prop in Hw as [Hc Hw]. rewrite Hc, IH by assumption. reflexivity.
Qed.

Lemma cname_start_char c :
  is_cname_start c = true ->
  is_ws c = false /\ is_cname_char c = true /\ Ascii.eqb c "."%char = false.
Proof.
  destruct c as [[] [] [] [] [] [] [] []]; vm_compute; intros H;
    try discriminate H; repeat split.
Qed.

Lemma lex_fuel_word n w rest :
  is_cname w = true ->
  match rest with String c _ => is_cname_char c = false | EmptyString => True end ->
  lex_fuel (S n) (w ++ rest) = TWord w :: lex_fuel n rest.
Proof.
  intros Hw Hr. destruct w as [|c w]; [discriminate|].
  simpl in Hw. apply andb_prop in Hw as [Hc Hw].
  destruct (cname_start_char _ Hc) as (Hws & Hch & _).
  cbn [lex_fuel append].
  rewrite Hws, Hc.
  change (String c (w ++ rest)) with (String c w ++ rest).
  rewrite span_all; [reflexivity | simpl; now rewrite Hch, Hw | assumption].
Qed.

Lemma lex_fuel_dot n c r :
  is_cname_start c = true ->
  lex_fuel (S n) (String "."%char (String c r)) = TDot :: lex_fuel n (String c r).
Proof.
  intros Hc.
  destruct c as [[] [] [] [] [] [] [] []]; vm_compute in Hc;
    try discriminate Hc; reflexivity.
Qed.

Lemma string_app_nil_r (s : string) : s ++ EmptyString = s.
Proof. induction s; simpl; congruence. Qed.

Lemma string_app_assoc (a b c : string) : (a ++ b) ++ c = a ++ (b ++ c).
Proof. induction a; simpl; congruence. Qed.

Lemma string_length_app (a b : string) :
  String.length (a ++ b) = String.length a + String.length b.
Proof. induction a; simpl; congruence. Qed.

Lemma is_cname_nonempty w : is_cname w = true -> 0 < String.length w.
Proof. destruct w; [discriminate|simpl; lia]. Qed.

(** The text of a qualified name lexes into its words separated by [.]. *)
Lemma lex_fuel_qualified ws : forall w n,
  is_cname w = true -> forallb is_cname ws = true ->
  String.length (String.concat "." (w :: ws)) < n ->
  lex_fuel n (String.concat "." (w :: ws))
  = TWord w :: flat_map (fun w' => [TDot; TWord w']) ws.
Proof.
  induction ws as [|w' ws IH]; intros w n Hw Hws Hn.
  - simpl in *. destruct n as [|[|n]]; [lia| |].
    + apply is_cname_nonempty in Hw. lia.
    + rewrite <- (string_app_nil_r w) at 1.
      rewrite lex_fuel_word; [reflexivity | assumption | exact I].
  - simpl in Hws. apply andb_prop in Hws as [Hw' Hws].
    change (String.concat "." (w :: w' :: ws))
      with (w ++ String "."%char (String.concat "." (w' :: ws))) in *.
    assert (Hc : exists c r, String.concat "." (w' :: ws) = String c r
                             /\ is_cname_start c = true).
    { destruct w' as [|c r]; [discriminate|].
      simpl in Hw'. apply andb_prop in Hw' as [Hc _].
      destruct ws; simpl; eauto. }
    specialize (IH w').
    remember (String.concat "." (w' :: ws)) as q eqn:Hq.
    rewrite string_length_app in Hn. cbn [String.length] in Hn.
    pose proof (is_cname_nonempty _ Hw) as Hlen.
    destruct n as [|[|n]]; [lia|lia|].
    rewrite lex_fuel_word; [| assumption | reflexivity].
    destruct Hc as (c & r & Heq & Hc).
    rewrite Heq, lex_fuel_dot by assumption. rewrite <- Heq.
    rewrite IH; [reflexivity | assumption | assumption | lia].
Qed.

Lemma lex_qualified w ws :
  is_cname w = true -> forallb is_cname ws = true ->
  lex (String.concat "." (w :: ws))
  = TWord w :: flat_map (fun w' => [TDot; TWord w']) ws.
Proof. intros Hw Hws. apply lex_fuel_qualified; auto. Qed.

Lemma parse_tokens_word idx pp sp n w ts' :
  String.eqb w "multi" = false ->
  parse_tokens idx pp sp (S n) true (TWord w :: ts')
  = ('(p, ts1) <- ('(b, ts1) <- basic_type idx pp sp (parse_tokens idx pp sp n true)
                                  (parse_tokens idx pp sp n false) n
                                  (TWord w :: ts') ;;
                   suffixes ts1 b) ;;
     match ts1 with
     | TDots :: ts2 => v <- variadic_type p ;; ret (v, ts2)
     | _ => ret (p, ts1)
     end).
Proof.
  intros H. cbn [parse_tokens].
  do 5 (destruct w as [|c w]; [reflexivity|];
        destruct c as [[] [] [] [] [] [] [] []]; try reflexivity).
  destruct w; [discriminate H | reflexivity].
Qed.

Lemma is_keyword_false w :
  is_keyword w = false ->
  primitive_of_keyword w = None
  /\ String.eqb w "fun" = false /\ String.eqb w "multi" = false.
Proof.
  unfold is_keyword. destruct (primitive_of_keyword w); [discriminate|].
  intros [H1 H2]%orb_false_elim. auto.
Qed.

Lemma dotted_name_words ws : forall acc,
  dotted_name (flat_map (fun w' => [TDot; TWord w']) ws) acc
  = Ok (fold_left (fun a w' => a ++ "." ++ w') ws acc, []).
Proof.
  induction ws as [|w ws IH]; intros acc; simpl; [reflexivity|]. apply IH.
Qed.

Lemma qualified_fold ws : forall w acc,
  fold_left (fun a w' => a ++ "." ++ w') ws (acc ++ w)
  = acc ++ String.concat "." (w :: ws).
Proof.
  induction ws as [|w' ws IH]; intros w acc; [reflexivity|].
  cbn [fold_left].
  change (String.concat "." (w :: w' :: ws))
    with (w ++ "." ++ String.concat "." (w' :: ws)).
  rewrite <- !string_app_assoc. rewrite IH.
  rewrite !string_app_assoc. reflexivity.
Qed.

Lemma parse_level_qualified idx pp sp w ws s :
  is_cname w = true -> is_keyword w = false -> forallb is_cname ws = true ->
  parse_level idx pp sp (String.concat "." (w :: ws)) s
  = struct_type idx pp sp (String.concat "." (w :: ws)) s.
Proof.
  intros Hw Hk Hws. destruct (is_keyword_false _ Hk) as (Hp & Hf & Hm).
  unfold parse_level. rewrite lex_qualified by assumption.
  rewrite parse_tokens_word by assumption.
  unfold basic_type. rewrite Hf, Hp, dotted_name_words.
  assert (Hq : fold_left (fun a w' => a ++ "." ++ w') ws w
               = String.concat "." (w :: ws))
    by exact (qualified_fold ws w EmptyString).
  rewrite Hq.
  unfold bind, lift.
  destruct (struct_type idx pp sp _ s) as [[base|e] s']; reflexivity.
Qed.

(** X6.  A qualified name, words joined by [.] of which the first is no
    keyword, parses to what [struct_type] returns for the whole name: the
    catalog is searched for the full dotted name, never for its parts, and
    what the lookup raises is what the parse raises. *)
Theorem parse_qualified_name (index : dict LuaType) (n : nat) (w : string)
    (ws : list string) (s : nat) :
  is_cname w = true -> is_keyword w = false -> forallb is_cname ws = true ->
  parse index (S n) (join "." (w :: ws)) s
  = struct_type index (parse index n) (r_substitute (resolver index n))
      (join "." (w :: ws)) s.
Proof. intros Hw Hk Hws. now apply parse_level_qualified. Qed.

Lemma parse_qualified_name_witness :
  parse catalog_ABC 1 "A" 0 = (Ok (ClassType "A" class_A), 0)
  /\ parse catalog_ABC 1 "vim.lsp.Client" 0
     = (Ok (StructType "vim.lsp.Client"), 0).
Proof.
  split.
  - exact (@parse_qualified_name catalog_ABC 0 "A" [] 0
             eq_refl eq_refl eq_refl).
  - exact (@parse_qualified_name catalog_ABC 0 "vim" ["lsp"; "Client"] 0
             eq_refl eq_refl eq_refl).
Defined.

Lemma struct_type_str idx pp sp name s t s' :
  struct_type idx pp sp name s = (Ok t, s') -> str t = Ok name.
Proof.
  unfold struct_type, mk_AliasType, mk_EnumType.
  destruct (dict_get idx name) as [[c|e|a]|]; unfold ret.
  - intros [= <- _]. reflexivity.
  - intros (ms & s1 & _ & [= <- _])%bind_inv. reflexivity.
  - intros (ty & s1 & _ & [= <- _])%bind_inv. reflexivity.
  - intros [= <- _]. reflexivity.
Qed.

(** X7.  Round trip on names: whatever the catalog holds for a qualified
    name (a class, an alias, an enum or nothing), the value its parse
    returns prints as that name. *)
Theorem parse_name_roundtrip (index : dict LuaType) (n : nat) (w : string)
    (ws : list string) (s s' : nat) (t : ResolvedType) :
  is_cname w = true -> is_keyword w = false -> forallb is_cname ws = true ->
  parse index (S n) (join "." (w :: ws)) s = (Ok t, s') ->
  str t = Ok (join "." (w :: ws)).
Proof.
  intros Hw Hk Hws H. unfold parse in H. cbn [resolver r_parse] in H.
  unfold join in H. rewrite parse_level_qualified in H by assumption.
  exact (struct_type_str _ _ _ _ _ H).
Qed.

Lemma parse_name_roundtrip_witness :
  str (EnumType "Mode" Mode
         (UnionType [LiteralInt 1; LiteralInt 2; LiteralInt 3] false))
  = Ok "Mode".
Proof.
  apply (@parse_name_roundtrip catalog_Mode 1 "Mode" [] 0 0); reflexivity.
Defined.

(** X8.  Unknown names degrade: a qualified name the catalog does not hold
    parses, without an error and without creating a class, to the
    unresolved struct of that name, whose member mapping is empty. *)
Theorem parse_unknown_name (index : dict LuaType) (n m : nat) (w : string)
    (ws : list string) (s : nat) :
  is_cname w = true -> is_keyword w = false -> forallb is_cname ws = true ->
  dict_get index (join "." (w :: ws)) = None ->
  parse index (S n) (join "." (w :: ws)) s
  = (Ok (StructType (join "." (w :: ws))), s)
  /\ members_at index (S m) (StructType (join "." (w :: ws))) s = (Ok [], s).
Proof.
  intros Hw Hk Hws Hi. split; [|reflexivity].
  unfold parse. cbn [resolver r_parse].
  unfold join in *. rewrite parse_level_qualified by assumption.
  unfold struct_type. rewrite Hi. reflexivity.
Qed.

Lemma parse_unknown_name_witness :
  parse catalog_ABC 1 "my.Unknown" 7 = (Ok (StructType "my.Unknown"), 7)
  /\ members_at catalog_ABC 1 (StructType "my.Unknown") 7 = (Ok [], 7).
Proof.
  apply (@parse_unknown_name catalog_ABC 0 0 "my" ["Unknown"] 7); reflexivity.
Defined.

(** ** Substitution of type variables *)

(** [substitute_typevars] with its local functions written with [mapM]. *)
Lemma substitute_typevars_eq pp sp t tv s :
  substitute_typevars pp sp t tv s =
  match t with
  | StructType name =>
      match dict_get tv name with
      | Some v => ret v
      | None => ret t
      end
  | ClassType name typedef =>
      let (type_args, found_any) :=
        _filter_typevars (Class.generics typedef) tv in
      if found_any then mk_GenericClassInstanceType name type_args typedef
      else ret t
  | AliasType name typedef _ =>
      let (type_args, found_any) :=
        _filter_typevars (Alias.generics typedef) tv in
      if found_any then mk_GenericAliasInstanceType pp sp name type_args typedef
      else ret t
  | TableType _ _ => raise TypeError
  | UnionType elements omitted =>
      es <- mapM (fun x => substitute_typevars pp sp x tv) elements ;;
      ret (UnionType es omitted)
  | IntersectionType elements omitted =>
      es <- mapM (fun x => substitute_typevars pp sp x tv) elements ;;
      ret (IntersectionType es omitted)
  | TupleType elements =>
      es <- mapM (fun x => substitute_typevars pp sp x tv) elements ;;
      ret (TupleType es)
  | FunctionType params rets =>
      ps <- mapM (fun p => y <- substitute_typevars pp sp (snd p) tv ;;
                           ret (fst p, y)) params ;;
      r <- match rets with
           | Some x => y <- substitute_typevars pp sp x tv ;; ret (Some y)
           | None => ret None
           end ;;
      ret (FunctionType ps r)
  | OptionalType _ inner =>
      i <- substitute_typevars pp sp inner tv ;; mk_OptionalType i
  | VariadicType _ element_type =>
      e <- substitute_typevars pp sp element_type tv ;; mk_VariadicType e
  | ArrayType _ element_type =>
      match method_class t with
      | Some WOptional => raise RecursionError
      | Some WVariadic =>
          e <- substitute_typevars pp sp element_type tv ;; mk_VariadicType e
      | _ =>
          e <- substitute_typevars pp sp element_type tv ;; mk_ArrayType e
      end
  | _ => ret t
  end s.
Proof.
  assert (Hl : forall l,
    (fix subst_list (l : list ResolvedType) : M (list ResolvedType) :=
       match l with
       | [] => ret []
       | x :: l' =>
           y <- substitute_typevars pp sp x tv ;;
           ys <- subst_list l' ;; ret (y :: ys)
       end) l = mapM (fun x => substitute_typevars pp sp x tv) l).
  { induction l as [|a l IH]; simpl; [reflexivity | now rewrite IH]. }
  destruct t; try reflexivity; simpl; rewrite ?Hl; try reflexivity.
  assert (Hp : forall l s,
    (fix subst_params (l : list (option string * ResolvedType))
       : M (list (option string * ResolvedType)) :=
       match l with
       | [] => ret []
       | (n, x) :: l' =>
           y <- substitute_typevars pp sp x tv ;;
           ys <- subst_params l' ;; ret ((n, y) :: ys)
       end) l s
    = mapM (fun p => y <- substitute_typevars pp sp (snd p) tv ;;
                     ret (fst p, y)) l s).
  { induction l as [|[n v] l IH]; intros s0; simpl; [reflexivity|].
    unfold bind. destruct (substitute_typevars pp sp v tv s0) as [[y|e] s1];
      [|reflexivity].
    rewrite IH. reflexivity. }
  unfold bind at 1 3. rewrite Hp. reflexivity.
Qed.

Lemma reaches_table_eq t :
  reaches_table t =
  match t with
  | TableType _ _ => true
  | UnionType es _ | IntersectionType es _ | TupleType es =>
      existsb reaches_table es
  | FunctionType ps r =>
      existsb (fun p => reaches_table (snd p)) ps
      || match r with Some x => reaches_table x | None => false end
  | OptionalType _ x | ArrayType _ x | VariadicType _ x => reaches_table x
  | _ => false
  end.
Proof.
  assert (Hl : forall l,
    (fix any (l : list ResolvedType) : bool :=
       match l with
       | [] => false
       | x :: l' => reaches_table x || any l'
       end) l = existsb reaches_table l).
  { induction l as [|a l IH]; simpl; [reflexivity | now rewrite IH]. }
  destruct t; try reflexivity; simpl; rewrite ?Hl; try reflexivity.
  f_equal. induction params as [|[n v] l IH]; simpl; [reflexivity|].
  now rewrite IH.
Qed.

Lemma bind_raises {A B} (m : M A) (f : A -> M B) s :
  raises (m s) -> raises (bind m f s).
Proof. intros (e & s' & H). unfold bind. rewrite H. exists e, s'. reflexivity. Qed.

Lemma bind_raises_after {A B} (m : M A) (f : A -> M B) s :
  (forall a s', raises (f a s')) -> raises (bind m f s).
Proof.
  intros H. unfold bind. destruct (m s) as [[a|e] s']; [apply H|].
  exists e, s'. reflexivity.
Qed.

Lemma mapM_raises {A B} (P : A -> bool) (f : A -> M B) l :
  Forall (fun x => P x = true -> forall s, raises (f x s)) l ->
  existsb P l = true -> forall s, raises (mapM f l s).
Proof.
  induction 1 as [|x l Hx _ IH]; simpl; [discriminate|].
  intros H s. destruct (P x) eqn:HP.
  - apply bind_raises. auto.
  - simpl in H. apply bind_raises_after. intros y s'.
    apply bind_raises. auto.
Qed.

Lemma substitute_typevars_raises (pp : string -> M ResolvedType)
    (sp : ResolvedType -> Typevars -> M ResolvedType) (t : ResolvedType)
    (tv : Typevars) :
  reaches_table t = true ->
  forall s, raises (substitute_typevars pp sp t tv s).
Proof.
  induction t using ResolvedType_rect_nested; intros Hr s;
    rewrite reaches_table_eq in Hr; try discriminate Hr;
    rewrite substitute_typevars_eq.
  - (* table *) exists TypeError, s. reflexivity.
  - apply bind_raises. apply (mapM_raises reaches_table); assumption.
  - apply bind_raises. apply (mapM_raises reaches_table); assumption.
  - apply bind_raises. apply (mapM_raises reaches_table); assumption.
  - (* function *)
    destruct (existsb (fun p => reaches_table (snd p)) params) eqn:Hp.
    + apply bind_raises.
      apply (mapM_raises (fun p => reaches_table (snd p))); [|assumption].
      eapply Forall_impl; [|exact H]. intros p Hp' Hrp s0.
      apply bind_raises. auto.
    + simpl in Hr. destruct rets as [r|]; [|discriminate].
      apply bind_raises_after. intros ps s1. apply bind_raises.
      apply bind_raises. auto.
  - apply bind_raises. auto.
  - destruct (method_class (ArrayType c t)) as [[| |]|].
    + exists RecursionError, s. reflexivity.
    + apply bind_raises. auto.
    + apply bind_raises. auto.
    + apply bind_raises. auto.
  - apply bind_raises. auto.
Qed.

(** X9.  [TableType.substitute_typevars] raises for every mapping, and the
    exception passes through every value the substitution descends into: a
    union, intersection, tuple, function or wrapper that holds a table at
    such a place cannot be substituted in. *)
Theorem substitute_typevars_table (pp : string -> M ResolvedType)
    (sp : ResolvedType -> Typevars -> M ResolvedType) (t : ResolvedType)
    (tv : Typevars) (s : nat) :
  reaches_table t = true ->
  raises (substitute_typevars pp sp t tv s)
  /\ (forall f o, substitute_typevars pp sp (TableType f o) tv s
                  = (Raise TypeError, s)).
Proof.
  intros H. split; [now apply substitute_typevars_raises | reflexivity].
Qed.

(** [{ x: T }?] under [T := string] *)
Lemma substitute_typevars_table_witness :
  raises (substitute_typevars no_parse no_subst
            (OptionalType 0 (TableType [(KName "x", StructType "T")] false))
            [("T", StringType)] 1).
Proof.
  apply (@substitute_typevars_table no_parse no_subst
           (OptionalType 0 (TableType [(KName "x", StructType "T")] false))
           [("T", StringType)] 1).
  reflexivity.
Defined.

(** X12.  A generic alias whose body holds a table where the substitution
    descends to cannot be instantiated: building the instance raises,
    whatever the arguments. *)
Theorem generic_alias_table_body (pp pp' : string -> M ResolvedType)
    (sp' : ResolvedType -> Typevars -> M ResolvedType) (name text : string)
    (type_args : list ResolvedType) (typedef : Alias.t)
    (body : ResolvedType) (s s1 : nat) :
  Alias.typ typedef = Some text ->
  pp text s = (Ok body, s1) ->
  reaches_table body = true ->
  raises (mk_GenericAliasInstanceType pp (substitute_typevars pp' sp')
            name type_args typedef s).
Proof.
  intros Ht Hp Hr. unfold mk_GenericAliasInstanceType, parse_opt.
  rewrite Ht. unfold bind at 1. rewrite Hp.
  apply bind_raises_after. intros _ s2. apply bind_raises.
  now apply substitute_typevars_raises.
Qed.

(** [---@alias Box<T> { value: T }], instantiated as [Box<string>] *)
Lemma generic_alias_table_body_witness :
  raises (mk_GenericAliasInstanceType (parse [] 1)
            (substitute_typevars no_parse no_subst) "Box" [StringType]
            (Alias.mk "Box" (Some "{ value: T }") [LuaTypeVar.mk "T" None] [])
            0).
Proof.
  apply (@generic_alias_table_body (parse [] 1) no_parse no_subst "Box"
           "{ value: T }" [StringType]
           (Alias.mk "Box" (Some "{ value: T }") [LuaTypeVar.mk "T" None] [])
           (TableType [(KName "value", StructType "T")] false) 0 0);
    reflexivity.
Defined.

Lemma _filter_typevars_spec generics tv :
  _filter_typevars generics tv
  = (map (filtered_typevar tv) (generic_names generics),
     existsb (is_bound tv) (generic_names generics)).
Proof.
  unfold _filter_typevars.
  assert (H : forall names acc b,
    fold_left
      (fun acc name =>
         match dict_get tv name with
         | Some t => ((fst acc ++ [t])%list, true)
         | None => ((fst acc ++ [StructType name])%list, snd acc)
         end) names (acc, b)
    = ((acc ++ map (filtered_typevar tv) names)%list,
       b || existsb (is_bound tv) names)).
  { induction names as [|n names IH]; intros acc b; simpl.
    - now rewrite app_nil_r, orb_false_r.
    - unfold filtered_typevar, is_bound at 1.
      destruct (dict_get tv n); simpl; rewrite IH, <- app_assoc; simpl;
        [now rewrite orb_true_r | reflexivity]. }
  destruct generics as [|g gs]; [reflexivity|].
  rewrite H. reflexivity.
Qed.

(** X10.  [ClassType.substitute_typevars] never raises and creates no
    class.  It returns the class itself when the mapping binds none of its
    generic parameters; otherwise an instance with one argument for each
    declared parameter, in order: the bound value, or the unresolved struct
    named like the parameter.  The arity assertion of the instance cannot
    fail. *)
Theorem ClassType_substitute_typevars (pp : string -> M ResolvedType)
    (sp : ResolvedType -> Typevars -> M ResolvedType) (name : string)
    (typedef : Class.t) (tv : Typevars) (s : nat) :
  let names := generic_names (Class.generics typedef) in
  substitute_typevars pp sp (ClassType name typedef) tv s
  = (Ok (if existsb (is_bound tv) names
         then GenericClassInstanceType name (map (filtered_typevar tv) names)
                typedef
         else ClassType name typedef), s)
  /\ List.length (map (filtered_typevar tv) names)
     = List.length (Class.generics typedef).
Proof.
  intros names. split.
  - cbn [substitute_typevars]. rewrite _filter_typevars_spec. fold names.
    destruct (existsb (is_bound tv) names); [|reflexivity].
    unfold mk_GenericClassInstanceType, bind, assert.
    replace (List.length (map (filtered_typevar tv) names)
             <=? List.length (Class.generics typedef))%nat with true;
      [reflexivity|].
    symmetry. apply Nat.leb_le. unfold names, generic_names.
    now rewrite !length_map.
  - unfold names, generic_names. now rewrite !length_map.
Qed.

Lemma unaffected_eq tv t :
  unaffected tv t =
  match t with
  | StructType name => negb (is_bound tv name)
  | ClassType _ typedef =>
      negb (existsb (is_bound tv) (generic_names (Class.generics typedef)))
  | AliasType _ typedef _ =>
      negb (existsb (is_bound tv) (generic_names (Alias.generics typedef)))
  | TableType _ _ => false
  | UnionType es _ | IntersectionType es _ | TupleType es =>
      forallb (unaffected tv) es
  | FunctionType ps r =>
      forallb (fun p => unaffected tv (snd p)) ps
      && match r with Some x => unaffected tv x | None => true end
  | OptionalType _ x => negb (isinstance_OptionalType x) && unaffected tv x
  | VariadicType _ x => negb (isinstance_VariadicType x) && unaffected tv x
  | ArrayType _ x =>
      match method_class t with Some WArray => unaffected tv x | _ => false end
  | _ => true
  end.
Proof.
  assert (Hl : forall l,
    (fix all (l : list ResolvedType) : bool :=
       match l with
       | [] => true
       | x :: l' => unaffected tv x && all l'
       end) l = forallb (unaffected tv) l).
  { induction l as [|a l IH]; simpl; [reflexivity | now rewrite IH]. }
  destruct t; try reflexivity; simpl; rewrite ?Hl; try reflexivity.
  f_equal. induction params as [|[n v] l IH]; simpl; [reflexivity|].
  now rewrite IH.
Qed.

(** Structural equality preserves the classes a value is an instance of. *)
Lemma struct_eq_isinstance x : forall y,
  struct_eq x y = true ->
  isinstance_OptionalType x = isinstance_OptionalType y
  /\ isinstance_VariadicType x = isinstance_VariadicType y
  /\ isinstance_ArrayType x = isinstance_ArrayType y
  /\ method_class x = method_class y.
Proof.
  unfold struct_eq.
  induction x using ResolvedType_rect_nested; intros y;
    rewrite rt_eqb_eq; destruct y; try discriminate; intros Hxy;
    try (simpl; repeat split; reflexivity).
  - simpl in Hxy. destruct (IHx _ Hxy) as (H1 & H2 & H3 & H4).
    simpl. auto.
  - simpl in Hxy. destruct (IHx _ Hxy) as (H1 & H2 & H3 & H4).
    simpl. rewrite H3, H4. auto.
  - simpl in Hxy. destruct (IHx _ Hxy) as (H1 & H2 & H3 & H4).
    simpl. auto.
Qed.

Lemma mapM_Forall2 {A B} (Q : A -> bool) (R : A -> B -> Prop) (f : A -> M B) l :
  Forall (fun x => Q x = true ->
                   forall s, exists y s', f x s = (Ok y, s') /\ R x y) l ->
  forallb Q l = true ->
  forall s, exists ys s', mapM f l s = (Ok ys, s') /\ Forall2 R l ys.
Proof.
  induction 1 as [|x l Hx _ IH]; simpl; intros HQ s.
  - exists [], s. split; [reflexivity | constructor].
  - apply andb_prop in HQ as [HQx HQ].
    destruct (Hx HQx s) as (y & s1 & Hy & Ry).
    destruct (IH HQ s1) as (ys & s2 & Hys & Rys).
    exists (y :: ys), s2. unfold bind. rewrite Hy, Hys. split; [reflexivity|].
    constructor; assumption.
Qed.

Lemma forall2b_Forall2 {A B} (f : A -> B -> bool) l1 l2 :
  Forall2 (fun a b => f a b = true) l1 l2 -> forall2b f l1 l2 = true.
Proof. induction 1; simpl; [reflexivity|]. now rewrite H, IHForall2. Qed.

(** X11.  Substitution leaves alone what it does not bind: on a value in
    which no bound name occurs (and that holds no table) it returns a value
    with the same tags and contents.  The wrappers of the result belong to
    newly created classes, so the result is structurally equal to the
    argument, not the same value. *)
Theorem substitute_typevars_unaffected (pp : string -> M ResolvedType)
    (sp : ResolvedType -> Typevars -> M ResolvedType) (tv : Typevars)
    (t : ResolvedType) :
  unaffected tv t = true ->
  forall s, exists t' s',
    substitute_typevars pp sp t tv s = (Ok t', s') /\ struct_eq t t' = true.
Proof.
  assert (Hrefl : forall x, struct_eq x x = true)
    by (intros x; apply rt_eqb_refl; reflexivity).
  induction t using ResolvedType_rect_nested; intros Hu s;
    rewrite unaffected_eq in Hu; try discriminate Hu;
    rewrite substitute_typevars_eq;
    try (eexists; eexists; split; [reflexivity | apply Hrefl]).
  - (* struct *)
    unfold is_bound in Hu. destruct (dict_get tv name); [discriminate|].
    eexists; eexists; split; [reflexivity | apply Hrefl].
  - (* class *)
    rewrite _filter_typevars_spec. apply negb_true_iff in Hu. rewrite Hu.
    eexists; eexists; split; [reflexivity | apply Hrefl].
  - (* alias *)
    rewrite _filter_typevars_spec. apply negb_true_iff in Hu. rewrite Hu.
    eexists; eexists; split; [reflexivity | apply Hrefl].
  - (* union *)
    destruct (@mapM_Forall2 _ _ (unaffected tv)
                (fun a b => struct_eq a b = true)
                (fun x => substitute_typevars pp sp x tv) es H Hu s)
      as (ys & s' & Hys & HR).
    exists (UnionType ys omitted), s'. unfold bind. rewrite Hys.
    split; [reflexivity|]. unfold struct_eq. rewrite rt_eqb_eq.
    rewrite forall2b_Forall2 by exact HR. now rewrite Bool.eqb_reflx.
  - (* intersection *)
    destruct (@mapM_Forall2 _ _ (unaffected tv)
                (fun a b => struct_eq a b = true)
                (fun x => substitute_typevars pp sp x tv) es H Hu s)
      as (ys & s' & Hys & HR).
    exists (IntersectionType ys omitted), s'. unfold bind. rewrite Hys.
    split; [reflexivity|]. unfold struct_eq. rewrite rt_eqb_eq.
    rewrite forall2b_Forall2 by exact HR. now rewrite Bool.eqb_reflx.
  - (* tuple *)
    destruct (@mapM_Forall2 _ _ (unaffected tv)
                (fun a b => struct_eq a b = true)
                (fun x => substitute_typevars pp sp x tv) es H Hu s)
      as (ys & s' & Hys & HR).
    exists (TupleType ys), s'. unfold bind. rewrite Hys.
    split; [reflexivity|]. unfold struct_eq. rewrite rt_eqb_eq.
    now rewrite forall2b_Forall2 by exact HR.
  - (* function *)
    apply andb_prop in Hu as [Hps Hr].
    destruct (@mapM_Forall2 _ _ (fun p => unaffected tv (snd p))
                (fun a b => param_eqb struct_eq a b = true)
                (fun p => y <- substitute_typevars pp sp (snd p) tv ;;
                          ret (fst p, y)) params) with (s := s)
      as (ys & s1 & Hys & HR); [|assumption|].
    { eapply Forall_impl; [|exact H]. intros [n x] Hx Hux s0. simpl in *.
      destruct (Hx Hux s0) as (y & s' & Hy & Hxy).
      exists (n, y), s'. unfold bind. rewrite Hy. split; [reflexivity|].
      unfold param_eqb. simpl. rewrite Hxy.
      destruct n; simpl; [now rewrite String.eqb_refl | reflexivity]. }
    unfold bind at 1. rewrite Hys.
    destruct rets as [r|].
    + destruct (H0 Hr s1) as (y & s2 & Hy & Hry).
      exists (FunctionType ys (Some y)), s2. unfold bind. rewrite Hy.
      split; [reflexivity|]. unfold struct_eq. rewrite rt_eqb_eq.
      rewrite forall2b_Forall2 by exact HR. exact Hry.
    + exists (FunctionType ys None), s1. split; [reflexivity|].
      unfold struct_eq. rewrite rt_eqb_eq.
      now rewrite forall2b_Forall2 by exact HR.
  - (* optional *)
    apply andb_prop in Hu as [Hi Hu]. apply negb_true_iff in Hi.
    destruct (IHt Hu s) as (y & s1 & Hy & Hty).
    destruct (struct_eq_isinstance _ _ Hty) as (H1 & _).
    exists (OptionalType s1 y), (S s1). unfold bind. rewrite Hy.
    unfold mk_OptionalType. rewrite <- H1, Hi. split; [reflexivity|].
    unfold struct_eq. rewrite rt_eqb_eq. exact Hty.
  - (* array *)
    destruct (method_class (ArrayType c t)) as [[| |]|] eqn:Hm;
      try discriminate Hu.
    destruct (IHt Hu s) as (y & s1 & Hy & Hty).
    exists (ArrayType s1 y), (S s1). unfold bind. rewrite Hy.
    split; [reflexivity|]. unfold struct_eq. rewrite rt_eqb_eq. exact Hty.
  - (* variadic *)
    apply andb_prop in Hu as [Hi Hu]. apply negb_true_iff in Hi.
    destruct (IHt Hu s) as (y & s1 & Hy & Hty).
    destruct (struct_eq_isinstance _ _ Hty) as (_ & H2 & _).
    exists (VariadicType s1 y), (S s1). unfold bind. rewrite Hy.
    unfold mk_VariadicType. rewrite <- H2, Hi. split; [reflexivity|].
    unfold struct_eq. rewrite rt_eqb_eq. exact Hty.
Qed.

(** [(string|U)?] under [T := number] *)
Lemma substitute_typevars_unaffected_witness :
  exists t' s',
    substitute_typevars no_parse no_subst
      (OptionalType 0 (UnionType [StringType; StructType "U"] false))
      [("T", NumberType)] 1 = (Ok t', s')
    /\ struct_eq (OptionalType 0 (UnionType [StringType; StructType "U"] false))
         t' = true.
Proof.
  apply (@substitute_typevars_unaffected no_parse no_subst [("T", NumberType)]
           (OptionalType 0 (UnionType [StringType; StructType "U"] false))).
  reflexivity.
Defined.

(** ** Members *)

(** X13.  Wrappers are transparent for what they do not define: through
    any chain of optional, array and variadic wrappers in which no array
    takes the methods of [OptionalType], [members], [elements], [omitted],
    [rets] and [typ] are those of the wrapped value. *)
Theorem wrappers_delegate (pp : string -> M ResolvedType)
    (sp : ResolvedType -> Typevars -> M ResolvedType)
    (mp : ResolvedType -> M (dict Documented)) (t : ResolvedType) :
  chain_terminates t = true ->
  members pp sp mp t = members pp sp mp (unwrapped t)
  /\ getattr_elements t = getattr_elements (unwrapped t)
  /\ getattr_omitted t = getattr_omitted (unwrapped t)
  /\ getattr_rets t = getattr_rets (unwrapped t)
  /\ getattr_typ t = getattr_typ (unwrapped t).
Proof.
  induction t using ResolvedType_rect_nested; intros Hc;
    try (repeat split; reflexivity).
  - exact (IHt Hc).
  - cbn [chain_terminates] in Hc. apply andb_prop in Hc as [Hd Hc].
    apply negb_true_iff in Hd.
    destruct (IHt Hc) as (H1 & H2 & H3 & H4 & H5).
    cbn [unwrapped]. rewrite <- H1, <- H2, <- H3, <- H4, <- H5.
    cbn [members getattr_elements getattr_omitted getattr_rets getattr_typ].
    rewrite Hd. repeat split; reflexivity.
  - exact (IHt Hc).
Qed.

Lemma wrappers_delegate_witness :
  members_at catalog_ABC 2
    (OptionalType 1 (ArrayType 0 (ClassType "A" class_A)))
  = members_at catalog_ABC 2 (ClassType "A" class_A).
Proof.
  apply (@wrappers_delegate (parse catalog_ABC 1)
           (r_substitute (resolver catalog_ABC 1))
           (members_at catalog_ABC 1)
           (OptionalType 1 (ArrayType 0 (ClassType "A" class_A)))).
  reflexivity.
Defined.

(** ** Intersections *)

Lemma bind_assoc {A B C} (m : M A) (f : A -> M B) (g : B -> M C) s :
  bind (bind m f) g s = bind m (fun a => bind (f a) g) s.
Proof. unfold bind. destruct (m s) as [[a|e] s1]; reflexivity. Qed.

Lemma members_IntersectionType pp sp mp es : forall res s,
  (fix merge (els : list ResolvedType) (res : dict Documented)
     : M (dict Documented) :=
     match els with
     | [] => ret res
     | el :: els' =>
         r <- catch_attr (d <- members pp sp mp el ;; ret (dict_update res d))
                (ret res) ;;
         merge els' r
     end) es res s
  = (ds <- mapM (base_members true (members pp sp mp)) es ;;
     ret (fold_left (@dict_update Documented) ds res)) s.
Proof.
  induction es as [|el es IH]; intros res s; [reflexivity|].
  cbn [mapM]. rewrite bind_assoc.
  assert (Hcase : (exists d s1,
             catch_attr (d <- members pp sp mp el ;; ret (dict_update res d))
               (ret res) s = (Ok (dict_update res d), s1)
             /\ base_members true (members pp sp mp) el s = (Ok d, s1))
           \/ (exists e s1,
             catch_attr (d <- members pp sp mp el ;; ret (dict_update res d))
               (ret res) s = (Raise e, s1)
             /\ base_members true (members pp sp mp) el s = (Raise e, s1))).
  { unfold base_members, catch_attr, bind.
    destruct (members pp sp mp el s) as [[d|e] s1].
    - left. exists d, s1. split; reflexivity.
    - destruct e; try (right; do 2 eexists; split; reflexivity).
      left. exists [], s1. split; reflexivity. }
  destruct Hcase as [(d & s1 & H1 & H2)|(e & s1 & H1 & H2)].
  - rewrite (bind_Ok _ _ _ H1), (bind_Ok _ _ _ H2), IH, bind_assoc.
    unfold bind. destruct (mapM _ es s1) as [[ys|e] s2]; reflexivity.
  - rewrite (bind_Raise _ _ _ H1), (bind_Raise _ _ _ H2). reflexivity.
Qed.

Lemma inherited_app ds1 ds2 k :
  inherited (ds1 ++ ds2) k
  = match inherited ds1 k with
    | Some v => Some v
    | None => inherited ds2 k
    end.
Proof.
  induction ds1 as [|d ds1 IH]; simpl; [reflexivity|].
  destruct (lookup_last d k); [reflexivity | exact IH].
Qed.

Lemma merged_get (ds : list (dict Documented)) : forall acc k,
  dict_get (fold_left (@dict_update Documented) ds acc) k
  = match inherited (rev ds) k with
    | Some v => Some v
    | None => dict_get acc k
    end.
Proof.
  induction ds as [|d ds IH]; intros acc k; [reflexivity|].
  cbn [fold_left rev]. rewrite IH, inherited_app, dict_get_update. simpl.
  destruct (inherited (rev ds) k); [reflexivity|].
  destruct (lookup_last d k); reflexivity.
Qed.

(** X14.  The members of an intersection are those of its elements merged
    in order: for a name several elements provide, the last of them wins;
    an element without members contributes nothing. *)
Theorem IntersectionType_members (pp : string -> M ResolvedType)
    (sp : ResolvedType -> Typevars -> M ResolvedType)
    (mp : ResolvedType -> M (dict Documented))
    (es : list ResolvedType) (o : bool) (ds : list (dict Documented))
    (s s' : nat) :
  mapM (base_members true (members pp sp mp)) es s = (Ok ds, s') ->
  exists R,
    members pp sp mp (IntersectionType es o) s = (Ok R, s')
    /\ forall k, dict_get R k = inherited (rev ds) k.
Proof.
  intros H. exists (fold_left (@dict_update Documented) ds []). split.
  - cbn [members]. rewrite members_IntersectionType. unfold bind. now rewrite H.
  - intros k. rewrite merged_get. simpl. now destruct (inherited (rev ds) k).
Qed.

Lemma IntersectionType_members_witness :
  exists R,
    members_at catalog_ABC 2
      (IntersectionType [ClassType "A" class_A; ClassType "B" class_B] false) 0
    = (Ok R, 0)
    /\ dict_get R "x" = Some (DocumentedField StringType B_x)
    /\ dict_get R "y" = Some (DocumentedField BooleanType B_y).
Proof.
  destruct (@IntersectionType_members (parse catalog_ABC 1)
              (r_substitute (resolver catalog_ABC 1))
              (members_at catalog_ABC 1)
              [ClassType "A" class_A; ClassType "B" class_B] false
              [[("x", DocumentedField IntegerType A_x)];
               [("x", DocumentedField StringType B_x);
                ("y", DocumentedField BooleanType B_y)]] 0 0 eq_refl)
    as (R & H1 & H2).
  exists R. split; [exact H1|]. rewrite !H2. split; reflexivity.
Defined.

(** ** Members declared as a list *)

Lemma Forall2_rev' {A B} (P : A -> B -> Prop) l1 l2 :
  Forall2 P l1 l2 -> Forall2 P (rev l1) (rev l2).
Proof.
  induction 1; simpl; [constructor|].
  apply Forall2_app; [assumption | repeat constructor; assumption].
Qed.

Lemma Forall2_map_left {A B C} (P : C -> B -> Prop) (f : A -> C) l1 l2 :
  Forall2 (fun a b => P (f a) b) l1 l2 -> Forall2 P (map f l1) l2.
Proof. induction 1; simpl; constructor; assumption. Qed.

Lemma lookup_last_Forall2 {V W} (P : V -> W -> Prop)
    (l1 : list (string * V)) (l2 : list (string * W)) (k : string) :
  Forall2 (fun a b => fst a = fst b /\ P (snd a) (snd b)) l1 l2 ->
  match lookup_last l1 k with
  | Some v => exists w, lookup_last l2 k = Some w /\ P v w
  | None => lookup_last l2 k = None
  end.
Proof.
  intros H. unfold lookup_last. apply Forall2_rev' in H.
  induction H as [|[k1 v] [k2 w] r1 r2 [Hk HP] _ IH]; simpl in *; [reflexivity|].
  subst k2. destruct (String.eqb k1 k); [eauto | exact IH].
Qed.

(** X15.  The members of a declaration that lists them (an enum, an
    instance of a generic alias or enum): every declared name is a key, once,
    and its value is the hydration of the last member declared under that
    name; earlier members of the same name (overloads) are dropped. *)
Theorem members_of_list_get (pp : string -> M ResolvedType)
    (sp : ResolvedType -> Typevars -> M ResolvedType) (ms : list Member)
    (ctx : option Typevars) (s s' : nat) (R : dict Documented) :
  members_of_list pp sp ms ctx s = (Ok R, s') ->
  NoDup (map fst R)
  /\ forall k,
       match lookup_last (named_members ms) k with
       | Some m =>
           exists d sa sb,
             from_member pp sp m ctx sa = (Ok d, sb) /\ dict_get R k = Some d
       | None => dict_get R k = None
       end.
Proof.
  unfold members_of_list. intros (items & s1 & Hm & [= <- <-])%bind_inv.
  split.
  - apply dict_update_keys. constructor.
  - intros k. unfold dict_of_items. rewrite dict_get_update. simpl.
    apply mapM_inv in Hm.
    assert (HF : Forall2 (fun a b => fst a = fst b
                            /\ exists sa sb, from_member pp sp (snd a) ctx sa
                                             = (Ok (snd b), sb))
                   (named_members ms) items).
    { unfold named_members. apply Forall2_map_left.
      eapply Forall2_impl; [|exact Hm].
      intros m [n d] (sa & sb & H). simpl.
      apply bind_inv in H as (d' & s2 & Hd & [= <- <- _]).
      split; [reflexivity | eauto]. }
    pose proof (@lookup_last_Forall2 _ _
                  (fun m d => exists sa sb, from_member pp sp m ctx sa = (Ok d, sb))
                  _ _ k HF) as HL.
    destruct (lookup_last (named_members ms) k) as [m|].
    + destruct HL as (d & -> & sa & sb & Hd). eauto.
    + now rewrite HL.
Qed.

Lemma members_of_list_get_witness :
  exists d sa sb,
    from_member (parse [] 1) no_subst
      (MField (FieldMember.mk "v" "string" None Property.empty)) None sa
    = (Ok d, sb)
    /\ dict_get [("v", DocumentedField StringType
                         (FieldMember.mk "v" "string" None Property.empty))] "v"
       = Some d.
Proof.
  exact (proj2 (@members_of_list_get (parse [] 1) no_subst
                  [MField (FieldMember.mk "v" "integer" None Property.empty);
                   MField (FieldMember.mk "v" "string" None Property.empty)]
                  None 0 0
                  [("v", DocumentedField StringType
                           (FieldMember.mk "v" "string" None Property.empty))]
                  eq_refl) "v").
Defined.

(** ** The context of a generic instance *)

Lemma dict_get_combine (names : list string) : forall (args : list ResolvedType) i g,
  NoDup names -> nth_error names i = Some g ->
  dict_get (combine names args) g = nth_error args i.
Proof.
  induction names as [|n names IH]; intros args i g Hnd Hi.
  - destruct i; discriminate.
  - inversion Hnd as [|? ? Hn Hnd']; subst.
    destruct args as [|a args].
    + simpl. now destruct i.
    + destruct i as [|i]; simpl in *.
      * injection Hi as ->. now rewrite String.eqb_refl.
      * destruct (String.eqb_spec n g) as [->|_].
        -- exfalso. apply Hn. eapply nth_error_In; eauto.
        -- now apply IH.
Qed.

Lemma NoDup_combine_fst {A B} (l1 : list A) : forall (l2 : list B),
  NoDup l1 -> NoDup (map fst (combine l1 l2)).
Proof.
  induction l1 as [|a l1 IH]; intros [|b l2] H; simpl; try constructor.
  - inversion H as [|? ? Ha H']; subst. intros Hin. apply Ha.
    apply in_map_iff in Hin as ([a' b'] & <- & Hin).
    eapply in_combine_l; eauto.
  - inversion H; subst. auto.
Qed.

Lemma _typevar_ctx_get (generics : list LuaTypeVar.t)
    (type_args : list ResolvedType) (i : nat) (g : string) :
  NoDup (generic_names generics) ->
  nth_error (generic_names generics) i = Some g ->
  dict_get (_typevar_ctx generics type_args) g = nth_error type_args i.
Proof.
  intros Hnd Hi. unfold _typevar_ctx.
  rewrite dict_of_items_NoDup by now apply NoDup_combine_fst.
  now apply dict_get_combine.
Qed.

(** X16.  The context of a generic instance binds the declared parameters
    by position: the parameter at position [i] to the argument at position
    [i], and no parameter beyond the last argument. *)
Theorem _typevar_ctx_positional (generics : list LuaTypeVar.t)
    (type_args : list ResolvedType) (i : nat) (g : string) :
  NoDup (generic_names generics) ->
  nth_error (generic_names generics) i = Some g ->
  dict_get (_typevar_ctx generics type_args) g = nth_error type_args i.
Proof. apply _typevar_ctx_get. Qed.

Lemma _typevar_ctx_positional_witness :
  dict_get (_typevar_ctx [LuaTypeVar.mk "K" None; LuaTypeVar.mk "V" None]
              [StringType]) "V" = None
  /\ dict_get (_typevar_ctx [LuaTypeVar.mk "K" None; LuaTypeVar.mk "V" None]
                 [StringType]) "K" = Some StringType.
Proof.
  split.
  - apply (@_typevar_ctx_positional
             [LuaTypeVar.mk "K" None; LuaTypeVar.mk "V" None] [StringType] 1 "V");
      [repeat constructor; simpl; intuition discriminate | reflexivity].
  - apply (@_typevar_ctx_positional
             [LuaTypeVar.mk "K" None; LuaTypeVar.mk "V" None] [StringType] 0 "K");
      [repeat constructor; simpl; intuition discriminate | reflexivity].
Defined.

(** X17.  In a generic instance, a field whose declared type is the
    generic parameter at position [i] has the type argument at position
    [i]: [Foo<string>] for [---@class Foo<T>] with [val: T] has
    [val: string]. *)
Theorem generic_field_instantiated (pp : string -> M ResolvedType)
    (sp : ResolvedType -> Typevars -> M ResolvedType)
    (generics : list LuaTypeVar.t) (type_args : list ResolvedType)
    (member : FieldMember.t) (i : nat) (g : string) (a : ResolvedType)
    (s s' : nat) :
  NoDup (generic_names generics) ->
  nth_error (generic_names generics) i = Some g ->
  nth_error type_args i = Some a ->
  pp (field_text member) s = (Ok (StructType g), s') ->
  from_member pp sp (MField member) (Some (_typevar_ctx generics type_args)) s
  = (Ok (DocumentedField a member), s').
Proof.
  intros Hnd Hg Ha Hp.
  pose proof (_typevar_ctx_get generics type_args i Hnd Hg) as Hc.
  rewrite Ha in Hc.
  unfold from_member, DocumentedField_from_member.
  fold (field_text member). unfold bind at 1. rewrite Hp.
  destruct (_typevar_ctx generics type_args) as [|kv ctx] eqn:Hctx;
    [discriminate Hc|].
  cbn [ctx_given]. unfold bind. cbn [substitute_typevars]. rewrite Hc.
  reflexivity.
Qed.

Lemma generic_field_instantiated_witness :
  from_member (parse [] 1) no_subst
    (MField (FieldMember.mk "val" "T" None Property.empty))
    (Some (_typevar_ctx (Class.generics Foo) [StringType])) 0
  = (Ok (DocumentedField StringType
           (FieldMember.mk "val" "T" None Property.empty)), 0).
Proof.
  apply (@generic_field_instantiated (parse [] 1) no_subst (Class.generics Foo)
           [StringType] (FieldMember.mk "val" "T" None Property.empty) 0 "T"
           StringType 0 0);
    [repeat constructor; simpl; intuition discriminate
    | reflexivity | reflexivity | reflexivity].
Defined.

(** ** Documented functions *)

Lemma parse_param_typ_no_ParseError pp typ s :
  no_ParseError (parse_param_typ pp typ s) = true.
Proof.
  unfold parse_param_typ, no_ParseError.
  destruct typ as [[|c t]|]; try reflexivity.
  unfold catch_parse, bind. destruct (pp (String c t) s) as [[x|e] s1];
    [reflexivity|]. destruct e; reflexivity.
Qed.

Lemma bind_no_ParseError {A B} (m : M A) (f : A -> M B) s :
  no_ParseError (m s) = true ->
  (forall a s', no_ParseError (f a s') = true) ->
  no_ParseError (bind m f s) = true.
Proof.
  unfold bind, no_ParseError. destruct (m s) as [[a|e] s1]; simpl; auto.
Qed.

Lemma mapM_no_ParseError {A B} (f : A -> M B) l :
  (forall x s, no_ParseError (f x s) = true) ->
  forall s, no_ParseError (mapM f l s) = true.
Proof.
  intros Hf. induction l as [|x l IH]; intros s; [reflexivity|].
  cbn [mapM]. apply bind_no_ParseError; [apply Hf|]. intros y s1.
  apply bind_no_ParseError; [apply IH|]. reflexivity.
Qed.

(** X18.  [DocumentedFunction.from_member] without a context never fails
    with a syntax error: the parse of every parameter and return type is
    guarded, whatever the texts are. *)
Theorem DocumentedFunction_from_member_no_ParseError
    (pp : string -> M ResolvedType)
    (sp : ResolvedType -> Typevars -> M ResolvedType) (member : FnMember.t)
    (s : nat) :
  no_ParseError (DocumentedFunction_from_member pp sp member None s) = true.
Proof.
  unfold DocumentedFunction_from_member.
  apply bind_no_ParseError.
  - apply mapM_no_ParseError. intros p s0.
    apply bind_no_ParseError; [apply parse_param_typ_no_ParseError|].
    reflexivity.
  - intros ps s1. apply bind_no_ParseError.
    + apply mapM_no_ParseError. intros p s0.
      apply parse_param_typ_no_ParseError.
    + reflexivity.
Qed.



Lemma parse_param_typ_parsed_at pp typ s o s' :
  parse_param_typ pp typ s = (Ok o, s') -> parsed_at pp typ s o s'.
Proof.
  unfold parse_param_typ, parsed_at.
  destruct typ as [[|c t]|]; try (unfold ret; intros [= <- <-]; now split).
  unfold catch_parse, bind, ret.
  destruct (pp (String c t) s) as [[x|e] s1].
  - intros [= <- <-]. left. eauto.
  - destruct e; try discriminate. intros [= <- <-]. now right.
Qed.

Lemma parsed_at_functional pp typ s o1 s1 o2 s2 :
  parsed_at pp typ s o1 s1 -> parsed_at pp typ s o2 s2 -> o1 = o2 /\ s1 = s2.
Proof.
  unfold parsed_at. destruct typ as [[|c t]|];
    try (intros [-> ->] [-> ->]; now split).
  intros [(t1 & H1 & ->)|[H1 ->]] [(t2 & H2 & ->)|[H2 ->]];
    rewrite H1 in H2; inversion H2; subst; now split.
Qed.

Lemma returns_hydrated_in_turn pp (l : list FnParam.t) : forall s rs s',
  mapM (fun r => parse_param_typ pp (FnParam.typ r)) l s = (Ok rs, s') ->
  hydrated_in_turn pp (map FnParam.typ l) s rs s'.
Proof.
  induction l as [|r l IH]; intros s rs s' H; cbn [mapM] in H.
  - unfold ret in H. inversion H; subst. reflexivity.
  - apply bind_inv in H as (o & s1 & Ho & H).
    apply bind_inv in H as (os & s2 & Hos & H).
    unfold ret in H. inversion H; subst. simpl.
    exists s1. split; [now apply parse_param_typ_parsed_at | now apply IH].
Qed.

Lemma params_hydrated_in_turn pp (l : list FnParam.t) : forall s ps s',
  mapM (fun p => t <- parse_param_typ pp (FnParam.typ p) ;;
                 ret (FnParam.name p, t)) l s = (Ok ps, s') ->
  map fst ps = map FnParam.name l
  /\ hydrated_in_turn pp (map FnParam.typ l) s (map snd ps) s'.
Proof.
  induction l as [|p l IH]; intros s ps s' H; cbn [mapM] in H.
  - unfold ret in H. inversion H; subst. now split.
  - apply bind_inv in H as ([n o] & s1 & Ho & H).
    apply bind_inv in H as (os & s2 & Hos & H).
    unfold ret in H. inversion H; subst.
    apply bind_inv in Ho as (o' & s3 & Ho & H3).
    unfold ret in H3. inversion H3; subst.
    destruct (IH _ _ _ Hos) as [Hn Ht]. simpl. split; [now f_equal|].
    exists s1. split; [now apply parse_param_typ_parsed_at | exact Ht].
Qed.



(** X20.  The [rets] of a function hydrated without a context, by the number
    of declared returns.  None: the empty tuple (such a function is not
    void).  Exactly one: [None] when the return is untyped or its type is an
    instance of [NilType], and otherwise its type, which is the value the
    parser returns for the declared text, or [UnknownType] where that text
    does not parse.  Several: a tuple with one entry for each return,
    hydrated in turn.  So a function is void exactly when it declares one
    return that is untyped or of type nil. *)
Theorem DocumentedFunction_from_member_rets
    (pp : string -> M ResolvedType)
    (sp : ResolvedType -> Typevars -> M ResolvedType) (member : FnMember.t)
    (s s' : nat) (ps : list (option string * option ResolvedType))
    (rets : Rets) (typedef : FnMember.t) (ctx : option Typevars) :
  DocumentedFunction_from_member pp sp member None s
  = (Ok (DocumentedFunction ps rets typedef ctx), s') ->
  exists s1,
    hydrated_in_turn pp (map FnParam.typ (FnMember.params member)) s
      (map snd ps) s1
    /\ match FnMember.returns member with
       | [] => rets = RetsTuple []
       | [r] =>
           exists o,
             parsed_at pp (FnParam.typ r) s1 o s'
             /\ rets = match o with
                       | None => RetsNone
                       | Some t => if isinstance_NilType t then RetsNone
                                   else RetsType t
                       end
       | rs =>
           exists es,
             hydrated_in_turn pp (map FnParam.typ rs) s1 es s'
             /\ rets = RetsTuple es
       end
    /\ (is_void rets = true <->
        exists r o,
          FnMember.returns member = [r]
          /\ parsed_at pp (FnParam.typ r) s1 o s'
          /\ (o = None
              \/ exists t, o = Some t /\ isinstance_NilType t = true)).
Proof.
  unfold DocumentedFunction_from_member.
  intros (ps0 & s1 & Hps & (rs & s2 & Hrs & H)%bind_inv)%bind_inv.
  cbn [ctx_given] in H. unfold ret in H. inversion H; subst; clear H.
  exists s1. split; [exact (proj2 (params_hydrated_in_turn _ _ _ Hps))|].
  pose proof (returns_hydrated_in_turn _ _ _ Hrs) as Ht.
  destruct (FnMember.returns typedef) as [|r1 [|r2 rest]];
    destruct rs as [|x [|y rs]]; simpl in Ht;
    try contradiction;
    try (destruct Ht as (? & _ & Ht); simpl in Ht; try contradiction;
         destruct Ht as (? & _ & Ht); contradiction).
  - split; [reflexivity|]. split; [discriminate|].
    intros (r & o & [=] & _).
  - destruct Ht as (s2 & Hx & ->).
    split.
    + exists x. split; [exact Hx|]. destruct x; reflexivity.
    + split.
      * intros Hv. exists r1, x. split; [reflexivity|]. split; [exact Hx|].
        destruct x as [t|]; [|now left].
        right. exists t. split; [reflexivity|].
        destruct (isinstance_NilType t); [reflexivity | discriminate Hv].
      * intros (r & o & [= <-] & Ho & Hcase).
        destruct (@parsed_at_functional _ _ _ _ _ _ _ Hx Ho) as [-> _].
        destruct Hcase as [-> | (t & -> & Hn)]; [reflexivity|].
        now rewrite Hn.
  - split.
    + exists (x :: y :: rs). split; [exact Ht|]. destruct x; reflexivity.
    + split; [destruct x; discriminate|].
      intros (r & o & [=] & _).
Qed.

(** a function that declares the single return [nil] is void *)
Lemma DocumentedFunction_from_member_rets_witness :
  exists o,
    parsed_at (parse [] 1) (Some "nil") 0 o 0
    /\ RetsNone = match o with
                  | None => RetsNone
                  | Some t => if isinstance_NilType t then RetsNone
                              else RetsType t
                  end.
Proof.
  destruct (@DocumentedFunction_from_member_rets (parse [] 1) no_subst
              (FnMember.mk "h" [] [] [FnParam.mk None (Some "nil") None] []
                 Property.empty) 0 0 [] RetsNone
              (FnMember.mk "h" [] [] [FnParam.mk None (Some "nil") None] []
                 Property.empty) None eq_refl)
    as (s1 & Hp & Hr & _).
  simpl in Hp. subst s1. exact Hr.
Defined.

(** ** The parameters and returns of a documented function *)

Lemma set_typ_next (done : list ParamDict) p todo t :
  set_typ (done ++ param_dict p :: todo) (List.length done) t
  = Ok ((done ++ [filled (p, t)]) ++ todo)%list.
Proof.
  unfold set_typ.
  rewrite nth_error_app2 by lia. rewrite Nat.sub_diag. cbn [nth_error].
  rewrite firstn_app, Nat.sub_diag, firstn_all. cbn [firstn].
  rewrite app_nil_r, skipn_app.
  rewrite skipn_all2 by lia.
  replace (S (List.length done) - List.length done) with 1 by lia.
  cbn [skipn app]. now rewrite <- app_assoc.
Qed.

Lemma option_eqb_refl (n : option string) : option_eqb String.eqb n n = true.
Proof. destruct n; simpl; [apply String.eqb_refl | reflexivity]. Qed.

Lemma parameters_loop_aligned (todo : list FnParam.t) :
  forall ps done,
    Forall2 (fun p q => fst q = FnParam.name p) todo ps ->
    parameters_loop ps (List.length done) (done ++ map param_dict todo)
    = Ok (done ++ map filled
                    (combine todo (map (fun q => rets_of_option (snd q)) ps)))%list.
Proof.
  induction todo as [|p todo IH]; intros ps done H; inversion H; subst.
  - reflexivity.
  - destruct y as [n t]. simpl in H2. subst n.
    cbn [parameters_loop map].
    assert (Hn : nth_error (done ++ param_dict p :: map param_dict todo)
                   (List.length done) = Some (param_dict p)).
    { rewrite nth_error_app2, Nat.sub_diag by lia. reflexivity. }
    rewrite Hn. cbn [pd_name param_dict]. rewrite option_eqb_refl.
    replace (if truthy (FnParam.name p) then Ok tt else Ok tt) with (Ok tt)
      by now destruct (truthy _).
    cbn [rbind]. rewrite set_typ_next. cbn [rbind].
    replace (S (List.length done)) with (List.length (done ++ [filled (p, rets_of_option t)]))
      by (rewrite length_app; simpl; lia).
    rewrite IH by assumption. cbn [combine map]. now rewrite <- app_assoc.
Qed.

Lemma build_parameters_filled l :
  build_parameters (map filled l)
  = Ok (map (fun pt => documented_parameter (fst pt) (snd pt)) l).
Proof.
  unfold build_parameters. induction l as [|pt l IH]; [reflexivity|].
  cbn [map sequenceR]. rewrite IH. reflexivity.
Qed.

Lemma DocumentedFunction_parameters_aligned ps typedef :
  Forall2 (fun p q => fst q = FnParam.name p) (FnMember.params typedef) ps ->
  DocumentedFunction_parameters ps typedef
  = Ok (map (fun pt => documented_parameter (fst pt) (snd pt))
          (combine (FnMember.params typedef)
             (map (fun q => rets_of_option (snd q)) ps))).
Proof.
  intros H. unfold DocumentedFunction_parameters.
  pose proof (parameters_loop_aligned [] H) as HL. cbn [app List.length] in HL.
  rewrite HL. cbn [rbind].
  apply build_parameters_filled.
Qed.

Lemma Forall2_compose {A B C} (P : A -> B -> Prop) (Q : B -> C -> Prop)
    (R : A -> C -> Prop) l1 l2 l3 :
  (forall a b c, P a b -> Q b c -> R a c) ->
  Forall2 P l1 l2 -> Forall2 Q l2 l3 -> Forall2 R l1 l3.
Proof.
  intros H H1. revert l3. induction H1; intros l3 H2; inversion H2; subst;
    constructor; eauto.
Qed.

(** What [from_member] keeps of the declaration of a function, with or
    without a context: the names of the parameters in order, and one entry
    of [rets] for each declared return unless there is exactly one. *)
Lemma DocumentedFunction_from_member_shape pp sp member ctx s s'
    ps rets typedef c :
  DocumentedFunction_from_member pp sp member ctx s
  = (Ok (DocumentedFunction ps rets typedef c), s') ->
  typedef = member
  /\ Forall2 (fun p q => fst q = FnParam.name p) (FnMember.params member) ps
  /\ match FnMember.returns member with
     | [] => rets = RetsTuple []
     | [_] => rets = RetsNone \/ exists t, rets = RetsType t
     | _ => exists es, rets = RetsTuple es
                       /\ List.length es = List.length (FnMember.returns member)
     end.
Proof.
  unfold DocumentedFunction_from_member.
  intros (ps0 & s1 & Hps & (rs & s2 & Hrs & H)%bind_inv)%bind_inv.
  assert (Hal : Forall2 (fun p q => fst q = FnParam.name p)
                  (FnMember.params member) ps0).
  { apply mapM_inv in Hps. eapply Forall2_impl; [|exact Hps].
    intros p q (sa & sb & Hq). apply bind_inv in Hq as (t & s3 & _ & Hq).
    unfold ret in Hq. now inversion Hq. }
  pose proof (mapM_length _ _ _ Hrs) as Hlen.
  set (rets0 := match rs with
                | [Some r] => if isinstance_NilType r then RetsNone else RetsType r
                | [None] => RetsNone
                | _ => RetsTuple rs
                end) in H.
  assert (Hshape0 :
    match FnMember.returns member with
    | [] => rets0 = RetsTuple []
    | [_] => rets0 = RetsNone \/ exists t, rets0 = RetsType t
    | _ => exists es, rets0 = RetsTuple es
                      /\ List.length es = List.length (FnMember.returns member)
    end).
  { subst rets0.
    destruct (FnMember.returns member) as [|r1 [|r2 rest]];
      destruct rs as [|x [|y rs]]; try discriminate Hlen.
    - reflexivity.
    - destruct x as [t|]; [|now left].
      destruct (isinstance_NilType t); [now left | right; eauto].
    - destruct x; (eexists; split; [reflexivity | exact Hlen]). }
  clearbody rets0.
  destruct (ctx_given ctx) as [c0|].
  - apply bind_inv in H as (ps1 & s3 & Hps1 & (r1 & s4 & Hr1 & H)%bind_inv).
    unfold ret in H. inversion H; subst; clear H.
    split; [reflexivity|]. split.
    + apply mapM_inv in Hps1.
      eapply Forall2_compose; [|exact Hal|exact Hps1].
      intros p q q' Hq (sa & sb & Hq').
      apply bind_inv in Hq' as (t & s5 & _ & Hq'). unfold ret in Hq'.
      inversion Hq'. simpl. exact Hq.
    + destruct rets0 as [|t|es].
      * unfold ret in Hr1. inversion Hr1; subst. exact Hshape0.
      * apply bind_inv in Hr1 as (y & s5 & _ & Hr1). unfold ret in Hr1.
        inversion Hr1; subst.
        destruct (FnMember.returns typedef) as [|? [|? ?]]; try discriminate.
        -- right. eauto.
        -- destruct Hshape0 as (? & [=] & _).
      * apply bind_inv in Hr1 as (es' & s5 & Hes & Hr1). unfold ret in Hr1.
        inversion Hr1; subst. apply mapM_length in Hes.
        destruct (FnMember.returns typedef) as [|? [|? ?]].
        -- injection Hshape0 as ->. now destruct es'.
        -- destruct Hshape0 as [[=]|(? & [=])].
        -- destruct Hshape0 as (es0 & [= <-] & Hl).
           eexists; split; [reflexivity | congruence].
  - unfold ret in H. inversion H; subst; clear H. auto.
Qed.

(** X21.  [parameters] on a function that [from_member] built never fails
    its assertion or an index: it returns one [DocumentedParameter] for each
    declared parameter, in order, with the declared name, description and
    type text and the hydrated type. *)
Theorem DocumentedFunction_parameters_from_member
    (pp : string -> M ResolvedType)
    (sp : ResolvedType -> Typevars -> M ResolvedType) (member : FnMember.t)
    (ctx : option Typevars) (s s' : nat)
    (ps : list (option string * option ResolvedType)) (rets : Rets)
    (typedef : FnMember.t) (c : option Typevars) :
  DocumentedFunction_from_member pp sp member ctx s
  = (Ok (DocumentedFunction ps rets typedef c), s') ->
  DocumentedFunction_parameters ps typedef
  = Ok (map (fun pt => documented_parameter (fst pt) (snd pt))
          (combine (FnMember.params member)
             (map (fun q => rets_of_option (snd q)) ps)))
  /\ List.length ps = List.length (FnMember.params member).
Proof.
  intros H. apply DocumentedFunction_from_member_shape in H as (-> & Hal & _).
  split; [now apply DocumentedFunction_parameters_aligned|].
  symmetry. eapply Forall2_length; eassumption.
Qed.

Lemma DocumentedFunction_parameters_from_member_witness :
  DocumentedFunction_parameters [(Some "a", Some UnknownType)] bad_fn
  = Ok [DocumentedParameter.mk (Some "a") None (RetsType UnknownType)
          (Some "'foo'")].
Proof.
  apply (@DocumentedFunction_parameters_from_member (parse [] 1) no_subst bad_fn
           None 0 0 [(Some "a", Some UnknownType)] (RetsTuple []) bad_fn None).
  reflexivity.
Defined.

Lemma returns_loop_aligned (todo : list FnParam.t) :
  forall es done,
    List.length es = List.length todo ->
    returns_loop es (List.length done) (done ++ map param_dict todo)
    = Ok (done ++ map filled (combine todo es))%list.
Proof.
  induction todo as [|p todo IH]; intros [|e es] done H; try discriminate H.
  - reflexivity.
  - cbn [returns_loop map]. rewrite set_typ_next. cbn [rbind].
    replace (S (List.length done)) with (List.length (done ++ [filled (p, e)]))
      by (rewrite length_app; simpl; lia).
    rewrite IH by (simpl in H; lia). cbn [combine map].
    now rewrite <- app_assoc.
Qed.

Lemma returns_tuple (todo : list FnParam.t) (es : list Rets) :
  List.length es = List.length todo ->
  (ret' <~ returns_loop es 0 (map param_dict todo) ;; build_parameters ret')%R
  = Ok (map (fun pt => documented_parameter (fst pt) (snd pt)) (combine todo es)).
Proof.
  intros H. pose proof (returns_loop_aligned todo es [] H) as HL.
  cbn [app List.length] in HL. rewrite HL. cbn [rbind].
  apply build_parameters_filled.
Qed.

Lemma map_name_combine (todo : list FnParam.t) : forall (es : list Rets),
  List.length es = List.length todo ->
  map DocumentedParameter.name
    (map (fun pt => documented_parameter (fst pt) (snd pt)) (combine todo es))
  = map FnParam.name todo.
Proof.
  induction todo as [|p todo IH]; intros [|e es] H; try discriminate H;
    [reflexivity|]. simpl. f_equal. apply IH. simpl in H. lia.
Qed.

(** X22.  [returns] on a function that [from_member] built never raises.
    It is empty for a void function and has otherwise one entry for each
    declared return, under the declared names.  A single return whose type
    is a tuple of one element is reported with the type of that element:
    the tuple is taken for the list of returns. *)
Theorem DocumentedFunction_returns_from_member
    (pp : string -> M ResolvedType)
    (sp : ResolvedType -> Typevars -> M ResolvedType) (member : FnMember.t)
    (ctx : option Typevars) (s s' : nat)
    (ps : list (option string * option ResolvedType)) (rets : Rets)
    (typedef : FnMember.t) (c : option Typevars) :
  DocumentedFunction_from_member pp sp member ctx s
  = (Ok (DocumentedFunction ps rets typedef c), s') ->
  exists l,
    DocumentedFunction_returns rets typedef = Ok l
    /\ (is_void rets = true -> l = [])
    /\ (is_void rets = false ->
        map DocumentedParameter.name l = map FnParam.name (FnMember.returns member))
    /\ (forall e, rets = RetsType (TupleType [e]) ->
        map DocumentedParameter.typ l = [RetsType e]).
Proof.
  intros H. apply DocumentedFunction_from_member_shape in H as (-> & _ & Hs).
  unfold DocumentedFunction_returns.
  destruct (FnMember.returns member) as [|r1 [|r2 rest]] eqn:Hr.
  - subst rets. eexists. split; [reflexivity|].
    repeat split; try discriminate. 
  - destruct Hs as [->|(t & ->)].
    + eexists. split; [reflexivity|]. repeat split; try discriminate.
    + assert (Hset : set_typ [param_dict r1] 0 (RetsType t)
                     = Ok [filled (r1, RetsType t)]) by reflexivity.
      destruct t; cbn [tuple_elements map List.length];
        try (rewrite Hset; eexists; split; [reflexivity|];
             repeat split; try discriminate).
      destruct elements as [|e [|e' es]]; cbn [map List.length Nat.eqb];
        try (rewrite Hset; eexists; split; [reflexivity|];
             repeat split; try discriminate).
      eexists. split; [reflexivity|]. repeat split; try discriminate.
      intros e0 [= ->]. reflexivity.
  - destruct Hs as (es & -> & Hl). cbn [tuple_elements].
    rewrite !length_map, Hl, Nat.eqb_refl.
    rewrite returns_tuple by (rewrite length_map; exact Hl).
    eexists. split; [reflexivity|]. repeat split; try discriminate.
    intros _. apply map_name_combine. rewrite length_map. exact Hl.
Qed.

Lemma DocumentedFunction_returns_from_member_witness :
  exists l,
    DocumentedFunction_returns (RetsType (TupleType [StringType]))
      (FnMember.mk "g" [] [] [FnParam.mk None (Some "(string)") None] []
         Property.empty) = Ok l
    /\ map DocumentedParameter.typ l = [RetsType StringType].
Proof.
  destruct (@DocumentedFunction_returns_from_member (parse [] 1) no_subst
              (FnMember.mk "g" [] [] [FnParam.mk None (Some "(string)") None] []
                 Property.empty)
              None 0 0 [] (RetsType (TupleType [StringType]))
              (FnMember.mk "g" [] [] [FnParam.mk None (Some "(string)") None] []
                 Property.empty) None eq_refl)
    as (l & H1 & _ & _ & H4).
  exists l. split; [exact H1 | exact (H4 StringType eq_refl)].
Defined.

(** ** Keywords and literals *)

(** X23.  Keywords shadow the catalog: a word that names a primitive
    type or a boolean literal parses to it whatever the catalog declares
    under that name, without creating a class. *)
Theorem parse_keyword (index : dict LuaType) (n : nat) (w : string)
    (v : ResolvedType) (s : nat) :
  primitive_of_keyword w = Some v ->
  parse index (S n) w s = (Ok v, s).
Proof.
  unfold primitive_of_keyword.
  repeat match goal with
         | |- context [String.eqb w ?k] =>
             destruct (String.eqb_spec w k) as [->|_];
             [intros [= <-]; reflexivity|]
         end.
  discriminate.
Qed.

Lemma parse_keyword_witness :
  parse [("string", TClass class_A)] 1 "string" 0 = (Ok StringType, 0).
Proof.
  apply (@parse_keyword [("string", TClass class_A)] 0 "string" StringType 0).
  reflexivity.
Defined.

Lemma digit_char c :
  is_digit c = true ->
  is_ws c = false /\ is_cname_start c = false.
Proof.
  destruct c as [[] [] [] [] [] [] [] []]; vm_compute; intros H;
    try discriminate H; split; reflexivity.
Qed.

Lemma string_of_uint_digits d :
  string_forallb is_digit (DecimalString.NilEmpty.string_of_uint d) = true.
Proof. induction d; simpl; auto. Qed.

Lemma lex_fuel_digits n c w :
  is_digit c = true -> string_forallb is_digit w = true ->
  lex_fuel (S (S n)) (String c w) = [TInt (String c w)].
Proof.
  intros Hc Hw. destruct (digit_char _ Hc) as [Hws Hst].
  cbn [lex_fuel]. rewrite Hws, Hst, Hc.
  pose proof (@span_all is_digit (String c w) EmptyString) as Hsp.
  rewrite string_app_nil_r in Hsp. rewrite Hsp; [reflexivity | | exact I].
  simpl. now rewrite Hc, Hw.
Qed.

Lemma lex_uint d :
  d <> Decimal.Nil ->
  lex (DecimalString.NilEmpty.string_of_uint d)
  = [TInt (DecimalString.NilEmpty.string_of_uint d)]
  /\ lex (String "-" (DecimalString.NilEmpty.string_of_uint d))
     = [TInt (String "-" (DecimalString.NilEmpty.string_of_uint d))].
Proof.
  intros Hd. pose proof (string_of_uint_digits d) as Hall.
  destruct (DecimalString.NilEmpty.string_of_uint d) as [|c w] eqn:Hs.
  { destruct d; try discriminate Hs. contradiction. }
  simpl in Hall. apply andb_prop in Hall as [Hc Hw].
  split.
  - unfold lex. cbn [String.length]. now apply lex_fuel_digits.
  - unfold lex. cbn [String.length lex_fuel].
    change (is_ws "-") with false. change (is_cname_start "-") with false.
    change (is_digit "-") with false. change (Ascii.eqb "-" dquote) with false.
    cbv iota.
    pose proof (@span_all is_digit (String c w) EmptyString) as Hsp.
    rewrite string_app_nil_r in Hsp.
    assert (Hsp' : span is_digit (String c w) = (String c w, EmptyString)).
    { apply Hsp; [simpl; now rewrite Hc, Hw | exact I]. }
    destruct c as [[] [] [] [] [] [] [] []]; try discriminate Hc;
      rewrite Hc, Hsp'; reflexivity.
Qed.

Lemma lex_str_int z : lex (str_int z) = [TInt (str_int z)].
Proof.
  unfold str_int. destruct z as [|p|p]; [reflexivity| |].
  - simpl Z.to_int. unfold DecimalString.NilZero.string_of_int,
      DecimalString.NilZero.string_of_uint.
    pose proof (DecimalPos.Unsigned.to_uint_nonnil p) as Hp.
    destruct (lex_uint Hp) as [H _].
    destruct (Pos.to_uint p); [contradiction|exact H..].
  - simpl Z.to_int. unfold DecimalString.NilZero.string_of_int,
      DecimalString.NilZero.string_of_uint.
    pose proof (DecimalPos.Unsigned.to_uint_nonnil p) as Hp.
    destruct (lex_uint Hp) as [_ H].
    destruct (Pos.to_uint p); [contradiction|exact H..].
Qed.

Lemma int_of_token_str_int z : int_of_token (str_int z) = z.
Proof.
  unfold int_of_token, str_int.
  rewrite DecimalString.NilZero.isi.
  - apply DecimalZ.of_to.
  - destruct z; simpl; try discriminate.
    intros [= H]. exact (DecimalPos.Unsigned.to_uint_nonnil p H).
  - destruct z; simpl; try discriminate.
    intros [= H]. exact (DecimalPos.Unsigned.to_uint_nonnil p H).
Qed.

Lemma scan_string_plain v r :
  string_forallb plain_char v = true ->
  scan_string (v ++ String dquote r) false = Some (v, r).
Proof.
  induction v as [|c v IH]; intros H.
  - reflexivity.
  - simpl in H. apply andb_prop in H as [Hc Hv].
    unfold plain_char in Hc.
    apply andb_prop in Hc as [[Hq Hb]%andb_prop Hn].
    apply negb_true_iff in Hq, Hb, Hn.
    cbn [append scan_string]. rewrite Hq, Hb, Hn. cbn [andb].
    now rewrite IH.
Qed.

Lemma lex_string_literal v :
  string_forallb plain_char v = true ->
  lex (String dquote (v ++ String dquote EmptyString)) = [TString v].
Proof.
  intros H. unfold lex. cbn [String.length lex_fuel].
  change (is_ws dquote) with false. change (is_cname_start dquote) with false.
  change (is_digit dquote) with false. change (Ascii.eqb dquote dquote) with true.
  cbv iota. rewrite scan_string_plain by assumption. reflexivity.
Qed.

(** X24.  Round trip on literals: the text [__str__] prints for an integer
    (of either sign), a boolean, or a string of plain characters parses back
    to the very same literal, whatever the catalog. *)
Theorem literal_roundtrip (index : dict LuaType) (n : nat) (t : ResolvedType)
    (s : nat) :
  plain_literal t = true ->
  exists text, str t = Ok text /\ parse index (S n) text s = (Ok t, s).
Proof.
  destruct t; try discriminate; intros H.
  - (* string *)
    eexists. split; [reflexivity|].
    unfold parse. cbn [resolver r_parse]. unfold parse_level.
    rewrite lex_string_literal by exact H. reflexivity.
  - (* integer *)
    eexists. split; [reflexivity|].
    unfold parse. cbn [resolver r_parse]. unfold parse_level.
    rewrite lex_str_int. cbn. unfold bind, ret. cbn.
    now rewrite int_of_token_str_int.
  - (* boolean *)
    destruct value; eexists; (split; [reflexivity|]); reflexivity.
Qed.

Lemma literal_roundtrip_witness :
  exists text,
    str (LiteralInt (-12)) = Ok text
    /\ parse [] 1 text 0 = (Ok (LiteralInt (-12)), 0).
Proof. apply (@literal_roundtrip [] 0 (LiteralInt (-12)) 0). reflexivity. Defined.

(** ** Suffixes *)

Lemma lex_fuel_suffixes sfx : forall n,
  List.length sfx < n -> lex_fuel n (suffix_text sfx) = map suffix_token sfx.
Proof.
  induction sfx as [|x sfx IH]; intros n Hn.
  - destruct n; [lia | reflexivity].
  - destruct n as [|n]; [simpl in Hn; lia|].
    simpl in Hn. destruct x; cbn [suffix_text map suffix_token].
    + change (lex_fuel (S n) ("?" ++ suffix_text sfx))
        with (TQMark :: lex_fuel n (suffix_text sfx)).
      rewrite IH by lia. reflexivity.
    + change (lex_fuel (S n) ("[]" ++ suffix_text sfx))
        with (TArr :: lex_fuel n (suffix_text sfx)).
      rewrite IH by lia. reflexivity.
Qed.

Lemma suffix_text_start sfx :
  match suffix_text sfx with
  | String c _ => is_cname_char c = false
  | EmptyString => True
  end.
Proof. destruct sfx as [|[|] sfx]; simpl; auto. Qed.

Lemma lex_fuel_qualified_rest ws : forall w n rest,
  is_cname w = true -> forallb is_cname ws = true ->
  match rest with String c _ => is_cname_char c = false | EmptyString => True end ->
  lex_fuel (2 * List.length ws + 1 + n) (String.concat "." (w :: ws) ++ rest)
  = ((TWord w :: flat_map (fun w' => [TDot; TWord w']) ws)
     ++ lex_fuel n rest)%list.
Proof.
  induction ws as [|w' ws IH]; intros w n rest Hw Hws Hr.
  - cbn [List.length Nat.mul Nat.add String.concat flat_map app].
    now rewrite lex_fuel_word.
  - simpl in Hws. apply andb_prop in Hws as [Hw' Hws].
    change (String.concat "." (w :: w' :: ws))
      with (w ++ String "."%char (String.concat "." (w' :: ws))).
    rewrite string_app_assoc. cbn [append].
    replace (2 * List.length (w' :: ws) + 1 + n)
      with (S (S (2 * List.length ws + 1 + n))) by (simpl; lia).
    rewrite lex_fuel_word; [| assumption | reflexivity].
    assert (Hc : exists c r, String.concat "." (w' :: ws) ++ rest = String c r
                             /\ is_cname_start c = true).
    { destruct w' as [|c r]; [discriminate|].
      simpl in Hw'. apply andb_prop in Hw' as [Hc _].
      destruct ws; simpl; eauto. }
    destruct Hc as (c & r & Heq & Hc).
    rewrite Heq, lex_fuel_dot by assumption. rewrite <- Heq.
    rewrite IH by assumption. reflexivity.
Qed.

Lemma qualified_length ws : forall w,
  is_cname w = true -> forallb is_cname ws = true ->
  2 * List.length ws + 1 <= String.length (String.concat "." (w :: ws)).
Proof.
  induction ws as [|w' ws IH]; intros w Hw Hws.
  - apply is_cname_nonempty in Hw. simpl. lia.
  - simpl in Hws. apply andb_prop in Hws as [Hw' Hws].
    change (String.concat "." (w :: w' :: ws))
      with (w ++ String "."%char (String.concat "." (w' :: ws))).
    rewrite string_length_app. cbn [String.length].
    specialize (IH w' Hw' Hws). apply is_cname_nonempty in Hw.
    simpl List.length. lia.
Qed.

Lemma suffix_text_length sfx : List.length sfx <= String.length (suffix_text sfx).
Proof.
  induction sfx as [|[|] sfx IH]; simpl; lia.
Qed.

Lemma lex_qualified_suffixes w ws sfx :
  is_cname w = true -> forallb is_cname ws = true ->
  lex (String.concat "." (w :: ws) ++ suffix_text sfx)
  = ((TWord w :: flat_map (fun w' => [TDot; TWord w']) ws)
     ++ map suffix_token sfx)%list.
Proof.
  intros Hw Hws. unfold lex. rewrite string_length_app.
  pose proof (@qualified_length ws w Hw Hws) as H1.
  pose proof (suffix_text_length sfx) as H2.
  replace (S (String.length (String.concat "." (w :: ws))
              + String.length (suffix_text sfx)))
    with (2 * List.length ws + 1
          + (S (String.length (String.concat "." (w :: ws))
                + String.length (suffix_text sfx)) - (2 * List.length ws + 1)))
    by lia.
  rewrite lex_fuel_qualified_rest;
    [| assumption | assumption | apply suffix_text_start].
  rewrite lex_fuel_suffixes by lia. reflexivity.
Qed.

Lemma dotted_name_words_rest ws : forall acc rest,
  match rest with TDot :: _ => False | _ => True end ->
  dotted_name (flat_map (fun w' => [TDot; TWord w']) ws ++ rest)%list acc
  = Ok (fold_left (fun a w' => a ++ "." ++ w') ws acc, rest).
Proof.
  induction ws as [|w ws IH]; intros acc rest Hr.
  - simpl. destruct rest as [|[] rest]; try reflexivity. contradiction.
  - simpl. now apply IH.
Qed.

Lemma bind_ext {A B} (m : M A) (f g : A -> M B) s :
  (forall a s', f a s' = g a s') -> bind m f s = bind m g s.
Proof.
  intros H. unfold bind. destruct (m s) as [[a|e] s1]; [apply H | reflexivity].
Qed.

Lemma suffixes_apply sfx : forall t s,
  suffixes (map suffix_token sfx) t s
  = (t' <- apply_suffixes sfx t ;; ret (t', [])) s.
Proof.
  induction sfx as [|x sfx IH]; intros t s; [reflexivity|].
  destruct x; cbn [map suffix_token suffixes apply_suffixes];
    rewrite bind_assoc; apply bind_ext; intros a s'; apply IH.
Qed.

Lemma bind_ret_l {A B} (a : A) (f : A -> M B) s : bind (ret a) f s = f a s.
Proof. reflexivity. Qed.

Lemma bind_cong_l {A B} (m m' : M A) (f : A -> M B) s :
  m s = m' s -> bind m f s = bind m' f s.
Proof. unfold bind. now intros ->. Qed.

Lemma basic_type_name idx pp sp ty pr k w ws sfx s :
  is_keyword w = false ->
  basic_type idx pp sp ty pr k
    (TWord w :: (flat_map (fun w' => [TDot; TWord w']) ws
                 ++ map suffix_token sfx)%list) s
  = (base <- struct_type idx pp sp (String.concat "." (w :: ws)) ;;
     ret (base, map suffix_token sfx)) s.
Proof.
  intros Hk. destruct (is_keyword_false _ Hk) as (Hp & Hf & Hm).
  unfold basic_type. rewrite Hf, Hp.
  rewrite dotted_name_words_rest by (destruct sfx as [|[|] ?]; exact I).
  assert (Hq : fold_left (fun a w' => a ++ "." ++ w') ws w
               = String.concat "." (w :: ws))
    by exact (qualified_fold ws w EmptyString).
  rewrite Hq. unfold lift, bind at 1. apply bind_ext. intros base s'.
  destruct sfx as [|[|] ?]; reflexivity.
Qed.

Lemma parse_level_qualified_suffixes idx pp sp w ws sfx s :
  is_cname w = true -> is_keyword w = false -> forallb is_cname ws = true ->
  parse_level idx pp sp (String.concat "." (w :: ws) ++ suffix_text sfx) s
  = (t <- struct_type idx pp sp (String.concat "." (w :: ws)) ;;
     apply_suffixes sfx t) s.
Proof.
  intros Hw Hk Hws. destruct (is_keyword_false _ Hk) as (Hp & Hf & Hm).
  unfold parse_level. rewrite lex_qualified_suffixes by assumption.
  cbn [app]. rewrite parse_tokens_word by assumption.
  rewrite !bind_assoc.
  erewrite bind_cong_l by (apply basic_type_name; assumption).
  rewrite bind_assoc. apply bind_ext. intros base s1.
  rewrite bind_ret_l. cbv beta iota.
  erewrite bind_cong_l by apply suffixes_apply.
  rewrite bind_assoc. unfold bind.
  destruct (apply_suffixes sfx base s1) as [[t|e] s2]; reflexivity.
Qed.

Lemma array_prints_as c t text :
  prints_as t text -> prints_as (ArrayType c t) (text ++ "[]").
Proof.
  intros (Hf & Ha & Hs). unfold prints_as.
  assert (Hm : method_class (ArrayType c t) = Some WArray).
  { cbn [method_class]. destruct (isinstance_ArrayType t); auto. }
  repeat split; auto.
  rewrite str_eq, Hm, Hf, Hs. reflexivity.
Qed.

Lemma apply_arrays r : forall t text s t' s',
  forallb is_SArray r = true ->
  prints_as t text ->
  apply_suffixes r t s = (Ok t', s') ->
  prints_as t' (text ++ suffix_text r).
Proof.
  induction r as [|x r IH]; intros t text s t' s' Hr Hp H.
  - unfold ret in H. cbn in H. injection H as <- _.
    cbn [suffix_text]. now rewrite string_app_nil_r.
  - destruct x; [discriminate Hr|]. simpl in Hr.
    cbn [apply_suffixes] in H.
    apply bind_inv in H as (t1 & s1 & H1 & H).
    unfold array_type, mk_ArrayType, bind, new_class, ret in H1.
    injection H1 as <- <-.
    cbn [suffix_text]. rewrite <- string_app_assoc.
    eapply IH; [exact Hr | apply array_prints_as; exact Hp | exact H].
Qed.

Lemma apply_arrays_then_optional sfx : forall t text s t' s',
  arrays_then_optional sfx = true ->
  prints_as t text -> isinstance_OptionalType t = false ->
  apply_suffixes sfx t s = (Ok t', s') ->
  str t' = Ok (text ++ suffix_text sfx).
Proof.
  induction sfx as [|x sfx IH]; intros t text s t' s' Ha Hp Ho H.
  - unfold ret in H. cbn in H. injection H as <- _.
    cbn [suffix_text]. rewrite string_app_nil_r. apply Hp.
  - destruct x.
    + destruct sfx; [|discriminate Ha].
      cbn [apply_suffixes] in H.
      apply bind_inv in H as (t1 & s1 & H1 & H).
      unfold ret in H. injection H as <- _.
      unfold optional_type in H1. rewrite Ho in H1.
      unfold mk_OptionalType in H1. rewrite Ho in H1.
      unfold bind, new_class, ret in H1. injection H1 as <- _.
      destruct Hp as (Hf & _ & Hs).
      rewrite str_eq, Hs, Hf. reflexivity.
    + cbn [arrays_then_optional] in Ha.
      assert (Ha' : arrays_then_optional sfx = true)
        by (destruct sfx; exact Ha).
      cbn [apply_suffixes] in H.
      apply bind_inv in H as (t1 & s1 & H1 & H).
      unfold array_type, mk_ArrayType, bind, new_class, ret in H1.
      injection H1 as <- <-.
      cbn [suffix_text]. rewrite <- string_app_assoc.
      eapply IH; [exact Ha' | apply array_prints_as; exact Hp | exact Ho | exact H].
Qed.

Lemma struct_type_prints_as idx pp sp name s b s' :
  struct_type idx pp sp name s = (Ok b, s') ->
  prints_as b name /\ isinstance_OptionalType b = false
  /\ isinstance_ArrayType b = false.
Proof.
  unfold struct_type, mk_AliasType, mk_EnumType, prints_as.
  destruct (dict_get idx name) as [[c|e|a]|]; unfold ret.
  - intros [= <- _]. repeat split; auto; discriminate.
  - intros (ms & s1 & _ & [= <- _])%bind_inv. repeat split; auto; discriminate.
  - intros (ty & s1 & _ & [= <- _])%bind_inv. repeat split; auto; discriminate.
  - intros [= <- _]. repeat split; auto; discriminate.
Qed.

(** X25.  Suffixes compose.  The parse of a qualified name followed by
    suffixes [?] and [[]] is the parse of the name with [optional_type] and
    [array_type] applied for each suffix from left to right; what either step
    raises is what the parse raises. *)
Theorem parse_name_suffixes (index : dict LuaType) (n : nat) (w : string)
    (ws : list string) (sfx : list Suffix) (s : nat) :
  is_cname w = true -> is_keyword w = false -> forallb is_cname ws = true ->
  parse index (S n) (join "." (w :: ws) ++ suffix_text sfx) s
  = (t <- parse index (S n) (join "." (w :: ws)) ;; apply_suffixes sfx t) s.
Proof.
  intros Hw Hk Hws. unfold parse, join. cbn [resolver r_parse].
  rewrite parse_level_qualified_suffixes by assumption.
  apply bind_cong_l. symmetry. now apply parse_level_qualified.
Qed.

Lemma parse_name_suffixes_witness :
  parse catalog_ABC 1 "A[]?" 0
  = (t <- parse catalog_ABC 1 "A" ;; apply_suffixes [SArray; SOptional] t) 0.
Proof.
  exact (@parse_name_suffixes catalog_ABC 0 "A" [] [SArray; SOptional] 0
           eq_refl eq_refl eq_refl).
Defined.

(** X26.  Round trip on suffixed names.  Where the suffixes are arrays
    only, arrays followed by one [?], or one [?] followed by arrays, the
    value parsed from a qualified name with these suffixes prints as the
    text it was parsed from.  (Other suffix lists do not: a second [?] is
    dropped, and an array of an optional array cannot be printed.) *)
Theorem name_suffixes_roundtrip (index : dict LuaType) (n : nat) (w : string)
    (ws : list string) (sfx : list Suffix) (s s' : nat) (t : ResolvedType) :
  is_cname w = true -> is_keyword w = false -> forallb is_cname ws = true ->
  printable_suffixes sfx = true ->
  parse index (S n) (join "." (w :: ws) ++ suffix_text sfx) s = (Ok t, s') ->
  str t = Ok (join "." (w :: ws) ++ suffix_text sfx).
Proof.
  intros Hw Hk Hws Hpr H. unfold parse, join in *. cbn [resolver r_parse] in H.
  rewrite parse_level_qualified_suffixes in H by assumption.
  apply bind_inv in H as (b & s1 & Hb & H).
  apply struct_type_prints_as in Hb as (Hp & Ho & Ha).
  unfold printable_suffixes in Hpr. apply orb_prop in Hpr as [Hpr|Hpr].
  - eapply apply_arrays_then_optional; eassumption.
  - destruct sfx as [|[|] r]; try discriminate Hpr.
    cbn [apply_suffixes] in H. apply bind_inv in H as (t0 & s2 & H0 & H).
    unfold optional_type in H0. rewrite Ho in H0.
    unfold mk_OptionalType in H0. rewrite Ho in H0.
    unfold bind, new_class, ret in H0. injection H0 as <- <-.
    assert (Hp0 : prints_as (OptionalType s1 b)
                    (String.concat "." (w :: ws) ++ "?")).
    { destruct Hp as (Hf & _ & Hs). repeat split.
      - exact Hf.
      - cbn [isinstance_ArrayType]. rewrite Ha. discriminate.
      - rewrite str_eq, Hs, Hf. reflexivity. }
    cbn [suffix_text]. rewrite <- string_app_assoc.
    eapply (apply_arrays r); [exact Hpr | exact Hp0 | exact H].
Qed.

Lemma name_suffixes_roundtrip_witness :
  str (OptionalType 1 (ArrayType 0 (ClassType "A" class_A))) = Ok "A[]?".
Proof.
  apply (@name_suffixes_roundtrip catalog_ABC 0 "A" [] [SArray; SOptional] 0 2);
    reflexivity.
Defined.

(* ------------------------------------------------------------------ *)
(** ** The views of the index *)
(* ------------------------------------------------------------------ *)

Lemma Index_view_get {V} (sel : LuaType -> option V) (types : dict LuaType) k :
  NoDup (map fst types) ->
  dict_get (Index_view sel types) k
  = match dict_get types k with
    | Some t => sel t
    | None => None
    end.
Proof.
  intros Hnd. unfold Index_view.
  assert (Hnd' : NoDup (map fst
               (flat_map (fun kv => match sel (snd kv) with
                                    | Some v => [(fst kv, v)]
                                    | None => []
                                    end) types))).
  { clear k. induction types as [|[k' t] l IH]; simpl; [constructor|].
    inversion Hnd as [|? ? Hk Hl]; subst.
    destruct (sel t); simpl; [constructor|]; auto.
    intros Hin. apply Hk. clear -Hin.
    induction l as [|[k2 t2] l IH]; simpl in *; [auto|].
    destruct (sel t2); simpl in *; intuition. }
  rewrite dict_of_items_NoDup by assumption. clear Hnd'.
  induction types as [|[k' t] l IH]; simpl; [reflexivity|].
  inversion Hnd as [|? ? Hk Hl]; subst. specialize (IH Hl).
  destruct (String.eqb_spec k' k) as [->|Hne].
  - destruct (sel t); simpl; [now rewrite String.eqb_refl|].
    rewrite IH. rewrite (dict_get_notin l k Hk). reflexivity.
  - destruct (sel t); simpl; [|exact IH].
    destruct (String.eqb_spec k' k); [contradiction|exact IH].
Qed.

Lemma _to_dict_keys {T} (name : T -> string) raw :
  NoDup (map fst (_to_dict name raw)).
Proof. apply dict_update_keys. constructor. Qed.

(** X27. On the index that [Index._to_dict] builds from the raw list of types,
    the three tests of [struct_type] ([full_name in self.classes], then
    [in self.aliases], then [in self.enums]) select by the kind of the LAST
    raw entry of that name: a class entry gives a [ClassType], an alias entry
    an [AliasType], an enum entry an [EnumType], and a name with no entry a
    plain [StructType].  The three views never disagree, so the lookup is the
    single dispatch on [index.types]. *)
Theorem struct_type_last_entry (raw : list LuaType)
    (pp : string -> M ResolvedType)
    (sp : ResolvedType -> Typevars -> M ResolvedType) (full_name : string) :
  let types := _to_dict LuaType_name raw in
  struct_type_lookups types pp sp full_name
  = match lookup_last (map (fun it => (LuaType_name it, it)) raw) full_name with
    | Some (TClass c) => ret (ClassType full_name c)
    | Some (TAlias a) => mk_AliasType pp full_name a
    | Some (TEnum e) => mk_EnumType pp sp full_name e
    | None => ret (StructType full_name)
    end
  /\ struct_type_lookups types pp sp full_name
     = struct_type types pp sp full_name.
Proof.
  intros types.
  assert (Hget : dict_get types full_name
                 = lookup_last (map (fun it => (LuaType_name it, it)) raw)
                     full_name).
  { unfold types, _to_dict, dict_of_items. rewrite dict_get_update.
    now destruct (lookup_last _ full_name). }
  assert (Hdisp : struct_type_lookups types pp sp full_name
                  = match dict_get types full_name with
                    | Some (TClass c) => ret (ClassType full_name c)
                    | Some (TAlias a) => mk_AliasType pp full_name a
                    | Some (TEnum e) => mk_EnumType pp sp full_name e
                    | None => ret (StructType full_name)
                    end).
  { unfold struct_type_lookups, Index_classes, Index_aliases, Index_enums.
    pose proof (_to_dict_keys LuaType_name raw) as Hnd. fold types in Hnd.
    rewrite !Index_view_get by assumption.
    destruct (dict_get types full_name) as [[c|e|a]|]; reflexivity. }
  split.
  - now rewrite Hdisp, Hget.
  - rewrite Hdisp. unfold struct_type.
    destruct (dict_get types full_name) as [[c|e|a]|]; reflexivity.
Qed.

(* ------------------------------------------------------------------ *)
(** ** Equal values print alike *)
(* ------------------------------------------------------------------ *)

Lemma struct_eq_isinstance_more x : forall y,
  struct_eq x y = true ->
  isinstance_FunctionType x = isinstance_FunctionType y
  /\ isinstance_AnyType x = isinstance_AnyType y.
Proof.
  unfold struct_eq.
  induction x using ResolvedType_rect_nested; intros y;
    rewrite rt_eqb_eq; destruct y; try discriminate; intros Hxy;
    try (simpl; split; reflexivity); simpl in Hxy; exact (IHx _ Hxy).
Qed.

Lemma getattr_element_type_eq sc x : forall y,
  rt_eqb sc x y = true -> isinstance_VariadicType x = true ->
  exists ea eb, getattr_element_type x = Ok ea /\ getattr_element_type y = Ok eb
                /\ rt_eqb sc ea eb = true.
Proof.
  induction x using ResolvedType_rect_nested; intros y;
    rewrite rt_eqb_eq; destruct y; try discriminate;
    intros Hxy Hv; try discriminate Hv;
    apply andb_prop in Hxy as [_ Hxy]; simpl in *; eauto.
Qed.

Lemma getattr_rets_eq x : forall y,
  struct_eq x y = true -> isinstance_FunctionType x = true ->
  rets_shape (getattr_rets x) = rets_shape (getattr_rets y).
Proof.
  induction x using ResolvedType_rect_nested; intros y Hxy Hf;
    try discriminate Hf; pose proof Hxy as Hxy0;
    unfold struct_eq in Hxy; rewrite rt_eqb_eq in Hxy;
    destruct y; try discriminate.
  - apply andb_prop in Hxy as [_ Hr]. simpl.
    destruct rets, rets0; try discriminate; reflexivity.
  - simpl. apply IHx; auto.
  - destruct (struct_eq_isinstance _ _ Hxy0) as (_ & _ & _ & Hm).
    change (getattr_rets (ArrayType c x))
      with (if lookup_diverges (ArrayType c x) then Raise RecursionError
            else getattr_rets x).
    change (getattr_rets (ArrayType cls y))
      with (if lookup_diverges (ArrayType cls y) then Raise RecursionError
            else getattr_rets y).
    unfold lookup_diverges. rewrite Hm.
    destruct (method_class (ArrayType cls y)) as [[| |]|]; try reflexivity;
      apply IHx; auto.
  - simpl. apply IHx; auto.
Qed.

Lemma py_eq_sym x y : py_eq x y = py_eq y x.
Proof. apply rt_eqb_sym, Nat.eqb_sym. Qed.

Lemma py_eq_trans x y z :
  py_eq x y = true -> py_eq y z = true -> py_eq x z = true.
Proof.
  apply rt_eqb_trans. intros c d e. rewrite !Nat.eqb_eq. congruence.
Qed.

Lemma FieldKey_eqb_rel a a' b b' :
  FieldKey_rel a a' -> FieldKey_rel b b' ->
  FieldKey_eqb a b = FieldKey_eqb a' b'.
Proof.
  destruct a, a'; simpl; try contradiction; intros Ha;
    destruct b, b'; simpl; try contradiction; intros Hb; subst; try reflexivity.
  destruct (py_eq t t1) eqn:H1, (py_eq t0 t2) eqn:H2; try reflexivity.
  - rewrite <- H2. symmetry.
    apply py_eq_trans with t; [now rewrite py_eq_sym|].
    now apply py_eq_trans with t1.
  - rewrite <- H1.
    apply py_eq_trans with t0; [assumption|].
    apply py_eq_trans with t2; [assumption | now rewrite py_eq_sym].
Qed.

Section FieldsRel.
Variable V : Type.

Let R (a b : FieldKey * V) : Prop :=
  FieldKey_rel (fst a) (fst b) /\ snd a = snd b.

Lemma fields_set_rel d1 d2 k1 k2 (v : V) :
  Forall2 R d1 d2 -> FieldKey_rel k1 k2 ->
  Forall2 R (fields_set d1 k1 v) (fields_set d2 k2 v).
Proof.
  intros Hd Hk. induction Hd as [|[a va] [b vb] d1 d2 [Hab Hv] Hd IH]; simpl.
  - repeat constructor; assumption.
  - simpl in Hab, Hv. subst vb.
    rewrite (FieldKey_eqb_rel _ _ _ _ Hab Hk).
    destruct (FieldKey_eqb b k2); constructor; auto; split; auto.
Qed.

Lemma fields_loop_rel (L1 L2 : list (TableKey ResolvedType * V)) :
  Forall2 (fun a b =>
             match fst a, fst b with
             | KName x, KName y => x = y
             | KType x, KType y => py_eq x y = true
             | KNone, KNone => True
             | _, _ => False
             end /\ snd a = snd b) L1 L2 ->
  forall d1 d2 n, Forall2 R d1 d2 ->
  Forall2 R (fields_loop L1 d1 n) (fields_loop L2 d2 n).
Proof.
  induction 1 as [|[k1 v1] [k2 v2] L1 L2 [Hk Hv] _ IH]; intros d1 d2 n Hd;
    [exact Hd|].
  simpl in Hk, Hv. subst v2.
  destruct k1, k2; try contradiction; simpl; apply IH;
    apply fields_set_rel; auto; simpl; auto.
Qed.
End FieldsRel.

Lemma map_str_eq (l1 : list ResolvedType) :
  Forall (fun a => forall b, py_eq a b = true -> str a = str b) l1 ->
  forall l2, forall2b py_eq l1 l2 = true -> map str l1 = map str l2.
Proof.
  induction 1 as [|a l1 Ha _ IH]; intros [|b l2]; simpl; try discriminate;
    [reflexivity|].
  intros [H1 H2]%andb_prop. f_equal; auto.
Qed.

Lemma py_eq_struct_eq' x y : py_eq x y = true -> struct_eq x y = true.
Proof. apply rt_eqb_mono. reflexivity. Qed.

Lemma rendered_param_eq p1 p2 :
  (forall b, py_eq (snd p1) b = true -> str (snd p1) = str b) ->
  param_eqb py_eq p1 p2 = true ->
  rendered_param str p1 = rendered_param str p2.
Proof.
  destruct p1 as [n1 a], p2 as [n2 b]. unfold param_eqb. simpl.
  intros IH [Hn Hab]%andb_prop.
  assert (n1 = n2) as <-.
  { destruct n1, n2; simpl in Hn; try discriminate; [|reflexivity].
    apply String.eqb_eq in Hn. now subst. }
  pose proof (py_eq_struct_eq' _ _ Hab) as Hs.
  destruct (struct_eq_isinstance _ _ Hs) as (_ & Hv & _).
  unfold rendered_param. simpl. rewrite <- Hv, <- (IH _ Hab).
  destruct (isinstance_VariadicType a) eqn:Hva; [|reflexivity].
  destruct (@getattr_element_type_eq Nat.eqb a b Hab Hva)
    as (ea & eb & -> & -> & He).
  apply py_eq_struct_eq' in He.
  destruct (struct_eq_isinstance_more _ _ He) as (_ & Hany).
  simpl. now rewrite Hany.
Qed.

Lemma flat_map_Forall2 {A B} (R : A -> A -> Prop) (g : A -> list B) l1 l2 :
  (forall a b, R a b -> g a = g b) ->
  Forall2 R l1 l2 -> flat_map g l1 = flat_map g l2.
Proof.
  intros Hg. induction 1 as [|a b l1 l2 Hab _ IH]; simpl; [reflexivity|].
  now rewrite (Hg _ _ Hab), IH.
Qed.

(** X28. Values that compare equal with [==] print the same text: [__str__]
    reads only fields that the generated [__eq__] compares ([typedef], [typ]
    and the memo fields, declared [compare=False], are never printed), and two
    keys of a table that are equal fill the same slot of [TableType.fields]. *)
Theorem str_respects_eq (x : ResolvedType) :
  forall y, py_eq x y = true -> str x = str y.
Proof.
  induction x using ResolvedType_rect_nested; intros y Hxy;
    pose proof Hxy as Hxy0; unfold py_eq in Hxy; rewrite rt_eqb_eq in Hxy;
    destruct y; try discriminate Hxy;
    repeat match goal with
    | |- str ?a = str ?b => rewrite (str_eq a); try rewrite (str_eq b)
    end;
    try reflexivity.
  all: try (apply String.eqb_eq in Hxy; now subst).
  all: try (apply andb_prop in Hxy as [Hn Hl];
            apply String.eqb_eq in Hn; subst;
            now rewrite (map_str_eq H _ Hl)).
  all: try (apply andb_prop in Hxy as [Hl Ho];
            apply Bool.eqb_prop in Ho; subst;
            now rewrite (map_str_eq H _ Hl)).
  all: try (now rewrite (map_str_eq H _ Hxy)).
  - (* integer *) apply Z.eqb_eq in Hxy. now subst.
  - (* boolean *) apply Bool.eqb_prop in Hxy. now subst.
  - (* table *)
    apply andb_prop in Hxy as [Hl Ho]. apply Bool.eqb_prop in Ho. subst omitted0.
    assert (HL : Forall2
              (fun a b =>
                 match fst a, fst b with
                 | KName x, KName y => x = y
                 | KType x, KType y => py_eq x y = true
                 | KNone, KNone => True
                 | _, _ => False
                 end /\ snd a = snd b)
              (map (rendered_field str) fields)
              (map (rendered_field str) _fields)).
    { clear -H Hl. revert _fields Hl.
      induction H as [|[k1 a] l1 [Hk Ha] _ IH]; intros [|[k2 b] l2]; simpl;
        try discriminate; [constructor|].
      intros [Hf Hl]%andb_prop. constructor; [|now apply IH].
      unfold field_eqb in Hf. simpl in Hf, Hk, Ha.
      apply andb_prop in Hf as [Hkk Hab].
      unfold rendered_field. simpl. rewrite (Ha _ Hab).
      destruct k1, k2; try discriminate Hkk; simpl.
      - apply String.eqb_eq in Hkk. now subst.
      - split; [exact Hkk|]. now rewrite (Hk _ Hkk).
      - split; reflexivity. }
    pose proof (@fields_loop_rel _ _ _ HL [] [] 1 (Forall2_nil _)) as HR.
    cbv zeta.
    set (f1 := fields_loop (map (rendered_field str) fields) [] 1) in *.
    set (f2 := fields_loop (map (rendered_field str) _fields) [] 1) in *.
    clearbody f1 f2. clear -HR.
    repeat match goal with
    | |- context [flat_map ?g f1] =>
        let Hg := fresh "Hg" in
        assert (Hg : forall a b : FieldKey * (Res string * Res string),
                   FieldKey_rel (fst a) (fst b) /\ snd a = snd b -> g a = g b)
          by (intros [k1 [a1 b1]] [k2 [a2 b2]] [Hk Hv];
              simpl in Hk, Hv; injection Hv as <- <-;
              destruct k1, k2; try contradiction;
              simpl in Hk; subst; reflexivity);
        rewrite (@flat_map_Forall2 _ _ _ g f1 f2 Hg HR); clear Hg
    end.
    destruct HR; reflexivity.
  - (* function *)
    apply andb_prop in Hxy as [Hp Hr].
    assert (Hps : map (rendered_param str) params
                  = map (rendered_param str) params0).
    { clear -H Hp. revert params0 Hp.
      induction H as [|p l1 Hp1 _ IH]; intros [|q l2]; simpl; try discriminate;
        [reflexivity|].
      intros [H1 H2]%andb_prop. f_equal; [|now apply IH].
      now apply rendered_param_eq. }
    assert (Hnames : existsb (fun p => option_eqb String.eqb (fst p) (Some "..."))
                       params
                     = existsb (fun p => option_eqb String.eqb (fst p) (Some "..."))
                         params0).
    { clear -Hp. revert params0 Hp.
      induction params as [|[n1 a] l1 IH]; intros [|[n2 b] l2]; simpl;
        try discriminate; [reflexivity|].
      unfold param_eqb at 1. simpl.
      intros [[Hn _]%andb_prop H2]%andb_prop. rewrite (IH _ H2). f_equal.
      destruct n1, n2; simpl in Hn; try discriminate; [|reflexivity].
      apply String.eqb_eq in Hn. now subst. }
    rewrite Hps, Hnames.
    destruct rets as [r|], rets0 as [r0|]; try discriminate Hr; [|reflexivity].
    simpl in Hr. now rewrite (H0 _ Hr).
  - (* optional *)
    apply andb_prop in Hxy as [_ Hxy].
    destruct (struct_eq_isinstance_more _ _ (py_eq_struct_eq' _ _ Hxy)) as [Hf _].
    now rewrite (IHx _ Hxy), Hf.
  - (* array *)
    destruct (struct_eq_isinstance _ _ (py_eq_struct_eq' _ _ Hxy0))
      as (_ & _ & _ & Hm).
    apply andb_prop in Hxy as [_ Hxy].
    pose proof (py_eq_struct_eq' _ _ Hxy) as Hs.
    destruct (struct_eq_isinstance_more _ _ Hs) as [Hf _].
    rewrite Hm, (IHx _ Hxy), Hf.
    destruct (isinstance_FunctionType y) eqn:Hfy; [|reflexivity].
    pose proof (getattr_rets_eq _ _ Hs Hf) as Hsh.
    destruct (method_class (ArrayType cls y)) as [[| |]|]; try reflexivity;
      destruct (getattr_rets x) as [[?|]|?], (getattr_rets y) as [[?|]|?];
      simpl in Hsh; try discriminate Hsh; try reflexivity;
      injection Hsh as <-; reflexivity.
  - (* variadic *)
    apply andb_prop in Hxy as [_ Hxy].
    destruct (struct_eq_isinstance_more _ _ (py_eq_struct_eq' _ _ Hxy)) as [Hf _].
    now rewrite (IHx _ Hxy), Hf.
Qed.

Lemma str_respects_eq_witness :
  py_eq (TableType [(KType (ClassType "Foo" (Class.mk "Foo" [] [] [])),
                     AliasType "Id" (Alias.mk "Id" (Some "string") [] [])
                       StringType)] false)
        (TableType [(KType (ClassType "Foo" (Class.mk "Foo" ["Base"] [] [])),
                     AliasType "Id" (Alias.mk "Id" (Some "integer") [] [])
                       IntegerType)] false) = true
  /\ str (TableType [(KType (ClassType "Foo" (Class.mk "Foo" [] [] [])),
                      AliasType "Id" (Alias.mk "Id" (Some "string") [] [])
                        StringType)] false)
     = str (TableType [(KType (ClassType "Foo" (Class.mk "Foo" ["Base"] [] [])),
                        AliasType "Id" (Alias.mk "Id" (Some "integer") [] [])
                          IntegerType)] false).
Proof. split; [reflexivity | apply str_respects_eq; reflexivity]. Defined.

(* ------------------------------------------------------------------ *)
(** ** C8: the value type of an enum *)
(* ------------------------------------------------------------------ *)

(** Dictionaries built alike from related items are related. *)
Section DictRel.
Variables (V W : Type) (Q : V -> W -> Prop).

Let P (a : string * V) (b : string * W) : Prop :=
  fst a = fst b /\ Q (snd a) (snd b).



End DictRel.





